(** * talk-trace-bot: the summarization pipeline and its scheduler

    A shallow embedding of the Go sources

    - [internal/llm/client.go]: token estimator, chunker, topic merger,
      input budget;
    - [internal/summarizer]: HTML escaping and the display formatter;
    - [internal/model], [internal/scheduler/scheduler.go]: task store,
      retention sweep, the two-phase task processing and start-up recovery.

    Go strings are byte strings and are modelled by [string]; where the
    source ranges over runes the bytes are decoded as Go does.  Go [int] and
    [int64] are modelled by [Z]. *)

From Stdlib Require Import ZArith String Ascii List Bool Lia DecimalString.
From Stdlib Require Import Floats.SpecFloat.
From stdpp Require Import gmap strings list.

#[local] Set Warnings "-clear-no-such-hyp".

Local Open Scope Z_scope.

(** ** Go strings *)

Module GoString.

(** The bytes of a string, as numbers in [0, 256). *)
Definition byte_of (a : ascii) : Z := Z.of_N (N_of_ascii a).

Fixpoint bytes (s : string) : list Z :=
  match s with
  | EmptyString => []
  | String a s' => byte_of a :: bytes s'
  end.

(** [len(s)]: the number of bytes. *)
Definition len (s : string) : Z := Z.of_nat (String.length s).

Definition newline : string := String (ascii_of_nat 10) "".

(** The double quote character. *)
Definition quote : string := String (ascii_of_nat 34) "".

(** Go [int] and [int64] are 64 bits wide: the value a result wraps to. *)
Definition wrap_int (z : Z) : Z := (z + 2 ^ 63) mod 2 ^ 64 - 2 ^ 63.

(** [strings.Index]: the byte offset of the first occurrence of [sub],
    or -1. *)
Fixpoint Index (s sub : string) : Z :=
  if String.prefix sub s then 0
  else match s with
       | EmptyString => -1
       | String _ s' =>
           let i := Index s' sub in if i <? 0 then -1 else i + 1
       end.

(** [strings.ReplaceAll] for a pattern [old] of one byte. *)
Fixpoint ReplaceAll (s : string) (old : ascii) (new : string) : string :=
  match s with
  | EmptyString => EmptyString
  | String a s' =>
      if Ascii.eqb a old then new +:+ ReplaceAll s' old new
      else String a (ReplaceAll s' old new)
  end.

(** [fmt.Sprintf("%d", z)]. *)
Definition itoa (z : Z) : string := NilZero.string_of_int (Z.to_int z).

(** [utf8.RuneError], produced for every byte that does not start a
    well-formed encoding. *)
Definition RuneError : Z := 0xFFFD.

Definition is_cont (b : Z) : bool := (0x80 <=? b) && (b <=? 0xBF).

(** The range accepted for the second byte, by leading byte
    ([acceptRanges] of package [unicode/utf8]). *)
Definition accept_second (b0 b1 : Z) : bool :=
  if b0 =? 0xE0 then (0xA0 <=? b1) && (b1 <=? 0xBF)
  else if b0 =? 0xED then (0x80 <=? b1) && (b1 <=? 0x9F)
  else if b0 =? 0xF0 then (0x90 <=? b1) && (b1 <=? 0xBF)
  else if b0 =? 0xF4 then (0x80 <=? b1) && (b1 <=? 0x8F)
  else is_cont b1.

(** Decoding of one rune at the head of a byte sequence: the rune and the
    number of bytes it takes ([utf8.DecodeRuneInString]). *)
Definition decode_rune (b0 : Z) (tl : list Z) : Z * nat :=
  if b0 <? 0x80 then (b0, 1%nat)
  else if (b0 <? 0xC2) || (0xF4 <? b0) then (RuneError, 1%nat)
  else if b0 <? 0xE0 then
    match tl with
    | b1 :: _ =>
        if accept_second b0 b1
        then (Z.lor (Z.shiftl (Z.land b0 0x1F) 6) (Z.land b1 0x3F), 2%nat)
        else (RuneError, 1%nat)
    | _ => (RuneError, 1%nat)
    end
  else if b0 <? 0xF0 then
    match tl with
    | b1 :: b2 :: _ =>
        if accept_second b0 b1 && is_cont b2
        then (Z.lor (Z.lor (Z.shiftl (Z.land b0 0x0F) 12)
                           (Z.shiftl (Z.land b1 0x3F) 6))
                    (Z.land b2 0x3F), 3%nat)
        else (RuneError, 1%nat)
    | _ => (RuneError, 1%nat)
    end
  else
    match tl with
    | b1 :: b2 :: b3 :: _ =>
        if accept_second b0 b1 && is_cont b2 && is_cont b3
        then (Z.lor (Z.lor (Z.lor (Z.shiftl (Z.land b0 0x07) 18)
                                  (Z.shiftl (Z.land b1 0x3F) 12))
                           (Z.shiftl (Z.land b2 0x3F) 6))
                    (Z.land b3 0x3F), 4%nat)
        else (RuneError, 1%nat)
    | _ => (RuneError, 1%nat)
    end.

(** [for _, r := range text]: the runes of a byte sequence.  The fuel is
    the number of bytes, which always suffices since every step consumes
    at least one. *)
Fixpoint decode (fuel : nat) (bs : list Z) : list Z :=
  match fuel, bs with
  | S fuel', b0 :: tl =>
      let '(r, w) := decode_rune b0 tl in
      r :: decode fuel' (drop (pred w) tl)
  | _, _ => []
  end.

Definition runes (s : string) : list Z :=
  let bs := bytes s in decode (List.length bs) bs.

(** [utf8.ValidString]: every decoding step is a one-byte rune or a
    well-formed multi-byte encoding. *)
Fixpoint valid_bytes (fuel : nat) (bs : list Z) : bool :=
  match fuel, bs with
  | _, [] => true
  | S fuel', b0 :: tl =>
      let '(r, w) := decode_rune b0 tl in
      ((b0 <? 0x80) || Nat.ltb 1 w) && valid_bytes fuel' (drop (pred w) tl)
  | O, _ :: _ => false
  end.

Definition ValidString (s : string) : bool :=
  let bs := bytes s in valid_bytes (List.length bs) bs.

(** [s] ends on a rune boundary of [s +:+ u]: decoding the concatenation
    decodes [s] first. *)
Definition rune_boundary (s u : string) : Prop :=
  runes (s +:+ u) = runes s ++ runes u.

(** [unicode.IsSpace]. *)
Definition IsSpace (r : Z) : bool :=
  ((0x09 <=? r) && (r <=? 0x0D)) || (r =? 0x20) || (r =? 0x85) || (r =? 0xA0)
  || (r =? 0x1680) || ((0x2000 <=? r) && (r <=? 0x200A))
  || (r =? 0x2028) || (r =? 0x2029) || (r =? 0x202F) || (r =? 0x205F)
  || (r =? 0x3000).

(** [len(strings.Fields(text))]: the number of maximal runs of runes that
    are not white space.  [inword] tells whether the previous rune
    belonged to a field. *)
Fixpoint count_fields (inword : bool) (rs : list Z) : Z :=
  match rs with
  | [] => 0
  | r :: rs' =>
      if IsSpace r then count_fields false rs'
      else (if inword then 0 else 1) + count_fields true rs'
  end.

Definition FieldsLen (s : string) : Z := count_fields false (runes s).

End GoString.

(** ** [internal/llm/client.go] *)

Module LLM.
Import GoString.

(** The rune test of the first loop of [estimateTokens]. *)
Definition is_cjk (r : Z) : bool := (0x4e00 <=? r) && (r <=? 0x9fff).

Definition count_cjk (rs : list Z) : Z :=
  Z.of_nat (List.length (List.filter is_cjk rs)).

(** Go's [float64] is IEEE 754 binary64: 53 bits of precision, exponents up
    to 1024, operations rounded to nearest even. *)
Definition f64_of_int (z : Z) : spec_float := binary_normalize 53 1024 z 0 false.

Definition f64_mul : spec_float -> spec_float -> spec_float := SFmul 53 1024.

Definition f64_add : spec_float -> spec_float -> spec_float := SFadd 53 1024.

(** The constants [1.5] and [1.3] as binary64 values: [1.5] is exact,
    [1.3] is rounded to [5854679515581645 * 2^-52]. *)
Definition f64_1_5 : spec_float := S754_finite false 6755399441055744 (-52).

Definition f64_1_3 : spec_float := S754_finite false 5854679515581645 (-52).

(** [int(x)] for a finite [x]: truncation towards zero. *)
Definition int_of_f64 (x : spec_float) : Z :=
  match x with
  | S754_finite s m e =>
      let v := if 0 <=? e then Z.pos m * 2 ^ e else Z.pos m / 2 ^ (- e) in
      if s then - v else v
  | _ => 0
  end.

(** [int(float64(chineseChars)*1.5 + float64(englishWords)*1.3)], bit for
    bit. *)
Definition weigh_f64 (chineseChars englishWords : Z) : Z :=
  int_of_f64 (f64_add (f64_mul (f64_of_int chineseChars) f64_1_5)
                      (f64_mul (f64_of_int englishWords) f64_1_3)).

(** The same value as an integer quotient.  The sum [1.5 c + 1.3 w] has a
    fractional part that is a multiple of 1/10, the constant [1.3] is
    rounded upwards and rounding is monotone, so for the counts of a string
    the binary64 result truncates to the quotient of [15 c + 13 w] by 10;
    the properties below are stated for this form. *)
Definition weigh (chineseChars englishWords : Z) : Z :=
  (15 * chineseChars + 13 * englishWords) / 10.

(** [estimateTokens].  The letter count of the loop is overwritten by the
    number of fields before it is read, as in the source. *)
Definition estimateTokens (text : string) : Z :=
  let chineseChars := count_cjk (runes text) in
  let englishWords := FieldsLen text in
  let tokens := weigh chineseChars englishWords in
  if tokens <? len text / 4 then len text / 4 else tokens.

(** [ChatMessage]. *)
Record ChatMessage := {
  MessageID : Z;
  SenderID : Z;
  SenderName : string;
  Text : string
}.

(** The JSON types of the LLM reply; the fields carry their JSON names. *)
Record topicSubItemJSON := {
  sender_name : string;
  description : string;
  message_ids : list Z
}.

Record topicItemJSON := {
  title : string;
  items : list topicSubItemJSON
}.

Record topicsSummaryJSON := {
  topics : list topicItemJSON
}.

(** [fmt.Sprintf("[%s|%d] %s", m.SenderName, m.MessageID, m.Text)]. *)
Definition line (m : ChatMessage) : string :=
  "[" +:+ SenderName m +:+ "|" +:+ itoa (MessageID m) +:+ "] " +:+ Text m.

(** [strings.Join]. *)
Fixpoint Join (parts : list string) (sep : string) : string :=
  match parts with
  | [] => ""
  | [x] => x
  | x :: rest => x +:+ sep +:+ Join rest sep
  end.

Definition messagesToPromptText (msgs : list ChatMessage) : string :=
  Join (map line msgs) newline.

(** The loop state of [splitMessagesIntoChunks]:
    [(chunks, current, currentTokens)]. *)
Definition split_state : Type :=
  list (list ChatMessage) * list ChatMessage * Z.

Definition split_step (maxTokensPerChunk : Z) (st : split_state)
    (m : ChatMessage) : split_state :=
  let '(chunks, current, currentTokens) := st in
  let tokens := estimateTokens (line m) in
  let '(chunks, current, currentTokens) :=
    if (currentTokens + tokens >? maxTokensPerChunk)
       && (0 <? Z.of_nat (List.length current))
    then (chunks ++ [current], [], 0)
    else (chunks, current, currentTokens) in
  (chunks, current ++ [m], currentTokens + tokens).

Definition splitMessagesIntoChunks (msgs : list ChatMessage)
    (maxTokensPerChunk : Z) : list (list ChatMessage) :=
  match msgs with
  | [] => []
  | _ =>
      let '(chunks, current, _) :=
        fold_left (split_step maxTokensPerChunk) msgs ([], [], 0) in
      if 0 <? Z.of_nat (List.length current)
      then chunks ++ [current] else chunks
  end.

(** The token count the chunker keeps for a chunk: the sum of the
    estimates of its lines ([currentTokens]). *)
Definition chunkTokens (chunk : list ChatMessage) : Z :=
  fold_right (fun m acc => estimateTokens (line m) + acc) 0 chunk.

(** [formatTopicsForContext]. *)
Definition formatItemForContext (item : topicSubItemJSON) : string :=
  "   - " +:+ sender_name item +:+ ": " +:+ description item +:+ " (msg:"
  +:+ Join (map itoa (message_ids item)) "," +:+ ")" +:+ newline.

Definition formatTopicsForContext (ts : list topicItemJSON) : string :=
  String.concat ""
    (imap (fun i t =>
             itoa (Z.of_nat i + 1) +:+ ". " +:+ title t +:+ newline
             +:+ String.concat "" (map formatItemForContext (items t)))
          ts).

(** A Go [map[string]int] filled by
    [for i, x := range l { m[key(x)] = i }]. *)
Definition index_map {A} (key : A -> string) (l : list A) : gmap string nat :=
  fold_left (fun m (ix : nat * A) => <[key ix.2 := ix.1]> m) (imap pair l) ∅.

(** [mergeMessageIDs]; [seen] is the Go [map[int64]bool], read with the
    zero value [false] for an absent key. *)
Definition mark_seen (seen : gmap Z bool) (ids : list Z) : gmap Z bool :=
  fold_left (fun s id => <[id := true]> s) ids seen.

Definition take_seen (st : list Z * gmap Z bool) (id : Z)
    : list Z * gmap Z bool :=
  let '(result, seen) := st in
  if default false (seen !! id)
  then (result ++ [id], delete id seen)
  else (result, seen).

Definition mergeMessageIDs (a b : list Z) : list Z :=
  let seen := mark_seen (mark_seen ∅ a) b in
  (fold_left take_seen b (fold_left take_seen a ([], seen))).1.

(** [mergeTopicItems].  The index read from [oldItemMap] is an index of
    [old.Items], a prefix of [merged.Items], so the slice access is always
    in range; the [None] branch stands for Go's index panic. *)
Definition merge_item (oldItemMap : gmap string nat)
    (mergedItems : list topicSubItemJSON) (newItem : topicSubItemJSON)
    : list topicSubItemJSON :=
  match oldItemMap !! sender_name newItem with
  | Some oldIdx =>
      match mergedItems !! oldIdx with
      | Some cur =>
          <[oldIdx :=
              {| sender_name := sender_name newItem;
                 description := description newItem;
                 message_ids :=
                   mergeMessageIDs (message_ids cur) (message_ids newItem) |}]>
            mergedItems
      | None => mergedItems
      end
  | None => mergedItems ++ [newItem]
  end.

Definition mergeTopicItems (old new : topicItemJSON) : topicItemJSON :=
  let oldItemMap := index_map sender_name (items old) in
  {| title := title new;
     items := fold_left (merge_item oldItemMap) (items new) (items old) |}.

(** [mergeTopics]; a nil pointer is [None]. *)
Definition merge_topic (oldTopicMap : gmap string nat)
    (resultTopics : list topicItemJSON) (pt : topicItemJSON)
    : list topicItemJSON :=
  match oldTopicMap !! title pt with
  | Some oldIdx =>
      match resultTopics !! oldIdx with
      | Some cur => <[oldIdx := mergeTopicItems cur pt]> resultTopics
      | None => resultTopics
      end
  | None => resultTopics ++ [pt]
  end.

Definition mergeTopics (accumulated partial : option topicsSummaryJSON)
    : option topicsSummaryJSON :=
  match accumulated, partial with
  | None, _ => partial
  | Some _, None => accumulated
  | Some acc, Some p =>
      let oldTopicMap := index_map title (topics acc) in
      Some {| topics :=
                fold_left (merge_topic oldTopicMap) (topics p) (topics acc) |}
  end.

(** [config.LLM] and [Client]. *)
Record LLMConfig := {
  BaseURL : string;
  APIKey : string;
  Model : string;
  MaxTokens : Z
}.

Record Client := {
  config : LLMConfig;
  maxInputTokens : Z
}.

Definition NewClient (cfg : LLMConfig) : Client :=
  {| config := cfg; maxInputTokens := wrap_int (MaxTokens cfg - 2000) |}.

(** The errors of [SummarizeChat]; [i] is the one-based chunk number. *)
Inductive llm_error :=
| ErrOnce
| ErrChunk (i : Z)
| ErrChunkJSON (i : Z).

(** The chunk loop of [SummarizeChat].  [once chunkContent prevTopics] is
    [summarizeChatOnce] (the HTTP exchange), [unmarshal] is
    [json.Unmarshal] into [topicsSummaryJSON]. *)
Fixpoint summarize_chunks (once : string -> string -> option string)
    (unmarshal : string -> option topicsSummaryJSON)
    (i : Z) (chunks : list (list ChatMessage))
    (accumulated : option topicsSummaryJSON)
    : llm_error + option topicsSummaryJSON :=
  match chunks with
  | [] => inr accumulated
  | chunkMsgs :: rest =>
      let chunkText := messagesToPromptText chunkMsgs in
      let prevTopics :=
        match accumulated with
        | Some acc => formatTopicsForContext (topics acc)
        | None => ""
        end in
      match once chunkText prevTopics with
      | None => inl (ErrChunk (i + 1))
      | Some raw =>
          match unmarshal raw with
          | None => inl (ErrChunkJSON (i + 1))
          | Some partial =>
              summarize_chunks once unmarshal (i + 1) rest
                (mergeTopics accumulated (Some partial))
          end
      end
  end.

(** [SummarizeChat]; [marshal] is [json.Marshal]. *)
Definition SummarizeChat (c : Client)
    (once : string -> string -> option string)
    (unmarshal : string -> option topicsSummaryJSON)
    (marshal : option topicsSummaryJSON -> string)
    (messages : list ChatMessage) : llm_error + string :=
  match messages with
  | [] => inr ""
  | _ =>
      let chatText := messagesToPromptText messages in
      let tokens := estimateTokens chatText in
      if tokens <=? maxInputTokens c then
        match once chatText "" with
        | Some raw => inr raw
        | None => inl ErrOnce
        end
      else
        let chunks := splitMessagesIntoChunks messages (maxInputTokens c) in
        match summarize_chunks once unmarshal 0 chunks None with
        | inl e => inl e
        | inr accumulated => inr (marshal accumulated)
        end
  end.

End LLM.

(** ** [internal/summarizer] *)

Module Summarizer.
Import GoString.

Record TopicSubItem := {
  SenderName : string;
  Description : string;
  MessageIDs : list Z
}.

Record TopicItem := {
  Title : string;
  Items : list TopicSubItem
}.

Record SummaryResult := {
  Topics : list TopicItem
}.

(** [escapeHTML]: four replacements in sequence, the ampersand first. *)
Definition escapeHTML (text : string) : string :=
  let result := ReplaceAll text "&" "&amp;" in
  let result := ReplaceAll result "<" "&lt;" in
  let result := ReplaceAll result ">" "&gt;" in
  let result := ReplaceAll result (ascii_of_nat 34) "&quot;" in
  result.

(** [buildMessageLink]. *)
Definition buildMessageLink (chatID messageID : Z) : string :=
  let channelID := wrap_int (wrap_int (- chatID) - 1000000000000) in
  if channelID <=? 0 then ""
  else "https://t.me/c/" +:+ itoa channelID +:+ "/" +:+ itoa messageID.

(** The body of the innermost loop of [FormatSummaryForDisplay]. *)
Definition formatLink (chatID msgID : Z) : string :=
  let link := buildMessageLink chatID msgID in
  if String.eqb link "" then ""
  else " [<a href=" +:+ quote +:+ escapeHTML link +:+ quote +:+ ">link</a>]".

Definition formatItem (chatID : Z) (item : TopicSubItem) : string :=
  "- <b>" +:+ escapeHTML (SenderName item) +:+ "</b> "
  +:+ escapeHTML (Description item)
  +:+ String.concat "" (map (formatLink chatID) (MessageIDs item))
  +:+ newline.

Definition formatTopic (chatID : Z) (i : nat) (topic : TopicItem) : string :=
  newline +:+ itoa (Z.of_nat i + 1) +:+ ". " +:+ escapeHTML (Title topic)
  +:+ newline
  +:+ String.concat "" (map (formatItem chatID) (Items topic)).

Definition header (startDate endDate : string) : string :=
  "📊 <b>群组总结</b>" +:+ newline
  +:+ "📅 " +:+ escapeHTML startDate +:+ " 至 " +:+ escapeHTML endDate
  +:+ " (UTC)" +:+ newline.

(** [FormatSummaryForDisplay]; a nil result is [None]. *)
Definition FormatSummaryForDisplay (result : option SummaryResult)
    (chatID : Z) (startDate endDate : string) : string :=
  match result with
  | None => ""
  | Some r =>
      match Topics r with
      | [] => ""
      | _ =>
          header startDate endDate
          +:+ String.concat "" (imap (formatTopic chatID) (Topics r))
      end
  end.

End Summarizer.

(** ** [internal/model]: the rows and the store operations *)

Module Ent.

(** Go [error] values of the scheduler and of what it calls; the text kept
    in a row is [err.Error()]. *)
Inductive error :=
| ErrCancelled                                   (* "任务已取消" *)
| ErrStore                                       (* the store refused the call *)
| ErrNotFound                                    (* [ent.NotFoundError] *)
| ErrBackend                                     (* the LLM call failed *)
| ErrGetMessages (cause : error)                 (* "获取消息失败: %w" *)
| ErrLLMSummarize (cause : error)                (* "LLM 总结失败: %w" *)
| ErrParseJSON                                   (* "解析 LLM 返回的 JSON 失败: %w" *)
| ErrSummaryRetries (retryTimes : Z) (cause : error)
| ErrQueryRetries (retryTimes : Z) (cause : error).

Inductive TaskStatus :=
| StatusPending
| StatusProcessing
| StatusCompleted
| StatusFailed.

Definition status_eqb (a b : TaskStatus) : bool :=
  match a, b with
  | StatusPending, StatusPending
  | StatusProcessing, StatusProcessing
  | StatusCompleted, StatusCompleted
  | StatusFailed, StatusFailed => true
  | _, _ => false
  end.

(** Instants ([time.Time]) are nanoseconds since the Unix epoch, in UTC. *)
Definition day : Z := 86400 * 10 ^ 9.

(** [t.AddDate(0, 0, days)] in UTC, which has no daylight saving and, in
    Go, no leap seconds: the same wall-clock time [days] days later. *)
Definition AddDays (t days : Z) : Z := t + days * day.

(** [time.Date(t.Year(), t.Month(), t.Day(), 0, 0, 0, 0, time.UTC)]. *)
Definition StartOfDay (t : Z) : Z := t - t mod day.

Module Message.
Record t := {
  MessageID : Z;
  ChatID : Z;
  SenderID : Z;
  SenderName : string;
  Text : string;
  SentAt : Z
}.
End Message.

Module Task.
Record t := {
  ID : Z;
  ChatID : Z;
  StartTime : Z;
  EndTime : Z;
  Status : TaskStatus;
  CompletedAt : option Z;
  ErrorMessage : option error;
  SummaryContent : string
}.
End Task.

End Ent.

(** ** [internal/scheduler/scheduler.go] *)

Module Scheduler.
Import GoString Ent.

(** [config.Summary]. *)
Record SummaryConfig := {
  Cron : string;
  RetentionDays : Z;
  RangeDays : Z;
  NotifyMode : string;
  NotifyUserIds : list Z;
  RetryTimes : Z;
  RetryInterval : Z
}.

(** A mutation asked of the task store. *)
Inductive TaskOp :=
| OpReset
| OpStatus (status : TaskStatus) (errorMsg : option error)
| OpSetSummary (content : string)
| OpClearSummary.

(** What the scheduler does to the outside, in order. *)
Inductive Event :=
| EvSummarizeRange (chatID startTime endTime : Z)
| EvLLM (chatID : Z)
| EvNotify (chatID : Z) (summary : string) (ok : bool)
| EvTaskWrite (id : Z) (op : TaskOp) (applied : bool)
| EvDelete (cutoff : Z) (applied : bool).

(** The collaborators of the scheduler.  Time is counted in ticks, one per
    blocking call (LLM request, notification, retry sleep); the answers of
    the collaborators are given per tick.  Whether the store runs a call on
    a cancelled context is not decided by the sources at hand and is a
    parameter. *)
Record Env := {
  cancel_at : option nat;
  now : nat -> Z;
  llm : nat -> list LLM.ChatMessage -> error + string;
  unmarshal : string -> option Summarizer.SummaryResult;
  notify : nat -> string -> Z -> bool;
  store_honours_ctx : bool;
  format_date : Z -> string
}.

Record World := {
  clock : nat;
  messages : list Message.t;
  tasks : list Task.t;
  log : list Event
}.

(** The state monad of the scheduler. *)
Definition M (A : Type) : Type := World -> A * World.

Definition ret {A} (a : A) : M A := fun w => (a, w).

Definition bind {A B} (c : M A) (k : A -> M B) : M B :=
  fun w => let '(a, w') := c w in k a w'.

Declare Scope sched_scope.
Delimit Scope sched_scope with sched.
Notation "'let*' x ':=' c 'in' k" := (bind c (fun x => k))
  (at level 10, x pattern, c at level 100, k at level 200) : sched_scope.
Notation "c ;; k" := (bind c (fun _ => k))
  (at level 100, right associativity) : sched_scope.
Local Open Scope sched_scope.

Definition get : M World := fun w => (w, w).

Definition tick : M unit :=
  fun w => (tt, {| clock := S (clock w); messages := messages w;
                   tasks := tasks w; log := log w |}).

Definition emit (ev : Event) : M unit :=
  fun w => (tt, {| clock := clock w; messages := messages w;
                   tasks := tasks w; log := log w ++ [ev] |}).

Definition set_tasks (ts : list Task.t) : M unit :=
  fun w => (tt, {| clock := clock w; messages := messages w;
                   tasks := ts; log := log w |}).

Definition set_messages (ms : list Message.t) : M unit :=
  fun w => (tt, {| clock := clock w; messages := ms;
                   tasks := tasks w; log := log w |}).

(** [<-ctx.Done()] is ready. *)
Definition ctx_done (env : Env) (w : World) : bool :=
  match cancel_at env with
  | Some n => (n <=? clock w)%nat
  | None => false
  end.

Definition done (env : Env) : M bool := fun w => (ctx_done env w, w).

(** The store runs the call. *)
Definition store_ok (env : Env) (w : World) : bool :=
  negb (store_honours_ctx env && ctx_done env w).

(** [select { case <-ctx.Done(): ...; case <-time.After(d): }]: true when
    the sleep was cut short by the cancel signal. *)
Definition sleep_or_done (env : Env) : M bool := tick ;; done env.

(** *** The task store *)

Definition has_task (id : Z) (ts : list Task.t) : bool :=
  existsb (fun t => Task.ID t =? id) ts.

Definition find_task (id : Z) (ts : list Task.t) : option Task.t :=
  List.find (fun t => Task.ID t =? id) ts.

(** [client.UpdateOneID(id)...Exec(ctx)]. *)
Definition update_task (env : Env) (id : Z) (op : TaskOp)
    (f : Task.t -> Task.t) : M (option error) :=
  let* w := get in
  if store_ok env w then
    if has_task id (tasks w) then
      set_tasks (map (fun t => if Task.ID t =? id then f t else t) (tasks w)) ;;
      emit (EvTaskWrite id op true) ;;
      ret None
    else emit (EvTaskWrite id op false) ;; ret (Some ErrNotFound)
  else emit (EvTaskWrite id op false) ;; ret (Some ErrStore).

Definition UpdateTaskStatus (env : Env) (taskID : Z) (status : TaskStatus)
    (errorMsg : option error) : M (option error) :=
  let* w := get in
  update_task env taskID (OpStatus status errorMsg)
    (fun t =>
       {| Task.ID := Task.ID t; Task.ChatID := Task.ChatID t;
          Task.StartTime := Task.StartTime t; Task.EndTime := Task.EndTime t;
          Task.Status := status;
          Task.CompletedAt :=
            if status_eqb status StatusCompleted
            then Some (now env (clock w)) else Task.CompletedAt t;
          Task.ErrorMessage :=
            match errorMsg with
            | Some e => Some e
            | None => Task.ErrorMessage t
            end;
          Task.SummaryContent := Task.SummaryContent t |}).

Definition MarkTaskCompleted (env : Env) (taskID : Z) : M (option error) :=
  UpdateTaskStatus env taskID StatusCompleted None.

Definition MarkTaskFailed (env : Env) (taskID : Z) (errorMsg : error)
    : M (option error) :=
  UpdateTaskStatus env taskID StatusFailed (Some errorMsg).

Definition ResetTaskToPending (env : Env) (taskID : Z) : M (option error) :=
  update_task env taskID OpReset
    (fun t =>
       {| Task.ID := Task.ID t; Task.ChatID := Task.ChatID t;
          Task.StartTime := Task.StartTime t; Task.EndTime := Task.EndTime t;
          Task.Status := StatusPending;
          Task.CompletedAt := None;
          Task.ErrorMessage := None;
          Task.SummaryContent := Task.SummaryContent t |}).

Definition with_summary (content : string) (t : Task.t) : Task.t :=
  {| Task.ID := Task.ID t; Task.ChatID := Task.ChatID t;
     Task.StartTime := Task.StartTime t; Task.EndTime := Task.EndTime t;
     Task.Status := Task.Status t;
     Task.CompletedAt := Task.CompletedAt t;
     Task.ErrorMessage := Task.ErrorMessage t;
     Task.SummaryContent := content |}.

Definition SetSummaryContent (env : Env) (taskID : Z) (content : string)
    : M (option error) :=
  update_task env taskID (OpSetSummary content) (with_summary content).

Definition ClearSummaryContent (env : Env) (taskID : Z) : M (option error) :=
  update_task env taskID OpClearSummary (with_summary "").

(** [GetPendingOrProcessingTasks]: rows are kept in creation order. *)
Definition GetPendingOrProcessingTasks (env : Env)
    : M (list Task.t * option error) :=
  let* w := get in
  if store_ok env w then
    ret (List.filter
           (fun t => status_eqb (Task.Status t) StatusPending
                     || status_eqb (Task.Status t) StatusProcessing)
           (tasks w), None)
  else ret ([], Some ErrStore).

Definition same_key (chatID startTime endTime : Z) (t : Task.t) : bool :=
  (Task.ChatID t =? chatID) && (Task.StartTime t =? startTime)
  && (Task.EndTime t =? endTime).

(** The id given to a new row. *)
Definition next_id (ts : list Task.t) : Z :=
  1 + fold_right (fun t m => Z.max (Task.ID t) m) 0 ts.

(** [GetOrCreateTask]. *)
Definition GetOrCreateTask (env : Env) (chatID startTime endTime : Z)
    (status : TaskStatus) : M (option Task.t * option error) :=
  let* w := get in
  if store_ok env w then
    match List.find (same_key chatID startTime endTime) (tasks w) with
    | Some existing => ret (Some existing, None)
    | None =>
        let t := {| Task.ID := next_id (tasks w); Task.ChatID := chatID;
                    Task.StartTime := startTime; Task.EndTime := endTime;
                    Task.Status := status; Task.CompletedAt := None;
                    Task.ErrorMessage := None; Task.SummaryContent := "" |} in
        set_tasks (tasks w ++ [t]) ;; ret (Some t, None)
    end
  else ret (None, Some ErrStore).

(** *** The message store *)

Definition in_range (startTime endTime : Z) (m : Message.t) : bool :=
  (startTime <=? Message.SentAt m) && (Message.SentAt m <? endTime).

Fixpoint insert_by_sent_at (m : Message.t) (l : list Message.t)
    : list Message.t :=
  match l with
  | [] => [m]
  | x :: l' =>
      if Message.SentAt m <? Message.SentAt x then m :: l
      else x :: insert_by_sent_at m l'
  end.

(** [Order(message.BySentAt())]. *)
Definition sort_by_sent_at (l : list Message.t) : list Message.t :=
  fold_right insert_by_sent_at [] (rev l).

(** [GetByDateRangeAndChat]. *)
Definition GetByDateRangeAndChat (env : Env) (chatID startTime endTime : Z)
    : M (list Message.t * option error) :=
  let* w := get in
  if store_ok env w then
    ret (sort_by_sent_at
           (List.filter
              (fun m => (Message.ChatID m =? chatID)
                        && in_range startTime endTime m)
              (messages w)), None)
  else ret ([], Some ErrStore).

(** The keys of the Go map [chatIDMap]; Go leaves the order of iteration
    open, here it is the order of first occurrence. *)
Fixpoint distinct (seen : list Z) (l : list Z) : list Z :=
  match l with
  | [] => []
  | x :: l' =>
      if existsb (Z.eqb x) seen then distinct seen l'
      else x :: distinct (x :: seen) l'
  end.

(** [GetChatIDsByDateRange]. *)
Definition GetChatIDsByDateRange (env : Env) (startTime endTime : Z)
    : M (list Z * option error) :=
  let* w := get in
  if store_ok env w then
    ret (distinct []
           (map Message.ChatID
                (List.filter (in_range startTime endTime) (messages w))), None)
  else ret ([], Some ErrStore).

(** [DeleteBefore]: the number of rows deleted. *)
Definition DeleteBefore (env : Env) (cutoffDate : Z) : M (Z * option error) :=
  let* w := get in
  if store_ok env w then
    let kept := List.filter (fun m => negb (Message.SentAt m <? cutoffDate))
                            (messages w) in
    set_messages kept ;;
    emit (EvDelete cutoffDate true) ;;
    ret (Z.of_nat (List.length (messages w)) - Z.of_nat (List.length kept), None)
  else emit (EvDelete cutoffDate false) ;; ret (0, Some ErrStore).

(** *** The summarizer as the scheduler sees it *)

Definition to_chat_message (m : Message.t) : LLM.ChatMessage :=
  {| LLM.MessageID := Message.MessageID m; LLM.SenderID := Message.SenderID m;
     LLM.SenderName := Message.SenderName m; LLM.Text := Message.Text m |}.

(** [Summarizer.SummarizeRange]: the messages of the window are read from
    the store and handed to the LLM client, whose reply is parsed. *)
Definition SummarizeRange (env : Env) (chatID startTime endTime : Z)
    : M (option Summarizer.SummaryResult * option error) :=
  emit (EvSummarizeRange chatID startTime endTime) ;;
  let* (msgs, err) := GetByDateRangeAndChat env chatID startTime endTime in
  match err with
  | Some e => ret (None, Some (ErrGetMessages e))
  | None =>
      match msgs with
      | [] => ret (None, None)
      | _ =>
          let chatMsgs := map to_chat_message msgs in
          let* w := get in
          emit (EvLLM chatID) ;;
          tick ;;
          match llm env (clock w) chatMsgs with
          | inl e => ret (None, Some (ErrLLMSummarize e))
          | inr jsonStr =>
              match unmarshal env jsonStr with
              | None => ret (None, Some ErrParseJSON)
              | Some result => ret (Some result, None)
              end
          end
      end
  end.

(** [s.notifier.Notify]. *)
Definition Notify (env : Env) (summary : string) (chatID : Z) : M bool :=
  let* w := get in
  let ok := notify env (clock w) summary chatID in
  emit (EvNotify chatID summary ok) ;;
  tick ;;
  ret ok.

(** *** The scheduler *)

Definition retry_times (cfg : SummaryConfig) : Z :=
  if RetryTimes cfg <=? 0 then 3 else RetryTimes cfg.

(** The retry loop of [generateSummaryForTask].  [remaining] counts the
    iterations left, [attempt] is the loop variable, [last] holds [result]
    and [err] as the previous iteration left them.  The outcome is either
    the early return on cancellation or the variables at the loop exit. *)
Fixpoint summary_loop (env : Env) (chatID startTime endTime retryTimes : Z)
    (remaining : nat) (attempt : Z)
    (last : option Summarizer.SummaryResult * option error)
    : M (error + option Summarizer.SummaryResult * option error) :=
  match remaining with
  | O => ret (inr last)
  | S remaining' =>
      let* cancelled := done env in
      if cancelled then ret (inl ErrCancelled)
      else
        let* (result, err) := SummarizeRange env chatID startTime endTime in
        match err with
        | None => ret (inr (result, None))
        | Some e =>
            if attempt <? retryTimes then
              let* cancelled := sleep_or_done env in
              if cancelled then ret (inl ErrCancelled)
              else summary_loop env chatID startTime endTime retryTimes
                     remaining' (attempt + 1) (result, err)
            else summary_loop env chatID startTime endTime retryTimes
                   remaining' (attempt + 1) (result, err)
        end
  end.

(** [generateSummaryForTask]: the summary and the error. *)
Definition generateSummaryForTask (env : Env) (cfg : SummaryConfig)
    (chatID startTime endTime : Z) : M (string * option error) :=
  let startDate := format_date env startTime in
  let endDate := format_date env (AddDays endTime (-1)) in
  let retryTimes := retry_times cfg in
  let* r := summary_loop env chatID startTime endTime retryTimes
              (Z.to_nat retryTimes) 1 (None, None) in
  match r with
  | inl e => ret ("", Some e)
  | inr (_, Some e) => ret ("", Some (ErrSummaryRetries retryTimes e))
  | inr (None, None) => ret ("", None)
  | inr (Some result, None) =>
      let summary :=
        Summarizer.FormatSummaryForDisplay (Some result) chatID startDate endDate in
      if String.eqb summary "" then ret ("", None) else ret (summary, None)
  end.

Definition notifyRetryTimes : Z := 2.

(** The loop of [sendTaskNotification]. *)
Fixpoint notify_loop (env : Env) (summary : string) (chatID : Z)
    (remaining : nat) (attempt : Z) : M (bool * option error) :=
  match remaining with
  | O => ret (false, None)
  | S remaining' =>
      let* cancelled := done env in
      if cancelled then ret (false, Some ErrCancelled)
      else
        let* ok := Notify env summary chatID in
        if ok then ret (true, None)
        else if attempt <? notifyRetryTimes then
          let* cancelled := sleep_or_done env in
          if cancelled then ret (false, Some ErrCancelled)
          else notify_loop env summary chatID remaining' (attempt + 1)
        else notify_loop env summary chatID remaining' (attempt + 1)
  end.

(** [sendTaskNotification]: [(sent, err)]. *)
Definition sendTaskNotification (env : Env) (summary : string) (chatID : Z)
    : M (bool * option error) :=
  notify_loop env summary chatID (Z.to_nat notifyRetryTimes) 1.

(** [processTask]. *)
Definition processTask (env : Env) (cfg : SummaryConfig)
    (chatID startTime endTime taskID : Z) : M (option error) :=
  let* (summary, err) := generateSummaryForTask env cfg chatID startTime endTime in
  match err with
  | Some e => ret (Some e)
  | None =>
      if String.eqb summary "" then ret None
      else
        (if 0 <? taskID
         then SetSummaryContent env taskID summary ;; ret tt
         else ret tt) ;;
        let* (sent, err) := sendTaskNotification env summary chatID in
        match err with
        | Some e => ret (Some e)
        | None =>
            (if sent && (0 <? taskID)
             then ClearSummaryContent env taskID ;; ret tt
             else ret tt) ;;
            ret None
        end
  end.

(** [cleanupMessages]. *)
Definition cleanupMessages (env : Env) (cfg : SummaryConfig) : M unit :=
  let* w := get in
  let cutoffDate :=
    AddDays (now env (clock w)) (wrap_int (wrap_int (- RetentionDays cfg) - 1)) in
  let cutoffDate := StartOfDay cutoffDate in
  DeleteBefore env cutoffDate ;; ret tt.

(** The body of the recovery loop for one task, after the check of the
    cancel signal. *)
Definition recover_task (env : Env) (cfg : SummaryConfig) (cutoffTime : Z)
    (t : Task.t) : M unit :=
  if Task.StartTime t <? cutoffTime then ret tt
  else
    let* err := ResetTaskToPending env (Task.ID t) in
    match err with
    | Some _ => ret tt
    | None =>
        let* err := UpdateTaskStatus env (Task.ID t) StatusProcessing None in
        match err with
        | Some _ => ret tt
        | None =>
            if negb (String.eqb (Task.SummaryContent t) "") then
              let* (sent, sendErr) :=
                sendTaskNotification env (Task.SummaryContent t) (Task.ChatID t) in
              match sendErr with
              | Some e => MarkTaskFailed env (Task.ID t) e ;; ret tt
              | None =>
                  (if sent then ClearSummaryContent env (Task.ID t) ;; ret tt
                   else ret tt) ;;
                  MarkTaskCompleted env (Task.ID t) ;; ret tt
              end
            else
              let* err := processTask env cfg (Task.ChatID t) (Task.StartTime t)
                            (Task.EndTime t) (Task.ID t) in
              match err with
              | Some e => MarkTaskFailed env (Task.ID t) e ;; ret tt
              | None => MarkTaskCompleted env (Task.ID t) ;; ret tt
              end
        end
    end.

Fixpoint recover_loop (env : Env) (cfg : SummaryConfig) (cutoffTime : Z)
    (ts : list Task.t) : M unit :=
  match ts with
  | [] => ret tt
  | t :: rest =>
      let* cancelled := done env in
      if cancelled then ret tt
      else recover_task env cfg cutoffTime t ;;
           recover_loop env cfg cutoffTime rest
  end.

(** [recoverPendingTasks]. *)
Definition recoverPendingTasks (env : Env) (cfg : SummaryConfig) : M unit :=
  let* (ts, err) := GetPendingOrProcessingTasks env in
  match err with
  | Some _ => ret tt
  | None =>
      match ts with
      | [] => ret tt
      | _ =>
          let* w := get in
          let cutoffTime := AddDays (now env (clock w)) (-7) in
          recover_loop env cfg cutoffTime ts
      end
  end.

(** The query loop of [executeDailySummaryForRange]. *)
Fixpoint query_loop (env : Env) (startTime endTime retryTimes : Z)
    (remaining : nat) (attempt : Z) (last : list Z * option error)
    : M (error + list Z * option error) :=
  match remaining with
  | O => ret (inr last)
  | S remaining' =>
      let* cancelled := done env in
      if cancelled then ret (inl ErrCancelled)
      else
        let* (chatIDs, err) := GetChatIDsByDateRange env startTime endTime in
        match err with
        | None => ret (inr (chatIDs, None))
        | Some e =>
            if attempt <? retryTimes then
              let* cancelled := sleep_or_done env in
              if cancelled then ret (inl ErrCancelled)
              else query_loop env startTime endTime retryTimes remaining'
                     (attempt + 1) (chatIDs, err)
            else query_loop env startTime endTime retryTimes remaining'
                   (attempt + 1) (chatIDs, err)
        end
  end.

(** The loop that creates the tasks: the tasks to process and the two
    counters, or the early return. *)
Fixpoint create_loop (env : Env) (startTime endTime : Z) (chatIDs : list Z)
    (acc : list Task.t * Z * Z) : M (error + list Task.t * Z * Z) :=
  match chatIDs with
  | [] => ret (inr acc)
  | chatID :: rest =>
      let '(tasksToProcess, successCount, failCount) := acc in
      let* cancelled := done env in
      if cancelled then ret (inl ErrCancelled)
      else
        let* (taskRecord, err) :=
          GetOrCreateTask env chatID startTime endTime StatusPending in
        match err, taskRecord with
        | None, Some t =>
            if status_eqb (Task.Status t) StatusCompleted
            then create_loop env startTime endTime rest
                   (tasksToProcess, successCount + 1, failCount)
            else create_loop env startTime endTime rest
                   (tasksToProcess ++ [t], successCount, failCount)
        | _, _ =>
            create_loop env startTime endTime rest
              (tasksToProcess, successCount, failCount + 1)
        end
  end.

(** The body of the processing loop for one task, after the check of the
    cancel signal: whether the task counts as a success. *)
Definition run_task (env : Env) (cfg : SummaryConfig) (taskRecord : Task.t)
    : M bool :=
  let* err := UpdateTaskStatus env (Task.ID taskRecord) StatusProcessing None in
  match err with
  | Some _ => ret false
  | None =>
      let* err := processTask env cfg (Task.ChatID taskRecord)
                    (Task.StartTime taskRecord) (Task.EndTime taskRecord)
                    (Task.ID taskRecord) in
      match err with
      | Some e => MarkTaskFailed env (Task.ID taskRecord) e ;; ret false
      | None =>
          let* err := MarkTaskCompleted env (Task.ID taskRecord) in
          match err with
          | None => ret true
          | Some _ => ret false
          end
      end
  end.

Fixpoint process_loop (env : Env) (cfg : SummaryConfig) (ts : list Task.t)
    (counts : Z * Z) : M (error + Z * Z) :=
  match ts with
  | [] => ret (inr counts)
  | taskRecord :: rest =>
      let '(successCount, failCount) := counts in
      let* cancelled := done env in
      if cancelled then ret (inl ErrCancelled)
      else
        let* ok := run_task env cfg taskRecord in
        process_loop env cfg rest
          (if ok then (successCount + 1, failCount)
           else (successCount, failCount + 1))
  end.

(** [executeDailySummaryForRange]. *)
Definition executeDailySummaryForRange (env : Env) (cfg : SummaryConfig)
    (startTime endTime : Z) : M (option error) :=
  let retryTimes := retry_times cfg in
  let* q := query_loop env startTime endTime retryTimes (Z.to_nat retryTimes)
              1 ([], None) in
  match q with
  | inl e => ret (Some e)
  | inr (_, Some e) => ret (Some (ErrQueryRetries retryTimes e))
  | inr (chatIDs, None) =>
      let* cancelled := done env in
      if cancelled then ret (Some ErrCancelled)
      else
        match chatIDs with
        | [] => cleanupMessages env cfg ;; ret None
        | _ =>
            let* c := create_loop env startTime endTime chatIDs ([], 0, 0) in
            match c with
            | inl e => ret (Some e)
            | inr (tasksToProcess, successCount, failCount) =>
                let* p := process_loop env cfg tasksToProcess
                            (successCount, failCount) in
                match p with
                | inl e => ret (Some e)
                | inr _ =>
                    let* cancelled := done env in
                    if cancelled then ret (Some ErrCancelled)
                    else cleanupMessages env cfg ;; ret None
                end
            end
        end
  end.

End Scheduler.

(** ** More of Go's package [strings] *)

Module GoStrings.
Import GoString.

(** [s[n:]] and [s[:n]]. *)
Fixpoint drop_bytes (n : nat) (s : string) : string :=
  match n, s with
  | S n', String _ s' => drop_bytes n' s'
  | _, _ => s
  end.

Fixpoint take_bytes (n : nat) (s : string) : string :=
  match n, s with
  | S n', String a s' => String a (take_bytes n' s')
  | _, _ => EmptyString
  end.

(** The pieces of [s] between the occurrences of a separator that is not
    empty, found from the left and not overlapping: the first piece and
    the others.  [skip] counts the bytes of a separator that are still to
    be passed over. *)
Fixpoint split_from (sep : string) (skip : nat) (s : string)
    : string * list string :=
  match s with
  | EmptyString => (EmptyString, [])
  | String a s' =>
      match skip with
      | S k => split_from sep k s'
      | O =>
          if String.prefix sep s then
            let '(p, ps) := split_from sep (pred (String.length sep)) s' in
            (EmptyString, p :: ps)
          else
            let '(p, ps) := split_from sep O s' in (String a p, ps)
      end
  end.

(** With an empty separator [strings.Split] cuts after every UTF-8
    sequence, bytes that are not well formed one by one. *)
Fixpoint explode (fuel : nat) (s : string) : list string :=
  match fuel, s with
  | S fuel', String a tl =>
      let '(_, w) := decode_rune (byte_of a) (bytes tl) in
      take_bytes w s :: explode fuel' (drop_bytes w s)
  | _, _ => []
  end.

(** [strings.Split]. *)
Definition Split (s sep : string) : list string :=
  match sep with
  | EmptyString => explode (String.length s) s
  | _ => let '(p, ps) := split_from sep O s in p :: ps
  end.

(** [strings.TrimLeftFunc(s, unicode.IsSpace)]: the runes are decoded
    from the left, as by a range loop, up to the first that is not white
    space. *)
Fixpoint trim_left (fuel : nat) (s : string) : string :=
  match fuel, s with
  | S fuel', String a tl =>
      let '(r, w) := decode_rune (byte_of a) (bytes tl) in
      if IsSpace r then trim_left fuel' (drop_bytes w s) else s
  | _, _ => s
  end.

Definition TrimLeftSpace (s : string) : string := trim_left (String.length s) s.

(** [utf8.RuneStart]. *)
Definition RuneStart (b : Z) : bool := negb (Z.land b 0xC0 =? 0x80).

(** [utf8.DecodeLastRuneInString], on the bytes of the string in reverse
    order.  A last byte that is not ASCII is the end of a sequence that
    starts at the nearest of the three bytes before it for which
    [RuneStart] holds; when there is none the search stops one byte
    further left, or at the start of the string.  The sequence counts
    only when decoding it from its start uses all of its bytes. *)
Definition decode_last_rune (rb : list Z) : Z * nat :=
  match rb with
  | [] => (RuneError, 0%nat)
  | b :: rest =>
      if b <? 0x80 then (b, 1%nat)
      else
        let k :=
          match rest with
          | [] => 1%nat
          | b1 :: rest1 =>
              if RuneStart b1 then 2%nat
              else match rest1 with
                   | [] => 2%nat
                   | b2 :: rest2 =>
                       if RuneStart b2 then 3%nat
                       else match rest2 with
                            | [] => 3%nat
                            | b3 :: rest3 =>
                                if RuneStart b3 then 4%nat
                                else match rest3 with
                                     | [] => 4%nat
                                     | _ :: _ => 5%nat
                                     end
                            end
                   end
          end in
        match rev (take k rb) with
        | [] => (RuneError, 1%nat)
        | b0 :: tl =>
            let '(r, size) := decode_rune b0 tl in
            if Nat.eqb size k then (r, size) else (RuneError, 1%nat)
        end
  end.

(** [lastIndexFunc(s, unicode.IsSpace, false)]: the offset of the last
    rune that is not white space, decoding from the right; [None] stands
    for -1. *)
Fixpoint last_index_nonspace (fuel : nat) (rb : list Z) : option nat :=
  match fuel, rb with
  | S fuel', _ :: _ =>
      let '(r, size) := decode_last_rune rb in
      if IsSpace r then last_index_nonspace fuel' (drop size rb)
      else Some (length rb - size)%nat
  | _, _ => None
  end.

(** [strings.TrimRightFunc(s, unicode.IsSpace)]. *)
Definition TrimRightSpace (s : string) : string :=
  match last_index_nonspace (String.length s) (rev (bytes s)) with
  | None => EmptyString
  | Some i =>
      match drop_bytes i s with
      | String a tl =>
          if 0x80 <=? byte_of a then
            let '(_, wid) := decode_rune (byte_of a) (bytes tl) in
            take_bytes (i + wid) s
          else take_bytes (i + 1) s
      | EmptyString => take_bytes (i + 1) s
      end
  end.

(** [strings.TrimSpace]: leading and trailing white space, as Unicode
    defines it, removed.  Go scans ASCII bytes first and hands over to
    [TrimFunc] at the first byte that is not ASCII; the result is that of
    trimming left, then right. *)
Definition TrimSpace (s : string) : string := TrimRightSpace (TrimLeftSpace s).

End GoStrings.

(** ** [internal/notify] *)

Module Notifier.
Import GoString GoStrings Scheduler.

Definition MaxMessageLength : Z := 5000.

Definition blank_line : string := newline +:+ newline.

Definition full_stop : string := "。".

(** The state of the loops of [splitMessage]: [(messages, currentMsg)]. *)
Definition split_msgs : Type := list string * string.

(** The body of the loop over the sentences of a paragraph that is too
    long. *)
Definition sentence_step (st : split_msgs) (sentence : string) : split_msgs :=
  let '(messages, currentMsg) := st in
  let sentence := TrimSpace sentence in
  if String.eqb sentence "" then (messages, currentMsg)
  else
    let '(messages, currentMsg) :=
      if (len currentMsg + len sentence + 2 >? MaxMessageLength)
         && negb (String.eqb currentMsg "")
      then (messages ++ [currentMsg], EmptyString)
      else (messages, currentMsg) in
    let currentMsg :=
      if negb (String.eqb currentMsg "") then currentMsg +:+ full_stop
      else currentMsg in
    (messages, currentMsg +:+ sentence).

(** The body of the loop over the paragraphs. *)
Definition paragraph_step (st : split_msgs) (para : string) : split_msgs :=
  let '(messages, currentMsg) := st in
  let para := TrimSpace para in
  if String.eqb para "" then (messages, currentMsg)
  else
    let testMsg := currentMsg in
    let testMsg :=
      if negb (String.eqb testMsg "") then testMsg +:+ blank_line else testMsg in
    let testMsg := testMsg +:+ para in
    if len testMsg <=? MaxMessageLength then (messages, testMsg)
    else
      let messages :=
        if negb (String.eqb currentMsg "") then messages ++ [currentMsg]
        else messages in
      if len para >? MaxMessageLength then
        fold_left sentence_step (Split para full_stop) (messages, currentMsg)
      else (messages, para).

(** The paragraphs of a long content: its pieces between blank lines, or
    its lines when it has no blank line. *)
Definition paragraphs (content : string) : list string :=
  let paragraphs := Split content blank_line in
  if Nat.eqb (length paragraphs) 1 then Split content newline else paragraphs.

(** [splitMessage]. *)
Definition splitMessage (content : string) : list string :=
  if len content <=? MaxMessageLength then [content]
  else
    let '(messages, currentMsg) :=
      fold_left paragraph_step (paragraphs content) ([], EmptyString) in
    if negb (String.eqb currentMsg "") then messages ++ [currentMsg]
    else messages.

(** TDLib as the notifier uses it.  [ParseTextEntities] parses the HTML
    mark-up or fails; [SendMessage] succeeds or fails, which may depend on
    how many messages were sent before. *)
Record FormattedText := {
  Text : string;
  Entities : list (Z * Z * string)
}.

Record TdClient := {
  ParseTextEntities : string -> option FormattedText;
  SendMessage : nat -> Z -> FormattedText -> bool
}.

(** One call of [SendMessage]: the chat, the text, whether it succeeded. *)
Definition Sent : Type := Z * FormattedText * bool.

Inductive notify_error :=
| ErrSendPrivate (userID : Z)      (* "发送私信给用户 %d 失败: %w" *)
| ErrSendGroup (chatID : Z).       (* "发送群聊消息到群组 %d 失败: %w" *)

(** [parseHTMLText]. *)
Definition parseHTMLText (td : TdClient) (text : string) : FormattedText :=
  if String.eqb text "" then {| Text := text; Entities := [] |}
  else match ParseTextEntities td text with
       | Some formatted => formatted
       | None => {| Text := text; Entities := [] |}
       end.

(** The loop over the messages for one chat: whether all were sent, and
    the calls made. *)
Fixpoint send_messages (td : TdClient) (chatID : Z) (messages : list string)
    (sent : list Sent) : bool * list Sent :=
  match messages with
  | [] => (true, sent)
  | msg :: rest =>
      let formatted := parseHTMLText td msg in
      let ok := SendMessage td (length sent) chatID formatted in
      let sent := sent ++ [(chatID, formatted, ok)] in
      if ok then send_messages td chatID rest sent else (false, sent)
  end.

(** [notifyGroup]. *)
Definition notifyGroup (td : TdClient) (content : string) (chatID : Z)
    (sent : list Sent) : option notify_error * list Sent :=
  let messages := splitMessage content in
  let '(ok, sent) := send_messages td chatID messages sent in
  (if ok then None else Some (ErrSendGroup chatID), sent).

(** The loop of [notifyPrivate] over the users. *)
Fixpoint send_users (td : TdClient) (users : list Z) (messages : list string)
    (sent : list Sent) : option notify_error * list Sent :=
  match users with
  | [] => (None, sent)
  | userID :: rest =>
      let '(ok, sent) := send_messages td userID messages sent in
      if ok then send_users td rest messages sent
      else (Some (ErrSendPrivate userID), sent)
  end.

(** [notifyPrivate]. *)
Definition notifyPrivate (td : TdClient) (cfg : SummaryConfig)
    (content : string) (sent : list Sent) : option notify_error * list Sent :=
  match NotifyUserIds cfg with
  | [] => (None, sent)
  | _ => send_users td (NotifyUserIds cfg) (splitMessage content) sent
  end.

(** [Notify]. *)
Definition Notify (td : TdClient) (cfg : SummaryConfig) (content : string)
    (chatID : Z) (sent : list Sent) : option notify_error * list Sent :=
  if String.eqb content "" then (None, sent)
  else if String.eqb (NotifyMode cfg) "private" then
    notifyPrivate td cfg content sent
  else if String.eqb (NotifyMode cfg) "group" then
    notifyGroup td content chatID sent
  else if String.eqb (NotifyMode cfg) "both" then
    let '(_, sent) := notifyPrivate td cfg content sent in
    let '(_, sent) := notifyGroup td content chatID sent in
    (None, sent)
  else (None, sent).

End Notifier.

(** ** [internal/model/dailyrun.go] *)

Module dailyrun.

(** The values of the field [status] of a daily run. *)
Inductive Status :=
| StatusPending
| StatusInProgress
| StatusCompleted
| StatusFailed.

Definition status_eqb (a b : Status) : bool :=
  match a, b with
  | StatusPending, StatusPending
  | StatusInProgress, StatusInProgress
  | StatusCompleted, StatusCompleted
  | StatusFailed, StatusFailed => true
  | _, _ => false
  end.

End dailyrun.

Module DailyRun.
Record t := {
  ID : Z;
  StartTime : Z;
  EndTime : Z;
  Status : dailyrun.Status;
  ErrorMessage : option Ent.error
}.
End DailyRun.

Module DailyRunModel.
Import GoString Ent Scheduler.

(** The errors of the table of the daily runs: the store refused the
    call, no row was found, or a row with the same window exists (the
    unique index on [start_time] and [end_time]). *)
Inductive run_error :=
| ErrRunStore
| ErrRunNotFound
| ErrRunConstraint.

(** [ent.IsNotFound]. *)
Definition IsNotFound (e : run_error) : bool :=
  match e with ErrRunNotFound => true | _ => false end.

(** The scheduler with the table of the daily runs: the state monad of
    the scheduler, with the rows of the table, in creation order, passed
    along. *)
Definition R (A : Type) : Type := list DailyRun.t -> M (A * list DailyRun.t).

Definition retR {A} (a : A) : R A := fun rs => ret (a, rs).

Definition bindR {A B} (c : R A) (k : A -> R B) : R B :=
  fun rs => bind (c rs) (fun p => k p.1 p.2).

Definition liftR {A} (c : M A) : R A :=
  fun rs => bind c (fun a => ret (a, rs)).

Definition get_runs : R (list DailyRun.t) := fun rs => ret (rs, rs).

Definition set_runs (rs : list DailyRun.t) : R unit := fun _ => ret (tt, rs).

Declare Scope run_scope.
Delimit Scope run_scope with run.
Notation "'let*' x ':=' c 'in' k" := (bindR c (fun x => k))
  (at level 10, x pattern, c at level 100, k at level 200) : run_scope.
Notation "c ;; k" := (bindR c (fun _ => k))
  (at level 100, right associativity) : run_scope.
Local Open Scope run_scope.

Definition same_window (startTime endTime : Z) (r : DailyRun.t) : bool :=
  (DailyRun.StartTime r =? startTime) && (DailyRun.EndTime r =? endTime).

(** The id given to a new row. *)
Definition next_run_id (rs : list DailyRun.t) : Z :=
  1 + fold_right (fun r m => Z.max (DailyRun.ID r) m) 0 rs.

(** [Create]. *)
Definition Create (env : Env) (startTime endTime : Z) (status : dailyrun.Status)
    : R (run_error + DailyRun.t) :=
  let* w := liftR get in
  let* rs := get_runs in
  if store_ok env w then
    if existsb (same_window startTime endTime) rs then retR (inl ErrRunConstraint)
    else
      let r := {| DailyRun.ID := next_run_id rs;
                  DailyRun.StartTime := startTime; DailyRun.EndTime := endTime;
                  DailyRun.Status := status; DailyRun.ErrorMessage := None |} in
      set_runs (rs ++ [r]) ;; retR (inr r)
  else retR (inl ErrRunStore).

(** [GetByDateRange]. *)
Definition GetByDateRange (env : Env) (startTime endTime : Z)
    : R (run_error + DailyRun.t) :=
  let* w := liftR get in
  let* rs := get_runs in
  if store_ok env w then
    match List.find (same_window startTime endTime) rs with
    | Some r => retR (inr r)
    | None => retR (inl ErrRunNotFound)
    end
  else retR (inl ErrRunStore).

(** [GetOrCreate]. *)
Definition GetOrCreate (env : Env) (startTime endTime : Z)
    (status : dailyrun.Status) : R (run_error + DailyRun.t) :=
  let* existing := GetByDateRange env startTime endTime in
  match existing with
  | inr r => retR (inr r)
  | inl err =>
      if negb (IsNotFound err) then retR (inl err)
      else Create env startTime endTime status
  end.

Definition incomplete (r : DailyRun.t) : bool :=
  dailyrun.status_eqb (DailyRun.Status r) dailyrun.StatusPending
  || dailyrun.status_eqb (DailyRun.Status r) dailyrun.StatusInProgress.

(** [GetIncompleteRuns]. *)
Definition GetIncompleteRuns (env : Env) : R (run_error + list DailyRun.t) :=
  let* w := liftR get in
  let* rs := get_runs in
  if store_ok env w then retR (inr (List.filter incomplete rs))
  else retR (inl ErrRunStore).

(** [client.UpdateOneID(id)...Exec(ctx)]. *)
Definition update_run (env : Env) (id : Z) (f : DailyRun.t -> DailyRun.t)
    : R (option run_error) :=
  let* w := liftR get in
  let* rs := get_runs in
  if store_ok env w then
    if existsb (fun r => DailyRun.ID r =? id) rs then
      set_runs (map (fun r => if DailyRun.ID r =? id then f r else r) rs) ;;
      retR None
    else retR (Some ErrRunNotFound)
  else retR (Some ErrRunStore).

(** [MarkCompleted]. *)
Definition MarkCompleted (env : Env) (id : Z) : R (option run_error) :=
  update_run env id
    (fun r =>
       {| DailyRun.ID := DailyRun.ID r;
          DailyRun.StartTime := DailyRun.StartTime r;
          DailyRun.EndTime := DailyRun.EndTime r;
          DailyRun.Status := dailyrun.StatusCompleted;
          DailyRun.ErrorMessage := DailyRun.ErrorMessage r |}).

(** [MarkFailed]. *)
Definition MarkFailed (env : Env) (id : Z) (errorMsg : error)
    : R (option run_error) :=
  update_run env id
    (fun r =>
       {| DailyRun.ID := DailyRun.ID r;
          DailyRun.StartTime := DailyRun.StartTime r;
          DailyRun.EndTime := DailyRun.EndTime r;
          DailyRun.Status := dailyrun.StatusFailed;
          DailyRun.ErrorMessage := Some errorMsg |}).

End DailyRunModel.

(** ** [internal/scheduler/scheduler.go]: the entry points *)

Module DailyRuns.
Import GoString Ent Scheduler DailyRunModel.
Local Open Scope run_scope.

(** The window of the day: [startTime] and [endTime] as
    [runDailySummary] and [recoverDailySummary] compute them. *)
Definition summary_window (env : Env) (cfg : SummaryConfig) (w : World)
    : Z * Z :=
  let rangeDays := if RangeDays cfg <=? 0 then 1 else RangeDays cfg in
  let now := now env (clock w) in
  let todayStart := StartOfDay now in
  let endTime := todayStart in
  let startTime := AddDays todayStart (wrap_int (- rangeDays)) in
  (startTime, endTime).

(** The run of a window and the mark that it leaves on the row. *)
Definition execute_and_mark (env : Env) (cfg : SummaryConfig)
    (startTime endTime id : Z) : R unit :=
  let* err := liftR (executeDailySummaryForRange env cfg startTime endTime) in
  match err with
  | Some e => MarkFailed env id e ;; retR tt
  | None => MarkCompleted env id ;; retR tt
  end.

(** [runDailySummary]. *)
Definition runDailySummary (env : Env) (cfg : SummaryConfig) : R unit :=
  let* cancelled := liftR (done env) in
  if cancelled then retR tt
  else
    let* w := liftR get in
    let '(startTime, endTime) := summary_window env cfg w in
    let* run := GetOrCreate env startTime endTime dailyrun.StatusInProgress in
    match run with
    | inl _ => retR tt
    | inr run =>
        if dailyrun.status_eqb (DailyRun.Status run) dailyrun.StatusCompleted
        then retR tt
        else execute_and_mark env cfg startTime endTime (DailyRun.ID run)
    end.

(** The first loop of [recoverDailySummary]: true when it returned from
    the function because of the cancel signal. *)
Fixpoint recover_runs (env : Env) (cfg : SummaryConfig)
    (incompleteRuns : list DailyRun.t) : R bool :=
  match incompleteRuns with
  | [] => retR false
  | run :: rest =>
      let* cancelled := liftR (done env) in
      if cancelled then retR true
      else
        execute_and_mark env cfg (DailyRun.StartTime run) (DailyRun.EndTime run)
          (DailyRun.ID run) ;;
        recover_runs env cfg rest
  end.

(** [recoverDailySummary]. *)
Definition recoverDailySummary (env : Env) (cfg : SummaryConfig) : R unit :=
  let* incompleteRuns := GetIncompleteRuns env in
  let* returned :=
    match incompleteRuns with
    | inl _ => retR false
    | inr incompleteRuns => recover_runs env cfg incompleteRuns
    end in
  if returned then retR tt
  else
    let* w := liftR get in
    let '(startTime, endTime) := summary_window env cfg w in
    let* existing := GetByDateRange env startTime endTime in
    match existing with
    | inl err =>
        if IsNotFound err then
          let* run := Create env startTime endTime dailyrun.StatusInProgress in
          match run with
          | inl _ => retR tt
          | inr run =>
              execute_and_mark env cfg startTime endTime (DailyRun.ID run)
          end
        else retR tt
    | inr _ => retR tt
    end ;;
    liftR (recoverPendingTasks env cfg).

End DailyRuns.

(** * Specification vocabulary

    Predicates, reference functions and sample data used by the statements
    below. *)

Module ChunkSpec.
Import GoString LLM.

(** What a finished chunk looks like. *)
Definition chunk_ok (k : Z) (c : list ChatMessage) : Prop :=
  chunkTokens c <= k \/ List.length c = 1%nat.

(** The loop invariant of [splitMessagesIntoChunks] after the messages
    [done] have been consumed. *)
Definition split_inv (k : Z) (done : list ChatMessage) (st : split_state)
    : Prop :=
  let '(chunks, current, currentTokens) := st in
  concat chunks ++ current = done /\
  currentTokens = chunkTokens current /\
  Forall (chunk_ok k) chunks /\
  Forall (fun c => c <> []) chunks /\
  (current = [] \/ chunk_ok k current).

Definition msg (id : Z) (name text : string) : ChatMessage :=
  {| MessageID := id; SenderID := id; SenderName := name; Text := text |}.

End ChunkSpec.

Module KeyedMerge.
Import LLM.

(** Both loops of the merger, over topics and over the items of a topic,
    update a slice through an index map built from its initial content.
    Their common shape: *)
Section Keyed.
Context {A : Type} (key : A -> string) (combine : A -> A -> A).

Definition keyed_step (m : gmap string nat) (st : list A) (n : A) : list A :=
  match m !! key n with
  | Some idx =>
      match st !! idx with
      | Some cur => <[idx := combine cur n]> st
      | None => st
      end
  | None => st ++ [n]
  end.

(** The first element with key [k]. *)
Definition lookup_by (k : string) (l : list A) : option A :=
  List.find (fun x => bool_decide (key x = k)) l.

(** What the merge makes of an old element. *)
Definition upd (news : list A) (o : A) : A :=
  match lookup_by (key o) news with
  | Some n => combine o n
  | None => o
  end.

Definition fresh (olds : list A) (n : A) : Prop := key n ∉ key <$> olds.

#[global] Instance fresh_dec olds n : Decision (fresh olds n).
Proof. unfold fresh. apply _. Defined.

End Keyed.
End KeyedMerge.

Module MergeSpec.
Import LLM KeyedMerge.

(** [keep_first seen l]: the elements of [l] that are neither in [seen]
    nor repeated, in the order of their first occurrence. *)
Fixpoint keep_first (seen l : list Z) : list Z :=
  match l with
  | [] => []
  | x :: l' =>
      if decide (x ∈ seen) then keep_first seen l'
      else x :: keep_first (x :: seen) l'
  end.

(** An id is live in the Go map when reading it yields [true]. *)
Definition live (seen : gmap Z bool) (id : Z) : Prop :=
  default false (seen !! id) = true.

(** What the item loop stores for a sender present on both sides. *)
Definition combine_item (cur newItem : topicSubItemJSON) : topicSubItemJSON :=
  {| sender_name := sender_name newItem;
     description := description newItem;
     message_ids := mergeMessageIDs (message_ids cur) (message_ids newItem) |}.

(** The invariants of the data model: titles identify topics, sender
    names identify the items of a topic. *)
Definition unique_titles (r : topicsSummaryJSON) : Prop :=
  NoDup (title <$> topics r).

Definition unique_senders (t : topicItemJSON) : Prop :=
  NoDup (sender_name <$> items t).

Definition well_keyed (r : topicsSummaryJSON) : Prop :=
  unique_titles r /\ forall t, t ∈ topics r -> unique_senders t.

Definition unique_titles_opt (r : option topicsSummaryJSON) : Prop :=
  match r with
  | Some r => unique_titles r
  | None => True
  end.

(** The topics of [mergeTopics (Some acc) (Some p)]. *)
Definition merged_topics (acc p : topicsSummaryJSON) : list topicItemJSON :=
  fold_left (keyed_step title mergeTopicItems (index_map title (topics acc)))
            (topics p) (topics acc).

(** The test data of [TestMergeTopics] and of the two-chunk scenario. *)
Definition item (s d : string) (ids : list Z) : topicSubItemJSON :=
  {| sender_name := s; description := d; message_ids := ids |}.

Definition topic (t : string) (its : list topicSubItemJSON) : topicItemJSON :=
  {| title := t; items := its |}.

Definition result (ts : list topicItemJSON) : topicsSummaryJSON :=
  {| topics := ts |}.

End MergeSpec.

Module FormatSpec.
Import GoString Summarizer.

(** The escape of one byte: what [escapeHTML] amounts to, byte by byte. *)
Definition escape_byte (a : ascii) : string :=
  if Ascii.eqb a "&" then "&amp;"
  else if Ascii.eqb a "<" then "&lt;"
  else if Ascii.eqb a ">" then "&gt;"
  else if Ascii.eqb a (ascii_of_nat 34) then "&quot;"
  else String a "".

Fixpoint escape_bytes (s : string) : string :=
  match s with
  | EmptyString => EmptyString
  | String a s' => escape_byte a +:+ escape_bytes s'
  end.

(** The byte [c] does not occur in [s]. *)
Fixpoint free_of (c : ascii) (s : string) : bool :=
  match s with
  | EmptyString => true
  | String a s' => negb (Ascii.eqb a c) && free_of c s'
  end.

(** The text after a [<] continues one of the four tags of the template. *)
Definition tag_at (rest : string) : bool :=
  String.prefix "b>" rest || String.prefix "/b>" rest
  || String.prefix "a href=" rest || String.prefix "/a>" rest.

(** Every [<] of [s] opens one of the tags of the template. *)
Fixpoint tags_only (s : string) : bool :=
  match s with
  | EmptyString => true
  | String a rest =>
      (if Ascii.eqb a "<" then tag_at rest else true) && tags_only rest
  end.

(** [sub] occurs in [s]. *)
Definition contains (s sub : string) : Prop :=
  exists pre suf, s = pre +:+ sub +:+ suf.

Definition sub_item (s d : string) (ids : list Z) : TopicSubItem :=
  {| SenderName := s; Description := d; MessageIDs := ids |}.

End FormatSpec.

Module SchedSpec.
Import GoString Ent Scheduler.

(** The row of a task in a world. *)
Definition row_of (w : World) (id : Z) : option Task.t :=
  find_task id (tasks w).

(** The events that come from the summarizer. *)
Definition summarizer_event (ev : Event) : bool :=
  match ev with
  | EvSummarizeRange _ _ _ | EvLLM _ => true
  | _ => false
  end.

(** A computation that adds [new] to the log of [w]. *)
Definition logs {A} (c : M A) (w : World) (new : list Event) : Prop :=
  log (c w).2 = log w ++ new.

(** A computation that logs only events that satisfy [P]. *)
Definition logs_only {A} (P : Event -> Prop) (c : M A) : Prop :=
  forall w, exists new, logs c w new /\ Forall P new.

(** A computation that never calls the summarizer. *)
Definition quiet {A} (c : M A) : Prop :=
  logs_only (fun ev => summarizer_event ev = false) c.

(** The events of summarizing the window of one task, besides those that
    do not come from the summarizer. *)
Definition sum_event (chatID startTime endTime : Z) (ev : Event) : Prop :=
  summarizer_event ev = false \/
  ev = EvSummarizeRange chatID startTime endTime \/ ev = EvLLM chatID.

(** The events of recovering the tasks [ts]: the summarizer is called only
    for a task of the list that carries no summary. *)
Definition recovery_event (ts : list Task.t) (ev : Event) : Prop :=
  summarizer_event ev = false \/
  exists t, In t ts /\ Task.SummaryContent t = "" /\
            (ev = EvSummarizeRange (Task.ChatID t) (Task.StartTime t)
                                   (Task.EndTime t)
             \/ ev = EvLLM (Task.ChatID t)).

(** The rows that [GetPendingOrProcessingTasks] returns. *)
Definition pending (w : World) : list Task.t :=
  List.filter
    (fun t => status_eqb (Task.Status t) StatusPending
              || status_eqb (Task.Status t) StatusProcessing)
    (tasks w).

(** What a run of the delivery phase from [w], trying at most [remaining]
    times, leaves behind when no cancel signal arrives. *)
Definition delivery_post (env : Env) (c : Z) (s : string) (remaining : nat)
    (w : World) (sent : bool) (err : option error) (w1 : World) : Prop :=
  err = None /\ tasks w1 = tasks w /\ messages w1 = messages w /\
  exists new,
    log w1 = log w ++ new /\
    Forall (fun ev => exists n, ev = EvNotify c s (notify env n s c)) new /\
    (sent = true <-> In (EvNotify c s true) new) /\
    (sent = false -> new = repeat (EvNotify c s false) remaining).

(** A computation that changes the status of no row. *)
Definition keeps_status {A} (c : M A) : Prop :=
  forall w id,
    option_map Task.Status (row_of (c w).2 id)
    = option_map Task.Status (row_of w id).

(** A computation that leaves the task rows alone. *)
Definition keeps_tasks {A} (c : M A) : Prop :=
  forall w, tasks (c w).2 = tasks w.

(** Sample configuration, collaborators and rows. *)
Definition cfg0 : SummaryConfig :=
  {| Cron := "0 1 * * *"; RetentionDays := 7; RangeDays := 1;
     NotifyMode := "group"; NotifyUserIds := []; RetryTimes := 3;
     RetryInterval := 60 |}.

Definition result0 : Summarizer.SummaryResult :=
  {| Summarizer.Topics :=
       [ {| Summarizer.Title := "T";
            Summarizer.Items :=
              [ {| Summarizer.SenderName := "A";
                   Summarizer.Description := "d";
                   Summarizer.MessageIDs := [] |} ] |} ] |}.

(** Collaborators that answer every LLM request with [result0]; the
    notifier succeeds at the ticks selected by [ok]. *)
Definition env0 (cancel : option nat) (ok : nat -> bool) (honours : bool) : Env :=
  {| cancel_at := cancel;
     now := fun n => 100 * day + Z.of_nat n;
     llm := fun _ _ => inr "json";
     unmarshal := fun _ => Some result0;
     notify := fun n _ _ => ok n;
     store_honours_ctx := honours;
     format_date := fun _ => "2025-02-10" |}.

Definition task0 (st : TaskStatus) (content : string) : Task.t :=
  {| Task.ID := 1; Task.ChatID := -5;
     Task.StartTime := 99 * day; Task.EndTime := 100 * day;
     Task.Status := st; Task.CompletedAt := None;
     Task.ErrorMessage := None; Task.SummaryContent := content |}.

Definition message0 (id sentAt : Z) : Message.t :=
  {| Message.MessageID := id; Message.ChatID := -5; Message.SenderID := 1;
     Message.SenderName := "A"; Message.Text := "hi";
     Message.SentAt := sentAt |}.

Definition world0 (st : TaskStatus) (content : string) : World :=
  {| clock := 0; messages := [message0 100 (99 * day + 5)];
     tasks := [task0 st content]; log := [] |}.

End SchedSpec.

Module BudgetSpec.
Import LLM.

Definition cfg_with (maxTokens : Z) : LLMConfig :=
  {| BaseURL := "https://api.openai.com/v1"; APIKey := "key";
     Model := "gpt-4o"; MaxTokens := maxTokens |}.

End BudgetSpec.

Module MergeRefs.
Import LLM KeyedMerge.

(** Some element of [l] with key [k] holds [x]. *)
Definition holds {A X : Type} (key : A -> string) (Q : A -> X -> Prop)
    (l : list A) (k : string) (x : X) : Prop :=
  exists a, a ∈ l /\ key a = k /\ Q a x.

(** The message [x] is referenced by the sender [s] under a topic titled
    [t]. *)
Definition refers (ts : list topicItemJSON) (t s : string) (x : Z) : Prop :=
  exists tp it,
    tp ∈ ts /\ title tp = t /\
    it ∈ items tp /\ sender_name it = s /\ x ∈ message_ids it.

End MergeRefs.

Module ChunkGreedy.
Import GoString LLM.

(** Consecutive chunks cannot be joined: the first message of a chunk did
    not fit the chunk before it. *)
Definition tight_list (k : Z) (l : list (list ChatMessage)) : Prop :=
  forall i c1 c2 m,
    l !! i = Some c1 -> l !! S i = Some c2 -> head c2 = Some m ->
    k < chunkTokens c1 + estimateTokens (line m).

(** The loop invariant of [splitMessagesIntoChunks] for it. *)
Definition greedy_inv (k : Z) (st : split_state) : Prop :=
  let '(chunks, current, currentTokens) := st in
  currentTokens = chunkTokens current /\
  tight_list k (chunks ++ [current]) /\
  (current = [] -> chunks = []).

End ChunkGreedy.

Module EscapeSpec.
Import GoString Summarizer FormatSpec.

(** A text that holds none of the four characters [escapeHTML] replaces. *)
Definition safe_text (s : string) : bool :=
  free_of "&" s && free_of "<" s && free_of ">" s
  && free_of (ascii_of_nat 34) s.

End EscapeSpec.

Module SchedMore.
Import GoString Ent Scheduler SchedSpec.

(** The kinds of calls to the outside. *)
Definition is_summarize (ev : Event) : bool :=
  match ev with EvSummarizeRange _ _ _ => true | _ => false end.

Definition is_llm (ev : Event) : bool :=
  match ev with EvLLM _ => true | _ => false end.

Definition is_notify (ev : Event) : bool :=
  match ev with EvNotify _ _ _ => true | _ => false end.

Definition count_ev (f : Event -> bool) (l : list Event) : Z :=
  Z.of_nat (length (List.filter f l)).

(** A computation that calls the summarizer at most [a] times, the LLM at
    most [a] times and the notifier at most [b] times. *)
Definition bounded {A} (a b : Z) (c : M A) : Prop :=
  forall w, exists new,
    logs c w new /\
    count_ev is_summarize new <= a /\ count_ev is_llm new <= a /\
    count_ev is_notify new <= b.

(** What the scheduler may send for a task of chat [c]: a text that is not
    empty, to that chat. *)
Definition notifies (c : Z) (ev : Event) : Prop :=
  match ev with
  | EvNotify c' s _ => c' = c /\ s <> ""
  | _ => True
  end.

(** [s] is the formatted summary of a result with at least one topic, for
    chat [c] and the window from [st] to [en]. *)
Definition summary_of (env : Env) (c st en : Z) (s : string) : Prop :=
  exists result,
    Summarizer.Topics result <> [] /\
    s = Summarizer.FormatSummaryForDisplay (Some result) c
          (format_date env st) (format_date env (AddDays en (-1))).

(** What processing the task [t] may send: to the chat of the task, a text
    that is not empty and is either the summary stored in the task or the
    formatted summary of its window. *)
Definition notifies_task (env : Env) (t : Task.t) (stored : bool) (ev : Event)
    : Prop :=
  match ev with
  | EvNotify c s _ =>
      c = Task.ChatID t /\ s <> "" /\
      ((stored = true /\ s = Task.SummaryContent t) \/
       summary_of env (Task.ChatID t) (Task.StartTime t) (Task.EndTime t) s)
  | _ => True
  end.

Definition is_write (ev : Event) : bool :=
  match ev with EvTaskWrite _ _ _ => true | _ => false end.

(** A relation between the world before and after a computation. *)
Definition rel {A} (R : World -> World -> Prop) (c : M A) : Prop :=
  forall w, R w (c w).2.

(** Only rows whose id satisfies [G] differ. *)
Definition same_rows_but (G : Z -> Prop) (w w' : World) : Prop :=
  forall id, ~ G id -> row_of w' id = row_of w id.

(** The key of the unique index of the task table. *)
Definition task_key (t : Task.t) : Z * Z * Z :=
  (Task.ChatID t, Task.StartTime t, Task.EndTime t).

(** The two uniqueness constraints of the task table. *)
Definition unique_rows (ts : list Task.t) : Prop :=
  NoDup (Task.ID <$> ts) /\ NoDup (task_key <$> ts).

Definition keeps_unique (w w' : World) : Prop :=
  unique_rows (tasks w) -> unique_rows (tasks w').

End SchedMore.

Module NotifierSpec.
Import GoString GoStrings LLM Scheduler Notifier.

(** The messages a state of [splitMessage] stands for: those closed, and
    the current one when it is not empty. *)
Definition flush (st : split_msgs) : list string :=
  let '(messages, currentMsg) := st in
  if negb (String.eqb currentMsg "") then messages ++ [currentMsg]
  else messages.

(** The invariant of both loops for the size of the pieces. *)
Definition pieces_ok (st : split_msgs) : Prop :=
  Forall (fun m => m <> "" /\ len m <= MaxMessageLength + 1) st.1 /\
  len st.2 <= MaxMessageLength + 1.

(** The paragraphs that count: trimmed, and not empty. *)
Definition trimmed_paragraphs (ps : list string) : list string :=
  List.filter (fun p => negb (String.eqb p "")) (map TrimSpace ps).

(** The invariant of the loop over the paragraphs when none of them is too
    long: the messages, joined by blank lines, are the paragraphs [done]
    seen so far, joined by blank lines. *)
Definition joins (done : list string) (st : split_msgs) : Prop :=
  Join (flush st) blank_line = Join done blank_line /\
  (flush st = [] <-> done = []) /\
  (st.2 = "" -> st.1 = []) /\
  Forall (fun m => m <> "" /\ len m <= MaxMessageLength) (flush st).

(** A call that succeeded. *)
Definition succeeded (x : Sent) : Prop := x.2 = true.

(** The calls [new] of a loop that stops at the first failure: all
    succeeded when the loop reports success, and otherwise all but the
    last, which failed. *)
Definition stops_at_failure (ok : bool) (new : list Sent) : Prop :=
  if ok then Forall succeeded new
  else exists pre x, new = pre ++ [x] /\ Forall succeeded pre /\ x.2 = false.

(** A text of [n] copies of the byte [a]. *)
Fixpoint fill (n : nat) (a : ascii) : string :=
  match n with
  | O => EmptyString
  | S n' => String a (fill n' a)
  end.

(** A TDLib client that parses nothing and whose sends succeed at the
    calls selected by [ok]. *)
Definition td0 (ok : nat -> bool) : TdClient :=
  {| ParseTextEntities := fun _ => None;
     SendMessage := fun n _ _ => ok n |}.

Definition cfg_mode (mode : string) (users : list Z) : SummaryConfig :=
  {| Cron := "0 1 * * *"; RetentionDays := 7; RangeDays := 1;
     NotifyMode := mode; NotifyUserIds := users; RetryTimes := 3;
     RetryInterval := 60 |}.

(** The calls that send the messages [ms] to the chat [c], all of them
    successful. *)
Definition delivered (td : TdClient) (c : Z) (ms : list string) : list Sent :=
  map (fun m => (c, parseHTMLText td m, true)) ms.

End NotifierSpec.

Module RunsSpec.
Import GoString Ent Scheduler DailyRunModel DailyRuns.

(** The table and the world that a computation leaves. *)
Definition runs_after {A} (c : R A) (rs : list DailyRun.t) (w : World)
    : list DailyRun.t := (c rs w).1.2.

Definition world_after {A} (c : R A) (rs : list DailyRun.t) (w : World)
    : World := (c rs w).2.

(** A run that is over. *)
Definition settled (r : DailyRun.t) : Prop :=
  DailyRun.Status r = dailyrun.StatusCompleted \/
  DailyRun.Status r = dailyrun.StatusFailed.

(** The row of the window, as the queries find it. *)
Definition run_of (startTime endTime : Z) (rs : list DailyRun.t)
    : option DailyRun.t :=
  List.find (same_window startTime endTime) rs.

(** What [MarkCompleted] makes of a row. *)
Definition completed_row (r : DailyRun.t) : DailyRun.t :=
  {| DailyRun.ID := DailyRun.ID r;
     DailyRun.StartTime := DailyRun.StartTime r;
     DailyRun.EndTime := DailyRun.EndTime r;
     DailyRun.Status := dailyrun.StatusCompleted;
     DailyRun.ErrorMessage := DailyRun.ErrorMessage r |}.

(** The table after the rows with the id [id] were marked completed. *)
Definition mark (id : Z) (rs : list DailyRun.t) : list DailyRun.t :=
  map (fun r => if DailyRun.ID r =? id then completed_row r else r) rs.

Definition mark_all (todo rs : list DailyRun.t) : list DailyRun.t :=
  fold_left (fun rs run => mark (DailyRun.ID run) rs) todo rs.

(** A row and what it has become: the same row, or the row completed. *)
Definition advanced (ids : list Z) (r r' : DailyRun.t) : Prop :=
  DailyRun.ID r' = DailyRun.ID r /\
  (r' = r \/ DailyRun.Status r' = dailyrun.StatusCompleted) /\
  (In (DailyRun.ID r) ids -> DailyRun.Status r' = dailyrun.StatusCompleted).

(** The configured number of days of a window. *)
Definition range_days (cfg : SummaryConfig) : Z :=
  if RangeDays cfg <=? 0 then 1 else RangeDays cfg.

Definition run0 (id startTime endTime : Z) (st : dailyrun.Status) : DailyRun.t :=
  {| DailyRun.ID := id; DailyRun.StartTime := startTime;
     DailyRun.EndTime := endTime; DailyRun.Status := st;
     DailyRun.ErrorMessage := None |}.

End RunsSpec.

(** * Properties *)

(** ** Properties of the token estimator *)

Module EstimatorFacts.
Import GoString LLM.

Lemma app_nil_s u : "" +:+ u = u.
Proof. reflexivity. Qed.

Lemma app_cons_s a s u : String a s +:+ u = String a (s +:+ u).
Proof. reflexivity. Qed.

Lemma bytes_app s u : bytes (s +:+ u) = bytes s ++ bytes u.
Proof.
  induction s as [|a s IH]; [done|].
  rewrite app_cons_s. simpl. by rewrite IH.
Qed.

Lemma len_app s u : len (s +:+ u) = len s + len u.
Proof.
  unfold len. induction s as [|a s IH]; [rewrite app_nil_s; simpl; lia|].
  rewrite app_cons_s. simpl String.length. rewrite !Nat2Z.inj_succ. lia.
Qed.

Lemma len_nonneg s : 0 <= len s.
Proof. unfold len. lia. Qed.

Lemma count_fields_nonneg b rs : 0 <= count_fields b rs.
Proof.
  revert b. induction rs as [|r rs IH]; intros b; simpl; [lia|].
  destruct (IsSpace r); [apply IH|].
  specialize (IH true). destruct b; lia.
Qed.

Lemma count_fields_app b rs rs' :
  count_fields b rs <= count_fields b (rs ++ rs').
Proof.
  revert b. induction rs as [|r rs IH]; intros b; simpl.
  - apply count_fields_nonneg.
  - destruct (IsSpace r); [apply IH|].
    specialize (IH true). lia.
Qed.

Lemma count_cjk_nonneg rs : 0 <= count_cjk rs.
Proof. unfold count_cjk. lia. Qed.

Lemma count_cjk_app rs rs' : count_cjk rs <= count_cjk (rs ++ rs').
Proof.
  unfold count_cjk. rewrite List.filter_app, List.length_app. lia.
Qed.

Lemma weigh_mono c c' w w' : c <= c' -> w <= w' -> weigh c w <= weigh c' w'.
Proof. intros Hc Hw. unfold weigh. apply Z.div_le_mono; lia. Qed.

Lemma weigh_nonneg c w : 0 <= c -> 0 <= w -> 0 <= weigh c w.
Proof. intros Hc Hw. unfold weigh. apply Z.div_pos; lia. Qed.

Lemma estimateTokens_floor s : len s / 4 <= estimateTokens s.
Proof.
  unfold estimateTokens.
  destruct (Z.ltb_spec (weigh (count_cjk (runes s)) (FieldsLen s)) (len s / 4)); lia.
Qed.

Lemma estimateTokens_nonneg s : 0 <= estimateTokens s.
Proof.
  pose proof (estimateTokens_floor s) as H.
  pose proof (len_nonneg s) as Hl.
  assert (0 <= len s / 4) by (apply Z.div_pos; lia). lia.
Qed.

Lemma decode_fuel f1 f2 bs :
  (List.length bs <= f1)%nat -> (List.length bs <= f2)%nat ->
  decode f1 bs = decode f2 bs.
Proof.
  revert f2 bs. induction f1 as [|f1 IH]; intros f2 bs H1 H2.
  - destruct bs; simpl in *; [by destruct f2 | lia].
  - destruct bs as [|b0 tl]; [by destruct f2|].
    destruct f2 as [|f2]; simpl in *; [lia|].
    destruct (decode_rune b0 tl) as [r w]. f_equal.
    apply IH; rewrite length_drop; lia.
Qed.

(** A complete decoding step looks at no byte beyond the rune it yields. *)
Lemma decode_rune_complete b0 tl u r w :
  decode_rune b0 tl = (r, w) ->
  (b0 <? 0x80) || Nat.ltb 1 w = true ->
  decode_rune b0 (tl ++ u) = (r, w) /\ (pred w <= List.length tl)%nat.
Proof.
  unfold decode_rune. intros Hd Hc.
  destruct tl as [|b1 [|b2 [|b3 tl]]]; simpl in *;
    repeat case_match; simplify_eq; simpl in *;
    rewrite ?orb_false_r in Hc; try discriminate;
    (split; [reflexivity | lia]).
Qed.

Lemma decode_valid_app fuel bs u :
  valid_bytes fuel bs = true ->
  decode (fuel + List.length u) (bs ++ u) =
  decode fuel bs ++ decode (List.length u) u.
Proof.
  revert bs. induction fuel as [|fuel IH]; intros bs Hv.
  - destruct bs; [done | discriminate].
  - destruct bs as [|b0 tl].
    + simpl app. apply decode_fuel; simpl; lia.
    + simpl in Hv. destruct (decode_rune b0 tl) as [r w] eqn:Hd.
      apply andb_prop in Hv as [Hc Hv].
      destruct (decode_rune_complete _ _ u _ _ Hd Hc) as [Hd' Hw].
      simpl. rewrite Hd', Hd. simpl. f_equal.
      rewrite drop_app_le by done. by apply IH.
Qed.

(** Valid UTF-8 always ends on a rune boundary. *)
Lemma valid_rune_boundary s u : ValidString s = true -> rune_boundary s u.
Proof.
  unfold ValidString, rune_boundary, runes. intros Hv.
  rewrite bytes_app, List.length_app. by apply decode_valid_app.
Qed.

Lemma estimateTokens_extend s u :
  rune_boundary s u -> estimateTokens s <= estimateTokens (s +:+ u).
Proof.
  unfold rune_boundary, estimateTokens, FieldsLen. intros ->.
  pose proof (weigh_mono _ _ _ _ (count_cjk_app (runes s) (runes u))
                (count_fields_app false (runes s) (runes u))) as Hw.
  assert (Hl : len s / 4 <= len (s +:+ u) / 4).
  { apply Z.div_le_mono; [lia|]. rewrite len_app. pose proof (len_nonneg u). lia. }
  repeat match goal with
         | |- context [Z.ltb ?a ?b] => destruct (Z.ltb_spec a b)
         end; lia.
Qed.

End EstimatorFacts.

Module EstimatorClaims.
Import GoString LLM EstimatorFacts.

(** The estimator agrees with the repository's own test table
    ([TestEstimateTokens]). *)
Example estimateTokens_empty : estimateTokens "" = 0.
Proof. reflexivity. Qed.

Example estimateTokens_english : estimateTokens "This is a test message" = 6.
Proof. vm_compute. reflexivity. Qed.

(** The integer quotient agrees with the binary64 evaluation, here on all
    counts up to 60 ideographs and 120 words and on the word counts up to
    30000 at which [1.3 w] is an integer. *)
Example weigh_is_binary64 :
  forallb (fun c => forallb (fun w => weigh_f64 c w =? weigh c w)
                            (map Z.of_nat (seq 0 120)))
          (map Z.of_nat (seq 0 60)) = true /\
  forallb (fun w => weigh_f64 0 (10 * w) =? weigh 0 (10 * w))
          (map Z.of_nat (seq 0 3000)) = true.
Proof. split; vm_compute; reflexivity. Qed.

(** C10, as stated, fails: the estimate is not monotone in the length of
    the text.  Seven bytes holding four one-letter words are estimated at
    5 tokens, eight bytes holding a single word at 2. *)
Lemma estimateTokens_shorter_counterexample :
  len "a b c d" < len "abcdefgh" /\
  estimateTokens "abcdefgh" < estimateTokens "a b c d".
Proof. vm_compute. split; reflexivity. Qed.

(** Nor is it monotone under arbitrary byte prefixes: the two bytes E3 80
    are one field of undecodable bytes, the three bytes E3 80 80 are the
    single white-space rune U+3000. *)
Lemma estimateTokens_truncated_rune :
  let s := String (ascii_of_nat 227) (String (ascii_of_nat 128) "") in
  let u := String (ascii_of_nat 128) "" in
  estimateTokens (s +:+ u) < estimateTokens s.
Proof. vm_compute. reflexivity. Qed.

(** C10 (amended): [estimateTokens] returns a non-negative integer that is
    at least a quarter of the byte length, rounded down, and it is
    monotone under extension of a valid UTF-8 text: the estimate of [s]
    is at most the estimate of every text that [s] is a prefix of. *)
Theorem estimateTokens_contract (s : string) :
  0 <= estimateTokens s /\
  len s / 4 <= estimateTokens s /\
  (forall u, ValidString s = true ->
             estimateTokens s <= estimateTokens (s +:+ u)).
Proof.
  split; [apply estimateTokens_nonneg|].
  split; [apply estimateTokens_floor|].
  intros u Hv. apply estimateTokens_extend. by apply valid_rune_boundary.
Qed.

Lemma estimateTokens_contract_witness :
  ValidString "ab" = true /\
  estimateTokens "ab" <= estimateTokens ("ab" +:+ " cd").
Proof.
  split; [reflexivity|].
  apply (proj2 (proj2 (estimateTokens_contract "ab")) " cd"). reflexivity.
Defined.

End EstimatorClaims.

(** ** Properties of the chunker *)

Module ChunkerFacts.
Import GoString LLM EstimatorFacts ChunkSpec.

Lemma chunkTokens_app c m :
  chunkTokens (c ++ [m]) = chunkTokens c + estimateTokens (line m).
Proof.
  unfold chunkTokens. induction c as [|x c IH]; simpl; [lia|].
  rewrite IH. lia.
Qed.

Lemma split_step_inv k done st m :
  split_inv k done st -> split_inv k (done ++ [m]) (split_step k st m).
Proof.
  destruct st as [[chunks current] tokens].
  unfold split_inv, split_step.
  intros (Hcat & Htok & Hok & Hne & Hcur). subst tokens.
  destruct ((chunkTokens current + estimateTokens (line m) >? k)
            && (0 <? Z.of_nat (List.length current))) eqn:Hcond.
  - apply andb_prop in Hcond as [_ Hlen]. apply Z.ltb_lt in Hlen.
    assert (current <> []) by (intros ->; simpl in Hlen; lia).
    split_and!.
    + rewrite concat_app. simpl concat.
      rewrite app_nil_r, app_nil_l, <- Hcat. done.
    + rewrite chunkTokens_app. reflexivity.
    + apply Forall_app. split; [done|]. constructor; [|done].
      destruct Hcur as [|Hc]; [done|exact Hc].
    + apply Forall_app. split; [done|]. by constructor.
    + right. by right.
  - split_and!.
    + by rewrite app_assoc, Hcat.
    + by rewrite chunkTokens_app.
    + done.
    + done.
    + right. apply andb_false_iff in Hcond as [Hle|Hlen].
      * left. rewrite chunkTokens_app.
        rewrite Z.gtb_ltb, Z.ltb_ge in Hle. lia.
      * right. apply Z.ltb_ge in Hlen.
        destruct current; [reflexivity | simpl in Hlen; lia].
Qed.

Lemma split_fold_inv k msgs done st :
  split_inv k done st ->
  split_inv k (done ++ msgs) (fold_left (split_step k) msgs st).
Proof.
  revert done st. induction msgs as [|m msgs IH]; intros done st Hinv; simpl.
  - by rewrite app_nil_r.
  - replace (done ++ m :: msgs) with ((done ++ [m]) ++ msgs)
      by (by rewrite <- app_assoc).
    apply IH. by apply split_step_inv.
Qed.

Lemma split_spec msgs k :
  concat (splitMessagesIntoChunks msgs k) = msgs /\
  Forall (chunk_ok k) (splitMessagesIntoChunks msgs k) /\
  Forall (fun c => c <> []) (splitMessagesIntoChunks msgs k).
Proof.
  unfold splitMessagesIntoChunks.
  destruct msgs as [|m0 msgs]; [by repeat split|].
  pose proof (split_fold_inv k (m0 :: msgs) [] ([], [], 0)) as Hinv.
  destruct (fold_left (split_step k) (m0 :: msgs) ([], [], 0))
    as [[chunks current] tokens].
  simpl in Hinv.
  destruct Hinv as (Hcat & _ & Hok & Hne & Hcur).
  { repeat split; try done. by left. }
  destruct current as [|c0 current]; simpl.
  - rewrite app_nil_r in Hcat. by repeat split.
  - repeat split.
    + rewrite concat_app. simpl. by rewrite app_nil_r.
    + apply Forall_app. split; [done|]. constructor; [|done].
      destruct Hcur as [|Hc]; [done|exact Hc].
    + apply Forall_app. split; [done|]. by constructor.
Qed.

End ChunkerFacts.

Module ChunkerClaims.
Import GoString LLM ChunkSpec ChunkerFacts.

Example split_three :
  splitMessagesIntoChunks [msg 1 "A" "x"; msg 2 "A" "y"; msg 3 "B" "z"] 4
  = [[msg 1 "A" "x"; msg 2 "A" "y"]; [msg 3 "B" "z"]].
Proof. vm_compute. reflexivity. Qed.

(** A message above the budget is kept as a chunk of its own. *)
Example split_oversized :
  splitMessagesIntoChunks [msg 1 "A" "x"; msg 2 "A" "one two three four"] 3
  = [[msg 1 "A" "x"]; [msg 2 "A" "one two three four"]].
Proof. vm_compute. reflexivity. Qed.

(** The bound is on the chunker's running total, the sum of the estimates
    of the lines; the estimate of the lines joined by newlines may be
    larger, because the estimator rounds down once instead of per line. *)
Example joined_estimate_exceeds_total :
  let c := [msg 1 "A" "x"; msg 2 "A" "y"] in
  splitMessagesIntoChunks c 4 = [c] /\ chunkTokens c = 4 /\
  estimateTokens (messagesToPromptText c) = 5.
Proof. vm_compute. repeat split; reflexivity. Qed.


End ChunkerClaims.

(** ** Properties of the merger *)

Module KeyedMergeFacts.
Import LLM KeyedMerge.

Section Keyed.
Context {A : Type} (key : A -> string) (combine : A -> A -> A).
Hypothesis combine_key :
  forall cur n, key cur = key n -> key (combine cur n) = key n.

Local Abbreviation keyed_step := (KeyedMerge.keyed_step key combine).
Local Abbreviation lookup_by := (KeyedMerge.lookup_by key).
Local Abbreviation upd := (KeyedMerge.upd key combine).
Local Abbreviation fresh := (KeyedMerge.fresh key).

Lemma index_map_snoc l x :
  index_map key (l ++ [x]) = <[key x := List.length l]> (index_map key l).
Proof.
  unfold index_map. rewrite imap_app, fold_left_app. simpl.
  by rewrite Nat.add_0_r.
Qed.

Lemma index_map_None l k : index_map key l !! k = None <-> k ∉ key <$> l.
Proof.
  induction l as [|x l IH] using rev_ind.
  - split; [intros _; apply not_elem_of_nil | intros _; apply lookup_empty].
  - rewrite index_map_snoc, fmap_app, lookup_insert_None, IH.
    rewrite not_elem_of_app. simpl. rewrite list_elem_of_singleton.
    naive_solver.
Qed.

Lemma index_map_Some l k i :
  index_map key l !! k = Some i -> exists x, l !! i = Some x /\ key x = k.
Proof.
  induction l as [|x l IH] using rev_ind.
  - unfold index_map. simpl. by rewrite lookup_empty.
  - rewrite index_map_snoc. destruct (decide (key x = k)) as [<-|Hne].
    + rewrite lookup_insert_eq. intros [= <-]. exists x.
      split; [|done]. by rewrite list_lookup_middle.
    + rewrite lookup_insert_ne by done. intros Hi.
      destruct (IH Hi) as (y & Hy & Hk). exists y. split; [|done].
      by apply lookup_app_l_Some.
Qed.

Lemma index_map_NoDup l i x :
  NoDup (key <$> l) -> l !! i = Some x -> index_map key l !! key x = Some i.
Proof.
  induction l as [|y l IH] using rev_ind; [done|].
  rewrite fmap_app, NoDup_app. simpl. intros (Hnd & Hdisj & _) Hi.
  rewrite index_map_snoc.
  destruct (decide (i = List.length l)) as [->|Hne].
  - rewrite list_lookup_middle in Hi by done. injection Hi as ->.
    by rewrite lookup_insert_eq.
  - assert (Hlt : (i < List.length l)%nat).
    { apply lookup_lt_Some in Hi. rewrite length_app in Hi. simpl in Hi. lia. }
    rewrite lookup_app_l in Hi by done.
    rewrite lookup_insert_ne; [by apply IH|].
    intros Heq. apply (Hdisj (key x)).
    + apply list_elem_of_fmap. exists x. split; [done|].
      by eapply list_elem_of_lookup_2.
    + rewrite <- Heq. apply list_elem_of_singleton. done.
Qed.

Lemma lookup_by_app k l l' :
  lookup_by k (l ++ l') =
  match lookup_by k l with Some x => Some x | None => lookup_by k l' end.
Proof.
  unfold KeyedMerge.lookup_by. induction l as [|x l IH]; simpl; [done|].
  by destruct (bool_decide (key x = k)).
Qed.

Lemma lookup_by_None k l : lookup_by k l = None <-> k ∉ key <$> l.
Proof.
  unfold KeyedMerge.lookup_by. induction l as [|x l IH]; simpl.
  - split; [intros _; apply not_elem_of_nil | done].
  - rewrite not_elem_of_cons. case_bool_decide; naive_solver.
Qed.

Lemma lookup_by_Some k l x : lookup_by k l = Some x -> x ∈ l /\ key x = k.
Proof.
  unfold KeyedMerge.lookup_by. induction l as [|y l IH]; simpl; [done|].
  case_bool_decide.
  - intros [= ->]. split; [apply list_elem_of_here | done].
  - intros Hf. destruct (IH Hf). split; [by apply list_elem_of_further | done].
Qed.

Lemma lookup_by_NoDup l x :
  NoDup (key <$> l) -> x ∈ l -> lookup_by (key x) l = Some x.
Proof.
  unfold KeyedMerge.lookup_by. induction l as [|y l IH]; simpl.
  - intros _ Hx. by apply elem_of_nil in Hx.
  - rewrite NoDup_cons. intros [Hy Hnd] Hx.
    apply elem_of_cons in Hx as [->|Hx].
    + by rewrite bool_decide_eq_true_2.
    + rewrite bool_decide_eq_false_2; [by apply IH|].
      intros Heq. apply Hy. rewrite Heq.
      apply list_elem_of_fmap. by exists x.
Qed.

Lemma upd_snoc_other news n o :
  key o <> key n -> upd (news ++ [n]) o = upd news o.
Proof.
  intros Hne. unfold KeyedMerge.upd. rewrite lookup_by_app.
  destruct (lookup_by (key o) news); [done|].
  unfold KeyedMerge.lookup_by. simpl. by rewrite bool_decide_eq_false_2.
Qed.

Lemma upd_snoc_same news n o :
  key o = key n -> key n ∉ key <$> news ->
  upd news o = o /\ upd (news ++ [n]) o = combine o n.
Proof.
  intros Heq Hnew. unfold KeyedMerge.upd. rewrite lookup_by_app.
  rewrite <- Heq in Hnew. apply lookup_by_None in Hnew. rewrite Hnew.
  split; [done|]. unfold KeyedMerge.lookup_by. simpl.
  by rewrite bool_decide_eq_true_2.
Qed.

(** The keys after the merge, whatever the inputs: the keys of the old
    elements, in place, then the keys of the new elements that were not
    among them. *)
Lemma keyed_fold_keys olds news :
  key <$> fold_left (keyed_step (index_map key olds)) news olds
  = (key <$> olds) ++ (key <$> filter (fresh olds) news).
Proof.
  induction news as [|n news IH] using rev_ind.
  - simpl. by rewrite app_nil_r.
  - rewrite fold_left_app. simpl.
    set (st := fold_left (keyed_step (index_map key olds)) news olds) in *.
    rewrite filter_app, fmap_app, app_assoc, <- IH.
    unfold KeyedMerge.keyed_step.
    destruct (index_map key olds !! key n) as [idx|] eqn:Hm.
    + destruct (index_map_Some _ _ _ Hm) as (o & Ho & Hk).
      assert (Hfresh : filter (fresh olds) [n] = []).
      { rewrite filter_cons_False, filter_nil; [done|].
        intros Hf. apply Hf. rewrite <- Hk.
        apply list_elem_of_fmap. exists o; split; [done|].
        by eapply list_elem_of_lookup_2. }
      rewrite Hfresh. simpl. rewrite app_nil_r.
      assert (Hkst : (key <$> st) !! idx = Some (key n)).
      { rewrite IH. apply lookup_app_l_Some.
        by rewrite list_lookup_fmap, Ho; simpl; rewrite Hk. }
      rewrite list_lookup_fmap in Hkst.
      destruct (st !! idx) as [cur|] eqn:Hcur; [|done].
      simpl in Hkst. injection Hkst as Hkc.
      rewrite list_fmap_insert, combine_key by done.
      apply list_insert_id. by rewrite list_lookup_fmap, Hcur; simpl; rewrite Hkc.
    + apply index_map_None in Hm.
      rewrite filter_cons_True, filter_nil by done.
      by rewrite fmap_app.
Qed.

(** The merge itself, when keys identify elements on both sides. *)
Lemma keyed_fold_spec olds news :
  NoDup (key <$> olds) -> NoDup (key <$> news) ->
  fold_left (keyed_step (index_map key olds)) news olds
  = (upd news <$> olds) ++ filter (fresh olds) news.
Proof.
  intros Hold. induction news as [|n news IH] using rev_ind; intros Hnew.
  - simpl. rewrite app_nil_r. symmetry. by apply list_fmap_id.
  - rewrite fmap_app, NoDup_app in Hnew. simpl in Hnew.
    destruct Hnew as (Hnd & Hdisj & _).
    assert (Hn : key n ∉ key <$> news).
    { intros Hin. apply (Hdisj _ Hin). by apply list_elem_of_singleton. }
    rewrite fold_left_app. simpl. rewrite (IH Hnd).
    rewrite filter_app. unfold KeyedMerge.keyed_step.
    destruct (index_map key olds !! key n) as [idx|] eqn:Hm.
    + destruct (index_map_Some _ _ _ Hm) as (o & Ho & Hk).
      destruct (upd_snoc_same news n o Hk Hn) as [Hu Hu'].
      assert (Hlt : (idx < List.length (upd news <$> olds))%nat).
      { rewrite length_fmap. by eapply lookup_lt_Some. }
      rewrite lookup_app_l by done.
      rewrite list_lookup_fmap, Ho. simpl. rewrite Hu.
      rewrite filter_cons_False, filter_nil, app_nil_r.
      2:{ intros Hf. apply Hf. rewrite <- Hk.
          apply list_elem_of_fmap. exists o; split; [done|].
          by eapply list_elem_of_lookup_2. }
      rewrite insert_app_l by done. f_equal.
      apply list_eq. intros j.
      destruct (decide (j = idx)) as [->|Hj].
      * rewrite list_lookup_insert_eq by done.
        by rewrite list_lookup_fmap, Ho; simpl; rewrite Hu'.
      * rewrite list_lookup_insert_ne by done.
        rewrite !list_lookup_fmap.
        destruct (olds !! j) as [oj|] eqn:Hoj; [|done]. simpl. f_equal.
        symmetry. apply upd_snoc_other. rewrite <- Hk. intros Heq.
        apply Hj. eapply NoDup_lookup; [exact Hold| |].
        -- by rewrite list_lookup_fmap, Hoj.
        -- by rewrite list_lookup_fmap, Ho; simpl; rewrite Heq.
    + apply index_map_None in Hm.
      rewrite filter_cons_True, filter_nil by done.
      rewrite app_assoc. f_equal. f_equal.
      apply list_fmap_ext. intros j o Ho.
      symmetry. apply upd_snoc_other. intros Heq. apply Hm.
      rewrite <- Heq. apply list_elem_of_fmap. exists o; split; [done|].
      by eapply list_elem_of_lookup_2.
Qed.

Lemma NoDup_keys_filter (P : A -> Prop) `{!forall x, Decision (P x)} l :
  NoDup (key <$> l) -> NoDup (key <$> filter P l).
Proof.
  induction l as [|x l IH]; [done|].
  rewrite fmap_cons, NoDup_cons. intros [Hx Hnd].
  destruct (decide (P x)).
  - rewrite filter_cons_True by done. rewrite fmap_cons, NoDup_cons.
    split; [|by apply IH]. intros Hin. apply Hx.
    apply list_elem_of_fmap in Hin as (y & -> & Hy).
    apply list_elem_of_filter in Hy as [_ Hy].
    by apply list_elem_of_fmap_2.
  - rewrite filter_cons_False by done. by apply IH.
Qed.

(** Keys that identify elements on both sides still do after the
    merge. *)
Lemma keyed_fold_NoDup olds news :
  NoDup (key <$> olds) -> NoDup (key <$> news) ->
  NoDup (key <$> fold_left (keyed_step (index_map key olds)) news olds).
Proof.
  intros Hold Hnew. rewrite keyed_fold_keys. apply NoDup_app.
  split; [done|]. split; [|by apply NoDup_keys_filter].
  intros k Hk Hin.
  apply list_elem_of_fmap in Hin as (y & -> & Hy).
  apply list_elem_of_filter in Hy as [Hfresh _]. by apply Hfresh.
Qed.

End Keyed.
End KeyedMergeFacts.

Module MergerFacts.
Import LLM KeyedMerge KeyedMergeFacts MergeSpec.

Lemma live_insert seen x id : live (<[x := true]> seen) id <-> x = id \/ live seen id.
Proof.
  unfold live. destruct (decide (x = id)) as [->|Hne].
  - rewrite lookup_insert_eq. naive_solver.
  - rewrite lookup_insert_ne by done. naive_solver.
Qed.

Lemma live_delete seen x id : live (delete x seen) id <-> x <> id /\ live seen id.
Proof.
  unfold live. destruct (decide (x = id)) as [->|Hne].
  - rewrite lookup_delete_eq. simpl. naive_solver.
  - rewrite lookup_delete_ne by done. naive_solver.
Qed.

Lemma live_mark_seen ids seen id :
  live (mark_seen seen ids) id <-> live seen id \/ id ∈ ids.
Proof.
  unfold mark_seen. revert seen.
  induction ids as [|x ids IH]; intros seen; simpl.
  - rewrite elem_of_nil. naive_solver.
  - rewrite IH, live_insert, elem_of_cons. naive_solver.
Qed.

Lemma take_seen_fold l res seen D :
  (forall id, id ∈ l -> (id ∈ D <-> ~ live seen id)) ->
  exists seen',
    fold_left take_seen l (res, seen) = (res ++ keep_first D l, seen') /\
    (forall id, live seen' id <-> live seen id /\ id ∉ l).
Proof.
  revert res seen D. induction l as [|x l IH]; intros res seen D HD; simpl.
  - exists seen. rewrite app_nil_r. split; [done|].
    intros id. rewrite elem_of_nil. naive_solver.
  - pose proof (HD x (list_elem_of_here _ _)) as Hx.
    destruct (default false (seen !! x)) eqn:Hlive.
    + assert (HxD : x ∉ D) by (intros Hin; by apply Hx in Hin).
      rewrite decide_False by done.
      destruct (IH (res ++ [x]) (delete x seen) (x :: D)) as (seen' & Hf & Hl).
      { intros id Hid. rewrite elem_of_cons, live_delete.
        specialize (HD id (list_elem_of_further _ _ _ Hid)).
        destruct (decide (id = x)) as [->|]; naive_solver. }
      exists seen'. rewrite Hf, <- app_assoc. split; [done|].
      intros id. rewrite Hl, live_delete, elem_of_cons. naive_solver.
    + assert (HxD : x ∈ D).
      { apply Hx. unfold live. by rewrite Hlive. }
      rewrite decide_True by done.
      destruct (IH res seen D) as (seen' & Hf & Hl).
      { intros id Hid. apply HD. by apply list_elem_of_further. }
      exists seen'. split; [done|].
      intros id. rewrite Hl, elem_of_cons. split; [|naive_solver].
      intros [Hli Hnl]. split; [done|]. intros [->|?]; [|done].
      unfold live in Hli. by rewrite Hlive in Hli.
Qed.

(** [mergeMessageIDs] is the union in first-seen order: the ids of [a],
    then the ids of [b] that are not in [a]. *)
Lemma mergeMessageIDs_spec a b :
  mergeMessageIDs a b = keep_first [] a ++ keep_first a b.
Proof.
  unfold mergeMessageIDs.
  set (seen := mark_seen (mark_seen ∅ a) b).
  assert (Hseen : forall id, live seen id <-> id ∈ a \/ id ∈ b).
  { intros id. unfold seen. rewrite !live_mark_seen.
    unfold live at 1. rewrite lookup_empty. simpl. naive_solver. }
  destruct (take_seen_fold a [] seen []) as (seen1 & Hf1 & Hl1).
  { intros id Hid. rewrite elem_of_nil, Hseen. naive_solver. }
  rewrite Hf1. simpl.
  destruct (take_seen_fold b (keep_first [] a) seen1 a) as (seen2 & Hf2 & _).
  { intros id Hid. rewrite Hl1, Hseen.
    destruct (decide (id ∈ a)); naive_solver. }
  by rewrite Hf2.
Qed.

Lemma elem_of_keep_first D l x : x ∈ keep_first D l <-> x ∈ l /\ x ∉ D.
Proof.
  revert D. induction l as [|y l IH]; intros D; simpl.
  - rewrite elem_of_nil. naive_solver.
  - destruct (decide (y ∈ D)).
    + rewrite IH, elem_of_cons. naive_solver.
    + rewrite !elem_of_cons, IH, not_elem_of_cons.
      destruct (decide (x = y)); naive_solver.
Qed.

Lemma NoDup_keep_first D l : NoDup (keep_first D l).
Proof.
  revert D. induction l as [|y l IH]; intros D; simpl; [constructor|].
  destruct (decide (y ∈ D)); [apply IH|].
  apply NoDup_cons. split; [|apply IH].
  rewrite elem_of_keep_first, not_elem_of_cons. naive_solver.
Qed.

Lemma keep_first_NoDup D l :
  NoDup l -> (forall x, x ∈ l -> x ∉ D) -> keep_first D l = l.
Proof.
  revert D. induction l as [|y l IH]; intros D Hnd HD; simpl; [done|].
  apply NoDup_cons in Hnd as [Hy Hnd].
  rewrite decide_False by (apply HD, list_elem_of_here).
  f_equal. apply IH; [done|].
  intros x Hx. rewrite not_elem_of_cons. split.
  - intros ->. done.
  - apply HD. by apply list_elem_of_further.
Qed.

Lemma elem_of_mergeMessageIDs a b x :
  x ∈ mergeMessageIDs a b <-> x ∈ a \/ x ∈ b.
Proof.
  rewrite mergeMessageIDs_spec, elem_of_app, !elem_of_keep_first.
  rewrite elem_of_nil. destruct (decide (x ∈ a)); naive_solver.
Qed.

Lemma NoDup_mergeMessageIDs a b : NoDup (mergeMessageIDs a b).
Proof.
  rewrite mergeMessageIDs_spec. apply NoDup_app.
  split; [apply NoDup_keep_first|]. split; [|apply NoDup_keep_first].
  intros x. rewrite !elem_of_keep_first. naive_solver.
Qed.

(** With unique prior ids the prior list is kept as it is. *)
Lemma mergeMessageIDs_prior_first a b :
  NoDup a -> mergeMessageIDs a b = a ++ keep_first a b.
Proof.
  intros Ha. rewrite mergeMessageIDs_spec. f_equal.
  apply keep_first_NoDup; [done|]. intros x _. apply not_elem_of_nil.
Qed.

End MergerFacts.

Module MergerClaims.
Import LLM KeyedMerge KeyedMergeFacts MergeSpec MergerFacts.

Lemma mergeTopicItems_title old new : title (mergeTopicItems old new) = title new.
Proof. reflexivity. Qed.

Lemma mergeTopicItems_items old new :
  unique_senders old -> unique_senders new ->
  items (mergeTopicItems old new)
  = (upd sender_name combine_item (items new) <$> items old)
    ++ filter (fresh sender_name (items old)) (items new).
Proof.
  intros Ho Hn. unfold mergeTopicItems. simpl.
  change (merge_item (index_map sender_name (items old)))
    with (keyed_step sender_name combine_item (index_map sender_name (items old))).
  by apply keyed_fold_spec.
Qed.

Lemma mergeTopicItems_unique old new :
  unique_senders old -> unique_senders new ->
  unique_senders (mergeTopicItems old new).
Proof.
  intros Ho Hn. unfold unique_senders, mergeTopicItems. simpl.
  change (merge_item (index_map sender_name (items old)))
    with (keyed_step sender_name combine_item (index_map sender_name (items old))).
  by apply keyed_fold_NoDup.
Qed.

Lemma mergeTopics_Some acc p :
  mergeTopics (Some acc) (Some p) = Some {| topics := merged_topics acc p |}.
Proof. reflexivity. Qed.

Lemma merged_topics_titles acc p :
  title <$> merged_topics acc p
  = (title <$> topics acc)
    ++ (title <$> filter (fresh title (topics acc)) (topics p)).
Proof. unfold merged_topics. by apply keyed_fold_keys. Qed.

Lemma merged_topics_spec acc p :
  unique_titles acc -> unique_titles p ->
  merged_topics acc p
  = (upd title mergeTopicItems (topics p) <$> topics acc)
    ++ filter (fresh title (topics acc)) (topics p).
Proof. intros Ha Hp. unfold merged_topics. by apply keyed_fold_spec. Qed.

(** The topic that an accumulated topic becomes when the partial result
    has a topic of the same title. *)
Lemma merged_topic_matched acc p told tnew :
  unique_titles acc -> unique_titles p ->
  told ∈ topics acc -> tnew ∈ topics p -> title told = title tnew ->
  mergeTopicItems told tnew ∈ merged_topics acc p.
Proof.
  intros Ha Hp Hold Hnew Heq. rewrite merged_topics_spec by done.
  apply elem_of_app. left. apply list_elem_of_fmap. exists told.
  split; [|done]. unfold upd. rewrite Heq.
  by rewrite (lookup_by_NoDup title (topics p) tnew Hp Hnew).
Qed.

Lemma merged_topics_unique_senders acc p t :
  well_keyed acc -> well_keyed p ->
  t ∈ merged_topics acc p -> unique_senders t.
Proof.
  intros [Ha Hai] [Hp Hpi]. rewrite merged_topics_spec by done.
  rewrite elem_of_app, list_elem_of_fmap, list_elem_of_filter.
  intros [(told & -> & Hold)|[_ Hnew]]; [|by apply Hpi].
  unfold upd. destruct (lookup_by title (title told) (topics p)) as [tnew|] eqn:Hl.
  - apply lookup_by_Some in Hl as [Hnew _].
    apply mergeTopicItems_unique; [by apply Hai | by apply Hpi].
  - by apply Hai.
Qed.

Example merge_same_title :
  mergeTopics
    (Some (result [topic "A" [item "X" "old desc" [1; 2]]]))
    (Some (result [topic "A" [item "X" "new desc" [2; 3];
                              item "Y" "y desc" [4]]]))
  = Some (result [topic "A" [item "X" "new desc" [1; 2; 3];
                             item "Y" "y desc" [4]]]).
Proof. vm_compute. reflexivity. Qed.

Example merge_two_chunks :
  mergeTopics
    (Some (result [topic "A" [item "X" "d1" [1]]]))
    (Some (result [topic "A" [item "X" "d1'" [1; 2]; item "Y" "d2" [3]];
                   topic "B" [item "Z" "d3" [4]]]))
  = Some (result [topic "A" [item "X" "d1'" [1; 2]; item "Y" "d2" [3]];
                  topic "B" [item "Z" "d3" [4]]]).
Proof. vm_compute. reflexivity. Qed.

Example merge_keeps_old_topic :
  mergeTopics
    (Some (result [topic "A" [item "X" "d1" [1]]; topic "B" [item "Y" "d2" [2]]]))
    (Some (result [topic "A" [item "X" "updated" [1; 3]]]))
  = Some (result [topic "A" [item "X" "updated" [1; 3]];
                  topic "B" [item "Y" "d2" [2]]]).
Proof. vm_compute. reflexivity. Qed.

Example mergeMessageIDs_test : mergeMessageIDs [1; 2; 3] [2; 3; 4] = [1; 2; 3; 4].
Proof. vm_compute. reflexivity. Qed.



(** C5, as stated, fails: the merge does not establish unique titles for
    every input.  A partial result that carries a new title twice is
    appended twice, also onto a non-nil accumulated result. *)
Lemma merge_duplicate_titles_counterexample :
  let p := result [topic "A" [item "X" "d1" [1]]; topic "A" [item "Y" "d2" [2]]] in
  mergeTopics (Some (result [])) (Some p) = Some p /\
  mergeTopics None (Some p) = Some p /\
  ~ NoDup (title <$> topics p).
Proof.
  intros p. split; [vm_compute; reflexivity|]. split; [reflexivity|].
  simpl. intros Hnd. apply NoDup_cons in Hnd as [Hin _].
  apply Hin. apply list_elem_of_here.
Qed.

(** C5 (amended): the merge preserves the invariant of [SummaryResult]:
    when the titles are unique across the topics of the accumulated and
    of the partial result (a nil result has no topics), they are unique
    across the topics of the merged result. *)
Theorem merge_unique_titles (accumulated partial : option topicsSummaryJSON) :
  unique_titles_opt accumulated -> unique_titles_opt partial ->
  unique_titles_opt (mergeTopics accumulated partial).
Proof.
  destruct accumulated as [acc|], partial as [p|]; simpl; try done.
  intros Ha Hp. unfold unique_titles. simpl.
  change (merge_topic (index_map title (topics acc)))
    with (keyed_step title mergeTopicItems (index_map title (topics acc))).
  by apply keyed_fold_NoDup.
Qed.

Lemma merge_unique_titles_witness :
  unique_titles_opt
    (mergeTopics (Some (result [topic "A" [item "X" "d1" [1]]]))
                 (Some (result [topic "A" [item "X" "d2" [2]];
                                topic "B" [item "Z" "d3" [4]]]))).
Proof.
  apply merge_unique_titles.
  - simpl. unfold unique_titles. simpl. apply NoDup_singleton.
  - simpl. unfold unique_titles. simpl. apply NoDup_cons.
    split; [|apply NoDup_singleton].
    rewrite list_elem_of_singleton. discriminate.
Defined.

End MergerClaims.

(** ** The input budget *)

Module BudgetClaims.
Import GoString LLM BudgetSpec.

Lemma wrap_int_small z : - 2 ^ 63 <= z < 2 ^ 63 -> wrap_int z = z.
Proof.
  intros Hz. unfold wrap_int.
  rewrite Z.mod_small by lia. lia.
Qed.

(** C9, as stated, fails: [NewClient] applies no floor.  A context window
    of 7000 tokens gives a budget of 5000, not 6000. *)
Lemma NewClient_floor_counterexample :
  maxInputTokens (NewClient (cfg_with 7000)) = 5000 /\
  maxInputTokens (NewClient (cfg_with 7000)) <> Z.max (7000 - 2000) 6000.
Proof. vm_compute. split; [reflexivity | discriminate]. Qed.

(** Below 2000 the budget is not even positive. *)
Example NewClient_small_window :
  maxInputTokens (NewClient (cfg_with 1500)) = -500.
Proof. vm_compute. reflexivity. Qed.

(** C9 (amended): for every configured context window [MaxTokens > 0] the
    input budget of the summarizer is [MaxTokens - 2000], with no floor,
    and this budget decides between the two paths of [SummarizeChat]: a
    non-empty input whose estimate is within the budget is answered by a
    single call on the whole text, any other non-empty input goes through
    the chunks of [splitMessagesIntoChunks] at that budget. *)
Theorem input_budget (cfg : LLMConfig)
    (once : string -> string -> option string)
    (unmarshal : string -> option topicsSummaryJSON)
    (marshal : option topicsSummaryJSON -> string)
    (m : ChatMessage) (msgs : list ChatMessage) :
  0 < MaxTokens cfg < 2 ^ 63 ->
  maxInputTokens (NewClient cfg) = MaxTokens cfg - 2000 /\
  SummarizeChat (NewClient cfg) once unmarshal marshal (m :: msgs)
  = if estimateTokens (messagesToPromptText (m :: msgs))
       <=? MaxTokens cfg - 2000
    then match once (messagesToPromptText (m :: msgs)) "" with
         | Some raw => inr raw
         | None => inl ErrOnce
         end
    else match summarize_chunks once unmarshal 0
                 (splitMessagesIntoChunks (m :: msgs) (MaxTokens cfg - 2000))
                 None with
         | inl e => inl e
         | inr accumulated => inr (marshal accumulated)
         end.
Proof.
  intros Hmax.
  assert (Hb : maxInputTokens (NewClient cfg) = MaxTokens cfg - 2000).
  { simpl. apply wrap_int_small. lia. }
  split; [exact Hb|].
  unfold SummarizeChat. rewrite Hb. reflexivity.
Qed.

Lemma input_budget_witness :
  0 < MaxTokens (cfg_with 16000) < 2 ^ 63 /\
  maxInputTokens (NewClient (cfg_with 16000)) = 14000.
Proof.
  assert (H : 0 < MaxTokens (cfg_with 16000) < 2 ^ 63) by (simpl; lia).
  split; [exact H|].
  exact (proj1 (input_budget (cfg_with 16000) (fun _ _ => None)
                  (fun _ => None) (fun _ => "")
                  {| MessageID := 1; SenderID := 1; SenderName := "A";
                     Text := "x" |} [] H)).
Defined.

End BudgetClaims.

(** ** Properties of the display formatter *)

Module FormatFacts.
Import GoString Summarizer FormatSpec EstimatorFacts.

Lemma app_assoc_s s t u : (s +:+ t) +:+ u = s +:+ (t +:+ u).
Proof.
  induction s as [|a s IH]; [done|].
  rewrite !app_cons_s. by rewrite IH.
Qed.

Lemma ReplaceAll_app s t old new :
  ReplaceAll (s +:+ t) old new = ReplaceAll s old new +:+ ReplaceAll t old new.
Proof.
  induction s as [|a s IH]; [done|].
  rewrite app_cons_s. simpl. rewrite IH.
  destruct (Ascii.eqb a old); [by rewrite app_assoc_s | by rewrite app_cons_s].
Qed.

(** The four replacements in sequence escape byte by byte.  This is where
    the order matters: the ampersands of the entities written by the later
    replacements are never seen by the first. *)
Lemma escapeHTML_cons a s : escapeHTML (String a s) = escape_byte a +:+ escapeHTML s.
Proof.
  unfold escapeHTML, escape_byte. simpl ReplaceAll at 4.
  destruct (Ascii.eqb a "&") eqn:Hamp.
  { rewrite !ReplaceAll_app. reflexivity. }
  simpl ReplaceAll at 3.
  destruct (Ascii.eqb a "<") eqn:Hlt.
  { rewrite !ReplaceAll_app. reflexivity. }
  simpl ReplaceAll at 2.
  destruct (Ascii.eqb a ">") eqn:Hgt.
  { rewrite !ReplaceAll_app. reflexivity. }
  simpl ReplaceAll at 1.
  destruct (Ascii.eqb a (ascii_of_nat 34)) eqn:Hq; reflexivity.
Qed.

Lemma escapeHTML_bytes s : escapeHTML s = escape_bytes s.
Proof.
  induction s as [|a s IH]; [reflexivity|].
  rewrite escapeHTML_cons, IH. reflexivity.
Qed.

Lemma free_of_app c s t : free_of c (s +:+ t) = free_of c s && free_of c t.
Proof.
  induction s as [|a s IH]; [done|].
  rewrite app_cons_s. simpl. rewrite IH. by rewrite andb_assoc.
Qed.

Lemma free_of_escape_byte c a :
  c = "<"%char \/ c = ">"%char \/ c = ascii_of_nat 34 ->
  free_of c (escape_byte a) = true.
Proof.
  unfold escape_byte. intros Hc.
  destruct (Ascii.eqb a "&") eqn:Hamp;
    [by destruct Hc as [->|[->| ->]]|].
  destruct (Ascii.eqb a "<") eqn:Hlt;
    [by destruct Hc as [->|[->| ->]]|].
  destruct (Ascii.eqb a ">") eqn:Hgt;
    [by destruct Hc as [->|[->| ->]]|].
  destruct (Ascii.eqb a (ascii_of_nat 34)) eqn:Hq;
    [by destruct Hc as [->|[->| ->]]|].
  simpl. destruct Hc as [->|[->| ->]]; by rewrite ?Hlt, ?Hgt, ?Hq.
Qed.

Lemma free_of_escapeHTML c s :
  c = "<"%char \/ c = ">"%char \/ c = ascii_of_nat 34 ->
  free_of c (escapeHTML s) = true.
Proof.
  intros Hc. rewrite escapeHTML_bytes.
  induction s as [|a s IH]; [done|].
  simpl. rewrite free_of_app, IH, andb_true_r. by apply free_of_escape_byte.
Qed.

Lemma free_of_uint d : free_of "<" (NilEmpty.string_of_uint d) = true.
Proof. induction d; simpl; try done. Qed.

Lemma free_of_itoa z : free_of "<" (itoa z) = true.
Proof.
  unfold itoa. destruct (Z.to_int z) as [d|d]; simpl.
  - destruct d; simpl; try done; apply free_of_uint.
  - destruct d; simpl; try done; apply free_of_uint.
Qed.

Lemma prefix_app p s t : String.prefix p s = true -> String.prefix p (s +:+ t) = true.
Proof.
  revert p. induction s as [|a s IH]; intros p.
  - destruct p; [by destruct t | discriminate].
  - rewrite app_cons_s. destruct p as [|b p]; [done|]. simpl.
    destruct (ascii_dec b a); [apply IH | done].
Qed.

Lemma tag_at_app s t : tag_at s = true -> tag_at (s +:+ t) = true.
Proof.
  unfold tag_at. rewrite !orb_true_iff.
  intros [[[H|H]|H]|H]; apply (prefix_app _ _ t) in H; tauto.
Qed.

Lemma tags_only_app s t :
  tags_only s = true -> tags_only t = true -> tags_only (s +:+ t) = true.
Proof.
  intros Hs Ht. induction s as [|a s IH]; [done|].
  rewrite app_cons_s. simpl in *.
  apply andb_prop in Hs as [Ha Hs]. rewrite (IH Hs), andb_true_r.
  destruct (Ascii.eqb a "<"); [by apply tag_at_app | done].
Qed.

Lemma tags_only_free s : free_of "<" s = true -> tags_only s = true.
Proof.
  induction s as [|a s IH]; [done|]. simpl.
  intros [Ha Hs]%andb_prop. rewrite (IH Hs), andb_true_r.
  by destruct (Ascii.eqb a "<").
Qed.

Lemma tags_only_concat l :
  Forall (fun s => tags_only s = true) l -> tags_only (String.concat "" l) = true.
Proof.
  induction 1 as [|x l Hx Hl IH]; [done|].
  destruct l as [|y l]; [done|].
  change (String.concat "" (x :: y :: l))
    with (x +:+ "" +:+ String.concat "" (y :: l)).
  apply tags_only_app; [done|]. by apply tags_only_app.
Qed.

Lemma Forall_imap {A B} (P : B -> Prop) (f : nat -> A -> B) l :
  (forall i x, P (f i x)) -> Forall P (imap f l).
Proof.
  revert f. induction l as [|x l IH]; intros f Hf; simpl; constructor.
  - apply Hf.
  - apply IH. intros i y. apply Hf.
Qed.

Lemma Forall_map_all {A B} (P : B -> Prop) (f : A -> B) l :
  (forall x, P (f x)) -> Forall P (map f l).
Proof. intros Hf. induction l; simpl; constructor; auto. Qed.

(** Closing the side conditions of a rendered template: literal fragments
    are checked by computation, escaped text and numbers hold no [<]. *)
Ltac tags :=
  repeat (apply tags_only_app);
  first [ reflexivity
        | apply tags_only_free, free_of_escapeHTML; by left
        | apply tags_only_free, free_of_itoa
        | idtac ].

Lemma tags_only_formatLink chatID msgID : tags_only (formatLink chatID msgID) = true.
Proof.
  unfold formatLink. destruct (String.eqb _ ""); [reflexivity|]. tags.
Qed.

Lemma tags_only_formatItem chatID it : tags_only (formatItem chatID it) = true.
Proof.
  unfold formatItem. tags.
  apply tags_only_concat, Forall_map_all. apply tags_only_formatLink.
Qed.

Lemma tags_only_formatTopic chatID i t : tags_only (formatTopic chatID i t) = true.
Proof.
  unfold formatTopic. tags.
  apply tags_only_concat, Forall_map_all. apply tags_only_formatItem.
Qed.

Lemma tags_only_format result chatID startDate endDate :
  tags_only (FormatSummaryForDisplay result chatID startDate endDate) = true.
Proof.
  unfold FormatSummaryForDisplay.
  destruct result as [r|]; [|reflexivity].
  destruct (Topics r) as [|t ts]; [reflexivity|].
  unfold header. tags.
  apply tags_only_concat, Forall_imap. intros i x. apply tags_only_formatTopic.
Qed.

Lemma prefix_cons a p b s :
  String.prefix (String a p) (String b s)
  = if Ascii.eqb a b then String.prefix p s else false.
Proof.
  simpl. destruct (ascii_dec a b) as [->|Hne].
  - by rewrite Ascii.eqb_refl.
  - apply Ascii.eqb_neq in Hne. by rewrite Hne.
Qed.

Lemma tag_at_not_script rest :
  tag_at rest = true -> String.prefix "script" rest = false.
Proof.
  unfold tag_at. destruct rest as [|c rest]; [done|].
  rewrite !prefix_cons.
  destruct (Ascii.eqb "s" c) eqn:Hs; [|done].
  apply Ascii.eqb_eq in Hs. subst c. discriminate.
Qed.

Lemma tags_only_Index s : tags_only s = true -> Index s "<script" = -1.
Proof.
  induction s as [|a s IH]; [done|]. simpl tags_only.
  intros [Ha Hs]%andb_prop.
  change (Index (String a s) "<script")
    with (if String.prefix "<script" (String a s) then 0
          else let i := Index s "<script" in if i <? 0 then -1 else i + 1).
  rewrite (IH Hs), prefix_cons, Ascii.eqb_sym.
  destruct (Ascii.eqb a "<"); [|done].
  by rewrite (tag_at_not_script _ Ha).
Qed.

Lemma app_nil_r_s s : s +:+ "" = s.
Proof. induction s as [|a s IH]; [done|]. by rewrite app_cons_s, IH. Qed.

Lemma contains_refl s : contains s s.
Proof. exists "", "". by rewrite app_nil_s, app_nil_r_s. Qed.

Lemma contains_app_l s t x : contains s x -> contains (s +:+ t) x.
Proof.
  intros (pre & suf & ->). exists pre, (suf +:+ t). by rewrite !app_assoc_s.
Qed.

Lemma contains_app_r s t x : contains t x -> contains (s +:+ t) x.
Proof.
  intros (pre & suf & ->). exists (s +:+ pre), suf. by rewrite !app_assoc_s.
Qed.

Lemma contains_trans s x y : contains s x -> contains x y -> contains s y.
Proof.
  intros (p1 & s1 & ->) (p2 & s2 & ->).
  exists (p1 +:+ p2), (s2 +:+ s1). by rewrite !app_assoc_s.
Qed.

Lemma contains_concat l x : x ∈ l -> contains (String.concat "" l) x.
Proof.
  induction l as [|y l IH]; [by intros ?%elem_of_nil|].
  intros Hx. destruct l as [|z l].
  - apply list_elem_of_singleton in Hx as ->. apply contains_refl.
  - change (String.concat "" (y :: z :: l))
      with (y +:+ "" +:+ String.concat "" (z :: l)).
    apply elem_of_cons in Hx as [->|Hx].
    + apply contains_app_l, contains_refl.
    + apply contains_app_r, contains_app_r. by apply IH.
Qed.

Lemma elem_of_imap {A B} (f : nat -> A -> B) l i x :
  l !! i = Some x -> f i x ∈ imap f l.
Proof.
  intros Hi. apply list_elem_of_lookup. exists i.
  by rewrite list_lookup_imap, Hi.
Qed.

Lemma contains_format_topic r chatID startDate endDate i t :
  Topics r !! i = Some t ->
  contains (FormatSummaryForDisplay (Some r) chatID startDate endDate)
           (formatTopic chatID i t).
Proof.
  intros Hi. unfold FormatSummaryForDisplay.
  destruct (Topics r) as [|t0 ts] eqn:Hts; [done|].
  apply contains_app_r, contains_concat. by apply elem_of_imap.
Qed.

Lemma contains_format_item chatID i t it :
  it ∈ Items t -> contains (formatTopic chatID i t) (formatItem chatID it).
Proof.
  intros Hit. unfold formatTopic.
  do 5 apply contains_app_r. apply contains_concat.
  apply list_elem_of_In, in_map, list_elem_of_In, Hit.
Qed.

Lemma contains_format_link chatID it id :
  id ∈ MessageIDs it -> contains (formatItem chatID it) (formatLink chatID id).
Proof.
  intros Hid. unfold formatItem.
  do 4 apply contains_app_r. apply contains_app_l, contains_concat.
  apply list_elem_of_In, in_map, list_elem_of_In, Hid.
Qed.

End FormatFacts.

Module FormatClaims.
Import GoString Summarizer FormatSpec EstimatorFacts FormatFacts.

(** The rendered prefix of the small single-chat scenario. *)
Example format_greetings :
  FormatSummaryForDisplay
    (Some {| Topics := [ {| Title := "Greetings";
                            Items := [sub_item "A" "said hi" [100; 102];
                                      sub_item "B" "responded" [101]] |} ] |})
    (-1001427755127) "2025-02-10" "2025-02-10"
  = header "2025-02-10" "2025-02-10" +:+ newline
    +:+ "1. Greetings" +:+ newline
    +:+ "- <b>A</b> said hi [<a href=" +:+ quote
    +:+ "https://t.me/c/1427755127/100" +:+ quote +:+ ">link</a>] [<a href="
    +:+ quote +:+ "https://t.me/c/1427755127/102" +:+ quote +:+ ">link</a>]"
    +:+ newline
    +:+ "- <b>B</b> responded [<a href=" +:+ quote
    +:+ "https://t.me/c/1427755127/101" +:+ quote +:+ ">link</a>]" +:+ newline.
Proof. vm_compute. reflexivity. Qed.

Example link_supergroup :
  buildMessageLink (-1003634348229) 26829 = "https://t.me/c/3634348229/26829".
Proof. vm_compute. reflexivity. Qed.

Example link_other_chat : formatLink (-123456) 1 = "".
Proof. vm_compute. reflexivity. Qed.

(** An entity written by a later replacement is not escaped again. *)
Example escape_order : escapeHTML "<&>" = "&lt;&amp;&gt;".
Proof. vm_compute. reflexivity. Qed.

(** C6, as stated, fails: [escapeHTML] replaces four characters and leaves
    the apostrophe as it is, so a sender name reaches the output with its
    apostrophe. *)
Lemma apostrophe_counterexample :
  escapeHTML "O'Brien" = "O'Brien" /\
  Index (FormatSummaryForDisplay
           (Some {| Topics := [ {| Title := "T";
                                   Items := [sub_item "O'Brien" "it's" []] |} ] |})
           (-123456) "2025-02-10" "2025-02-10")
        "<b>O'Brien</b> it's" <> -1.
Proof. vm_compute. split; [reflexivity | discriminate]. Qed.

(** C6 (amended): [escapeHTML] escapes the four characters [&], [<], [>]
    and the double quote, the ampersand first, so that it amounts to a
    byte-by-byte escape and its result holds none of [<], [>] and the
    double quote (the apostrophe is kept); every topic title, sender name,
    description and link URL reaches the output of
    [FormatSummaryForDisplay] through [escapeHTML]; every [<] of the output
    opens one of the tags of the template, so the output never contains
    [<script], whatever the user-derived strings are. *)
Theorem format_escapes (r : SummaryResult) (chatID : Z) (startDate endDate : string) :
  let out := FormatSummaryForDisplay (Some r) chatID startDate endDate in
  (forall s, escapeHTML s = escape_bytes s /\
             free_of "<" (escapeHTML s) = true /\
             free_of ">" (escapeHTML s) = true /\
             free_of (ascii_of_nat 34) (escapeHTML s) = true) /\
  (forall i t, Topics r !! i = Some t ->
     contains out (itoa (Z.of_nat i + 1) +:+ ". " +:+ escapeHTML (Title t))) /\
  (forall t it, t ∈ Topics r -> it ∈ Items t ->
     contains out ("- <b>" +:+ escapeHTML (SenderName it) +:+ "</b> "
                   +:+ escapeHTML (Description it))) /\
  (forall t it id, t ∈ Topics r -> it ∈ Items t -> id ∈ MessageIDs it ->
     buildMessageLink chatID id <> "" ->
     contains out ("<a href=" +:+ quote
                   +:+ escapeHTML (buildMessageLink chatID id) +:+ quote)) /\
  tags_only out = true /\
  Index out "<script" = -1.
Proof.
  intros out. split_and!.
  - intros s. split; [apply escapeHTML_bytes|].
    split_and!; apply free_of_escapeHTML; auto.
  - intros i t Hi.
    eapply contains_trans; [by apply contains_format_topic|].
    unfold formatTopic.
    exists newline,
      (newline +:+ String.concat "" (map (formatItem chatID) (Items t))).
    by rewrite !app_assoc_s.
  - intros t it Ht Hit.
    apply list_elem_of_lookup in Ht as [i Hi].
    eapply contains_trans; [by apply contains_format_topic|].
    eapply contains_trans; [by apply contains_format_item|].
    unfold formatItem.
    exists "",
      (String.concat "" (map (formatLink chatID) (MessageIDs it)) +:+ newline).
    by rewrite app_nil_s, !app_assoc_s.
  - intros t it id Ht Hit Hid Hlink.
    apply list_elem_of_lookup in Ht as [i Hi].
    eapply contains_trans; [by apply contains_format_topic|].
    eapply contains_trans; [by apply contains_format_item|].
    eapply contains_trans; [by apply contains_format_link|].
    unfold formatLink.
    destruct (String.eqb_spec (buildMessageLink chatID id) "") as [Heq|_]; [done|].
    exists " [", ">link</a>]". by rewrite !app_assoc_s.
  - apply tags_only_format.
  - apply tags_only_Index, tags_only_format.
Qed.

Lemma format_escapes_witness :
  let r := {| Topics := [ {| Title := "a<b";
                             Items := [sub_item "<script>" "x" [7]] |} ] |} in
  Topics r !! 0%nat = Some {| Title := "a<b";
                              Items := [sub_item "<script>" "x" [7]] |} /\
  contains (FormatSummaryForDisplay (Some r) (-1001427755127) "d" "d")
           (itoa 1 +:+ ". " +:+ escapeHTML "a<b") /\
  Index (FormatSummaryForDisplay (Some r) (-1001427755127) "d" "d") "<script" = -1.
Proof.
  intros r. split; [reflexivity|].
  pose proof (format_escapes r (-1001427755127) "d" "d") as H.
  simpl in H. destruct H as (_ & Ht & _ & _ & _ & Hi).
  split; [exact (Ht 0%nat _ eq_refl) | exact Hi].
Defined.

End FormatClaims.

(** ** Properties of the retention sweep *)

Module RetentionClaims.
Import GoString Ent Scheduler SchedSpec.

Lemma day_pos : 0 < day.
Proof. reflexivity. Qed.

Lemma StartOfDay_AddDays t k : StartOfDay (AddDays t k) = AddDays (StartOfDay t) k.
Proof.
  unfold StartOfDay, AddDays. rewrite Z.mod_add by (pose proof day_pos; lia). lia.
Qed.

Lemma StartOfDay_le t : StartOfDay t <= t.
Proof.
  unfold StartOfDay. pose proof (Z.mod_pos_bound t day day_pos). lia.
Qed.

(** The cutoff that [cleanupMessages] computes at time [t]. *)
Lemma cleanup_cutoff r t :
  0 <= r < 2 ^ 62 ->
  StartOfDay (AddDays t (wrap_int (wrap_int (- r) - 1)))
  = StartOfDay t - (r + 1) * day.
Proof.
  intros Hr. unfold wrap_int.
  rewrite (Z.mod_small (- r + 2 ^ 63)) by lia.
  replace (- r + 2 ^ 63 - 2 ^ 63 - 1 + 2 ^ 63) with (2 ^ 63 - (r + 1)) by lia.
  rewrite Z.mod_small by lia.
  rewrite StartOfDay_AddDays. unfold AddDays. lia.
Qed.

Example cleanup_sample :
  let w := {| clock := 0;
              messages := [message0 1 (91 * day + 5); message0 2 (92 * day);
                           message0 3 (99 * day)];
              tasks := []; log := [] |} in
  messages (cleanupMessages (env0 None (fun _ => true) true) cfg0 w).2
  = [message0 2 (92 * day); message0 3 (99 * day)].
Proof. vm_compute. reflexivity. Qed.



End RetentionClaims.


(** ** Properties of the scheduler *)

Module SchedulerFacts.
Import GoString Ent Scheduler SchedSpec.

(** *** Without a cancel signal *)

Lemma ctx_done_never env w : cancel_at env = None -> ctx_done env w = false.
Proof. unfold ctx_done. by intros ->. Qed.

Lemma store_ok_never env w : cancel_at env = None -> store_ok env w = true.
Proof. intros H. unfold store_ok. by rewrite ctx_done_never, andb_false_r. Qed.

(** Once the signal has fired it stays. *)
Lemma ctx_done_mono env w w' :
  (clock w <= clock w')%nat -> ctx_done env w = true -> ctx_done env w' = true.
Proof.
  unfold ctx_done. destruct (cancel_at env) as [n|]; [|done].
  rewrite !Nat.leb_le. lia.
Qed.

(** *** Rows under an update *)

Section Rows.
Context (id : Z) (f : Task.t -> Task.t).
Hypothesis f_id : forall t, Task.ID (f t) = Task.ID t.

Let upd (t : Task.t) : Task.t := if Task.ID t =? id then f t else t.

Lemma upd_id t : Task.ID (upd t) = Task.ID t.
Proof. unfold upd. destruct (Task.ID t =? id); [apply f_id | done]. Qed.

Lemma has_task_upd id' ts : has_task id' (map upd ts) = has_task id' ts.
Proof.
  unfold has_task. induction ts as [|t ts IH]; [done|].
  simpl. by rewrite upd_id, IH.
Qed.

Lemma find_task_upd_same ts :
  find_task id (map upd ts) = option_map f (find_task id ts).
Proof.
  unfold find_task. induction ts as [|t ts IH]; [done|].
  simpl. rewrite upd_id.
  destruct (Task.ID t =? id) eqn:E; [|exact IH].
  simpl. unfold upd. by rewrite E.
Qed.

Lemma find_task_upd_other id' ts :
  id' <> id -> find_task id' (map upd ts) = find_task id' ts.
Proof.
  intros Hne. unfold find_task. induction ts as [|t ts IH]; [done|].
  simpl. rewrite upd_id.
  destruct (Task.ID t =? id') eqn:E; [|exact IH].
  unfold upd. apply Z.eqb_eq in E.
  by rewrite (proj2 (Z.eqb_neq (Task.ID t) id)) by lia.
Qed.

End Rows.

Lemma find_task_has id ts r : find_task id ts = Some r -> has_task id ts = true.
Proof.
  unfold find_task, has_task. induction ts as [|t ts IH]; [done|].
  simpl. destruct (Task.ID t =? id); [done | exact IH].
Qed.

(** What a store update does when the store runs it on an existing row. *)
Lemma update_task_spec env id op f w r e w1 :
  (forall t, Task.ID (f t) = Task.ID t) ->
  store_ok env w = true ->
  row_of w id = Some r ->
  update_task env id op f w = (e, w1) ->
  e = None /\
  row_of w1 id = Some (f r) /\
  (forall id', id' <> id -> row_of w1 id' = row_of w id') /\
  log w1 = log w ++ [EvTaskWrite id op true] /\
  clock w1 = clock w /\ messages w1 = messages w.
Proof.
  intros Hf Hok Hrow. unfold update_task, bind, get. rewrite Hok.
  rewrite (find_task_has _ _ _ Hrow). simpl. intros [= <- <-]. simpl.
  unfold row_of in *. simpl.
  rewrite (find_task_upd_same id f Hf), Hrow.
  split_and!; try done.
  intros id' Hne. by apply find_task_upd_other.
Qed.

(** What it does when the store refuses the call. *)
Lemma update_task_refused env id op f w e w1 :
  store_ok env w = false ->
  update_task env id op f w = (e, w1) ->
  e = Some ErrStore /\ tasks w1 = tasks w /\
  log w1 = log w ++ [EvTaskWrite id op false] /\
  clock w1 = clock w /\ messages w1 = messages w.
Proof.
  intros Hok. unfold update_task, bind, get. rewrite Hok. simpl.
  by intros [= <- <-].
Qed.

(** *** Computations that do not call the summarizer *)

Lemma quiet_ret {A} (a : A) : quiet (ret a).
Proof. intros w. exists []. split; [unfold logs; simpl; by rewrite app_nil_r | constructor]. Qed.

Lemma quiet_bind {A B} (c : M A) (k : A -> M B) :
  quiet c -> (forall a, quiet (k a)) -> quiet (bind c k).
Proof.
  intros Hc Hk w. destruct (Hc w) as (n1 & Hl1 & Hq1).
  unfold logs, bind in *.
  remember (c w) as r eqn:Hcw. destruct r as [a w1]. simpl in Hl1.
  destruct (Hk a w1) as (n2 & Hl2 & Hq2). unfold logs in Hl2.
  exists (n1 ++ n2). split.
  - by rewrite Hl2, Hl1, app_assoc.
  - by apply Forall_app.
Qed.

Lemma quiet_get : quiet get.
Proof. intros w. exists []. split; [unfold logs; simpl; by rewrite app_nil_r | constructor]. Qed.

Lemma quiet_done env : quiet (done env).
Proof. intros w. exists []. split; [unfold logs; simpl; by rewrite app_nil_r | constructor]. Qed.

Lemma quiet_tick : quiet tick.
Proof. intros w. exists []. split; [unfold logs; simpl; by rewrite app_nil_r | constructor]. Qed.

Lemma quiet_set_tasks ts : quiet (set_tasks ts).
Proof. intros w. exists []. split; [unfold logs; simpl; by rewrite app_nil_r | constructor]. Qed.

Lemma quiet_emit ev : summarizer_event ev = false -> quiet (emit ev).
Proof. intros Hev w. exists [ev]. split; [done | by constructor]. Qed.

(** Composite computations are taken apart bind by bind. *)
Ltac quiet_step :=
  first
    [ apply quiet_ret | apply quiet_get | apply quiet_done | apply quiet_tick
    | apply quiet_set_tasks | by apply quiet_emit
    | apply quiet_bind; [|intros ?]
    | match goal with
      | |- quiet (if ?b then _ else _) => destruct b
      | |- quiet (match ?x with _ => _ end) => destruct x
      end ].

Lemma quiet_update_task env id op f : quiet (update_task env id op f).
Proof. unfold update_task. repeat quiet_step. Qed.

Lemma quiet_UpdateTaskStatus env id st e : quiet (UpdateTaskStatus env id st e).
Proof. unfold UpdateTaskStatus. quiet_step; [quiet_step|]. apply quiet_update_task. Qed.

Lemma quiet_Notify env s c : quiet (Notify env s c).
Proof. unfold Notify. repeat quiet_step. Qed.

Lemma quiet_sleep env : quiet (sleep_or_done env).
Proof. unfold sleep_or_done. repeat quiet_step. Qed.

Lemma quiet_notify_loop env s c remaining attempt :
  quiet (notify_loop env s c remaining attempt).
Proof.
  revert attempt. induction remaining as [|r IH]; intros attempt; simpl.
  - apply quiet_ret.
  - repeat first [ apply IH | apply quiet_Notify | apply quiet_sleep | quiet_step ].
Qed.

Lemma quiet_sendTaskNotification env s c : quiet (sendTaskNotification env s c).
Proof. apply quiet_notify_loop. Qed.

(** *** Computations that call the summarizer for one window only *)

Lemma logs_only_weaken {A} (P Q : Event -> Prop) (c : M A) :
  (forall ev, P ev -> Q ev) -> logs_only P c -> logs_only Q c.
Proof.
  intros HPQ Hc w. destruct (Hc w) as (new & Hl & Hq).
  exists new. split; [done|]. eapply Forall_impl; [exact Hq | exact HPQ].
Qed.

Lemma logs_only_bind {A B} (P : Event -> Prop) (c : M A) (k : A -> M B) :
  logs_only P c -> (forall a, logs_only P (k a)) -> logs_only P (bind c k).
Proof.
  intros Hc Hk w. destruct (Hc w) as (n1 & Hl1 & Hq1).
  unfold logs, bind in *.
  remember (c w) as r eqn:Hcw. destruct r as [a w1]. simpl in Hl1.
  destruct (Hk a w1) as (n2 & Hl2 & Hq2). unfold logs in Hl2.
  exists (n1 ++ n2). split.
  - by rewrite Hl2, Hl1, app_assoc.
  - by apply Forall_app.
Qed.

Lemma logs_only_emit (P : Event -> Prop) ev : P ev -> logs_only P (emit ev).
Proof. intros Hev w. exists [ev]. split; [done | by constructor]. Qed.

Section OneWindow.
Context (P : Event -> Prop).
Hypothesis P_other : forall ev, summarizer_event ev = false -> P ev.

Lemma logs_only_quiet {A} (c : M A) : quiet c -> logs_only P c.
Proof. apply logs_only_weaken, P_other. Qed.

Lemma logs_only_SummarizeRange env c st en :
  P (EvSummarizeRange c st en) -> P (EvLLM c) ->
  logs_only P (SummarizeRange env c st en).
Proof.
  intros H1 H2. unfold SummarizeRange, GetByDateRangeAndChat.
  apply logs_only_bind; [by apply logs_only_emit|]. intros _.
  apply logs_only_bind.
  { apply logs_only_quiet. repeat quiet_step. }
  intros [msgs [e|]]; [apply logs_only_quiet, quiet_ret|].
  destruct msgs as [|m msgs]; [apply logs_only_quiet, quiet_ret|].
  apply logs_only_bind; [apply logs_only_quiet, quiet_get|]. intros w.
  apply logs_only_bind; [by apply logs_only_emit|]. intros _.
  apply logs_only_bind; [apply logs_only_quiet, quiet_tick|]. intros _.
  apply logs_only_quiet. repeat quiet_step.
Qed.

Lemma logs_only_summary_loop env c st en rt remaining attempt last :
  P (EvSummarizeRange c st en) -> P (EvLLM c) ->
  logs_only P (summary_loop env c st en rt remaining attempt last).
Proof.
  intros H1 H2. revert attempt last.
  induction remaining as [|r IH]; intros attempt last; simpl.
  - apply logs_only_quiet, quiet_ret.
  - apply logs_only_bind; [apply logs_only_quiet, quiet_done|].
    intros [|]; [apply logs_only_quiet, quiet_ret|].
    apply logs_only_bind; [by apply logs_only_SummarizeRange|].
    intros [result [e|]]; [|apply logs_only_quiet, quiet_ret].
    destruct (attempt <? rt); [|apply IH].
    apply logs_only_bind; [apply logs_only_quiet, quiet_sleep|].
    intros [|]; [apply logs_only_quiet, quiet_ret | apply IH].
Qed.

Lemma logs_only_generateSummaryForTask env cfg c st en :
  P (EvSummarizeRange c st en) -> P (EvLLM c) ->
  logs_only P (generateSummaryForTask env cfg c st en).
Proof.
  intros H1 H2. unfold generateSummaryForTask.
  apply logs_only_bind; [by apply logs_only_summary_loop|].
  intros r. apply logs_only_quiet. repeat quiet_step.
Qed.

Lemma logs_only_processTask env cfg c st en id :
  P (EvSummarizeRange c st en) -> P (EvLLM c) ->
  logs_only P (processTask env cfg c st en id).
Proof.
  intros H1 H2. unfold processTask.
  apply logs_only_bind; [by apply logs_only_generateSummaryForTask|].
  intros r. apply logs_only_quiet.
  unfold SetSummaryContent, ClearSummaryContent.
  repeat first [ apply quiet_update_task | apply quiet_sendTaskNotification
               | quiet_step ].
Qed.

End OneWindow.

(** Recovery of a task that carries a summary never calls the summarizer,
    whatever the store, the notifier and the cancel signal do. *)
Lemma quiet_recover_task env cfg cutoffTime t :
  Task.SummaryContent t <> "" -> quiet (recover_task env cfg cutoffTime t).
Proof.
  intros Hne. unfold recover_task.
  apply String.eqb_neq in Hne. rewrite Hne. simpl negb. cbv iota.
  unfold MarkTaskFailed, MarkTaskCompleted, ResetTaskToPending, ClearSummaryContent.
  repeat first [ apply quiet_update_task | apply quiet_UpdateTaskStatus
               | apply quiet_sendTaskNotification | quiet_step ].
Qed.

(** Recovery calls the summarizer only for tasks without a summary. *)
Lemma logs_only_recover_task env cfg cutoffTime t ts :
  In t ts -> logs_only (recovery_event ts) (recover_task env cfg cutoffTime t).
Proof.
  intros Hin.
  assert (Hother : forall ev, summarizer_event ev = false -> recovery_event ts ev)
    by (intros ev Hev; by left).
  destruct (String.eqb_spec (Task.SummaryContent t) "") as [Hempty|Hne].
  - unfold recover_task. rewrite Hempty. simpl negb. cbv iota.
    destruct (Task.StartTime t <? cutoffTime);
      [apply logs_only_quiet, quiet_ret; done|].
    unfold ResetTaskToPending, MarkTaskFailed, MarkTaskCompleted.
    apply logs_only_bind;
      [apply logs_only_quiet, quiet_update_task; done|].
    intros [e|]; [apply logs_only_quiet, quiet_ret; done|].
    apply logs_only_bind;
      [apply logs_only_quiet, quiet_UpdateTaskStatus; done|].
    intros [e|]; [apply logs_only_quiet, quiet_ret; done|].
    apply logs_only_bind.
    { apply logs_only_processTask; [done| |]; right; exists t; auto. }
    intros r. apply (logs_only_quiet _ Hother).
    repeat first [ apply quiet_UpdateTaskStatus | quiet_step ].
  - by apply logs_only_quiet, quiet_recover_task.
Qed.

Lemma logs_only_recover_loop env cfg cutoffTime ts all :
  (forall t, In t ts -> In t all) ->
  logs_only (recovery_event all) (recover_loop env cfg cutoffTime ts).
Proof.
  assert (Hother : forall ev, summarizer_event ev = false -> recovery_event all ev)
    by (intros ev Hev; by left).
  induction ts as [|t ts IH]; intros Hsub; simpl.
  - by apply logs_only_quiet, quiet_ret.
  - apply logs_only_bind; [by apply logs_only_quiet, quiet_done|].
    intros [|]; [by apply logs_only_quiet, quiet_ret|].
    apply logs_only_bind.
    + apply logs_only_recover_task, Hsub. by left.
    + intros _. apply IH. intros t' Ht'. apply Hsub. by right.
Qed.

Lemma recoverPendingTasks_events env cfg w :
  exists new,
    log (recoverPendingTasks env cfg w).2 = log w ++ new /\
    Forall (recovery_event (pending w)) new.
Proof.
  unfold recoverPendingTasks, GetPendingOrProcessingTasks.
  unfold bind at 1. unfold bind at 1, get.
  destruct (store_ok env w); simpl;
    [|exists []; split; [by rewrite app_nil_r | constructor]].
  fold (pending w).
  destruct (pending w) as [|t ts] eqn:Hp;
    [exists []; split; [simpl; by rewrite app_nil_r | constructor]|].
  unfold bind, get.
  apply (logs_only_recover_loop env cfg _ (t :: ts) (t :: ts)). auto.
Qed.

(** *** The delivery phase without a cancel signal *)

Lemma delivery_post_cons env c s r w w' sent err w1 :
  tasks w' = tasks w -> messages w' = messages w ->
  notify env (clock w) s c = false ->
  log w' = log w ++ [EvNotify c s false] ->
  delivery_post env c s r w' sent err w1 ->
  delivery_post env c s (S r) w sent err w1.
Proof.
  intros Ht Hm Hn Hl (He & Ht1 & Hm1 & new & Hl1 & Hall & Hs & Hf).
  split; [done|]. split; [congruence|]. split; [congruence|].
  exists (EvNotify c s false :: new).
  split; [by rewrite Hl1, Hl, <- app_assoc|].
  split; [constructor; [exists (clock w); by rewrite Hn | done]|].
  split.
  - rewrite Hs. simpl. split; [by right | by intros [[=]|?]].
  - intros Hsf. simpl. by rewrite (Hf Hsf).
Qed.

Lemma notify_loop_spec env s c remaining attempt w sent err w1 :
  cancel_at env = None ->
  notify_loop env s c remaining attempt w = ((sent, err), w1) ->
  delivery_post env c s remaining w sent err w1.
Proof.
  intros Hc. revert attempt w.
  induction remaining as [|r IH]; intros attempt w; simpl.
  - intros [= <- <- <-]. split; [done|]. split; [done|]. split; [done|].
    exists []. rewrite app_nil_r. split; [done|]. split; [constructor|].
    split; [by split | done].
  - unfold bind at 1, done. rewrite (ctx_done_never _ _ Hc).
    unfold bind at 1, Notify, get, emit, tick, bind, ret. simpl.
    destruct (notify env (clock w) s c) eqn:Hok.
    + intros [= <- <- <-]. split; [done|]. split; [done|]. split; [done|].
      exists [EvNotify c s true]. split; [done|].
      split; [repeat constructor; exists (clock w); by rewrite Hok|].
      split; [split; [intros _; by left | done] | done].
    + destruct (attempt <? notifyRetryTimes).
      * unfold sleep_or_done, bind, tick, done. simpl.
        rewrite (ctx_done_never _ _ Hc). intros Hrun.
        eapply delivery_post_cons; [| | | |exact (IH _ _ Hrun)]; done.
      * intros Hrun.
        eapply delivery_post_cons; [| | | |exact (IH _ _ Hrun)]; done.
Qed.

Lemma sendTaskNotification_spec env s c w sent err w1 :
  cancel_at env = None ->
  sendTaskNotification env s c w = ((sent, err), w1) ->
  delivery_post env c s 2 w sent err w1.
Proof. intros Hc. apply notify_loop_spec, Hc. Qed.

(** A notifier that never succeeds leaves the summary undelivered. *)
Lemma delivery_post_failing env c s n w sent err w1 :
  (forall k, notify env k s c = false) ->
  delivery_post env c s n w sent err w1 ->
  sent = false /\ err = None /\ tasks w1 = tasks w /\
  log w1 = log w ++ repeat (EvNotify c s false) n.
Proof.
  intros Hfail (He & Ht & _ & new & Hl & Hall & Hs & Hf).
  assert (Hsent : sent = false).
  { destruct sent; [|done]. destruct Hs as [Hs _].
    specialize (Hs eq_refl). rewrite Forall_forall in Hall.
    destruct (Hall _ (proj2 (list_elem_of_In _ _) Hs)) as [k Hk].
    by rewrite Hfail in Hk. }
  split; [done|]. split; [done|]. split; [done|].
  by rewrite Hl, (Hf Hsent).
Qed.

(** *** Computations that leave the task rows alone *)

Lemma keeps_ret {A} (a : A) : keeps_tasks (ret a).
Proof. by intros w. Qed.

Lemma keeps_bind {A B} (c : M A) (k : A -> M B) :
  keeps_tasks c -> (forall a, keeps_tasks (k a)) -> keeps_tasks (bind c k).
Proof.
  intros Hc Hk w. unfold bind. specialize (Hc w).
  destruct (c w) as [a w1]. simpl in Hc. by rewrite Hk.
Qed.

Lemma keeps_get : keeps_tasks get.
Proof. by intros w. Qed.

Lemma keeps_done env : keeps_tasks (done env).
Proof. by intros w. Qed.

Lemma keeps_tick : keeps_tasks tick.
Proof. by intros w. Qed.

Lemma keeps_emit ev : keeps_tasks (emit ev).
Proof. by intros w. Qed.

Ltac keeps_step :=
  first
    [ apply keeps_ret | apply keeps_get | apply keeps_done | apply keeps_tick
    | apply keeps_emit
    | apply keeps_bind; [|intros ?]
    | match goal with
      | |- keeps_tasks (if ?b then _ else _) => destruct b
      | |- keeps_tasks (match ?x with _ => _ end) => destruct x
      end ].

Lemma keeps_SummarizeRange env c st en : keeps_tasks (SummarizeRange env c st en).
Proof. unfold SummarizeRange, GetByDateRangeAndChat. repeat keeps_step. Qed.

Lemma keeps_summary_loop env c st en rt remaining attempt last :
  keeps_tasks (summary_loop env c st en rt remaining attempt last).
Proof.
  revert attempt last.
  induction remaining as [|r IH]; intros attempt last; simpl.
  - apply keeps_ret.
  - unfold sleep_or_done.
    repeat first [ apply IH | apply keeps_SummarizeRange | keeps_step ].
Qed.

Lemma keeps_generateSummaryForTask env cfg c st en :
  keeps_tasks (generateSummaryForTask env cfg c st en).
Proof.
  unfold generateSummaryForTask.
  repeat first [ apply keeps_summary_loop | keeps_step ].
Qed.

Lemma keeps_Notify env s c : keeps_tasks (Notify env s c).
Proof. unfold Notify. repeat keeps_step. Qed.

Lemma keeps_notify_loop env s c remaining attempt :
  keeps_tasks (notify_loop env s c remaining attempt).
Proof.
  revert attempt. induction remaining as [|r IH]; intros attempt; simpl.
  - apply keeps_ret.
  - unfold sleep_or_done.
    repeat first [ apply IH | apply keeps_Notify | keeps_step ].
Qed.

(** *** Computations that change no status *)

Lemma keeps_status_tasks {A} (c : M A) : keeps_tasks c -> keeps_status c.
Proof. intros Hc w id. unfold row_of. by rewrite Hc. Qed.

Lemma keeps_status_bind {A B} (c : M A) (k : A -> M B) :
  keeps_status c -> (forall a, keeps_status (k a)) -> keeps_status (bind c k).
Proof.
  intros Hc Hk w id. unfold bind. specialize (Hc w id).
  destruct (c w) as [a w1]. simpl in Hc. by rewrite Hk.
Qed.

Lemma find_task_upd_status id f id' ts :
  (forall t, Task.ID (f t) = Task.ID t) ->
  (forall t, Task.Status (f t) = Task.Status t) ->
  option_map Task.Status
    (find_task id' (map (fun t => if Task.ID t =? id then f t else t) ts))
  = option_map Task.Status (find_task id' ts).
Proof.
  intros Hid Hst. unfold find_task. induction ts as [|t ts IH]; [done|].
  simpl. destruct (Task.ID t =? id) eqn:E.
  - rewrite Hid. destruct (Task.ID t =? id'); [simpl; by rewrite Hst | exact IH].
  - destruct (Task.ID t =? id'); [done | exact IH].
Qed.

Lemma keeps_status_update env id op f :
  (forall t, Task.ID (f t) = Task.ID t) ->
  (forall t, Task.Status (f t) = Task.Status t) ->
  keeps_status (update_task env id op f).
Proof.
  intros Hid Hst w id'. unfold update_task, bind, get.
  destruct (store_ok env w); [|done].
  destruct (has_task id (tasks w)); [|done].
  simpl. unfold row_of. simpl. by apply find_task_upd_status.
Qed.

Lemma keeps_status_processTask env cfg c st en id :
  keeps_status (processTask env cfg c st en id).
Proof.
  unfold processTask.
  apply keeps_status_bind;
    [apply keeps_status_tasks, keeps_generateSummaryForTask|].
  intros [summary [e|]]; [apply keeps_status_tasks, keeps_ret|].
  destruct (String.eqb summary ""); [apply keeps_status_tasks, keeps_ret|].
  apply keeps_status_bind.
  { destruct (0 <? id); [|apply keeps_status_tasks, keeps_ret].
    apply keeps_status_bind; [by apply keeps_status_update|].
    intros _. apply keeps_status_tasks, keeps_ret. }
  intros _. apply keeps_status_bind;
    [apply keeps_status_tasks, keeps_notify_loop|].
  intros [sent [e|]]; [apply keeps_status_tasks, keeps_ret|].
  apply keeps_status_bind; [|intros _; apply keeps_status_tasks, keeps_ret].
  destruct (sent && (0 <? id)); [|apply keeps_status_tasks, keeps_ret].
  apply keeps_status_bind; [by apply keeps_status_update|].
  intros _. apply keeps_status_tasks, keeps_ret.
Qed.

(** *** A cancel signal seen at the head of an attempt *)

Lemma retry_times_pos cfg : 1 <= retry_times cfg.
Proof. unfold retry_times. destruct (Z.leb_spec (RetryTimes cfg) 0); lia. Qed.

Lemma generateSummaryForTask_cancelled env cfg c st en w :
  ctx_done env w = true ->
  generateSummaryForTask env cfg c st en w = (("", Some ErrCancelled), w).
Proof.
  intros Hd. unfold generateSummaryForTask.
  pose proof (retry_times_pos cfg) as Hpos.
  destruct (Z.to_nat (retry_times cfg)) as [|k] eqn:Hk; [lia|].
  simpl. unfold bind, done. by rewrite Hd.
Qed.

Lemma sendTaskNotification_cancelled env s c w :
  ctx_done env w = true ->
  sendTaskNotification env s c w = ((false, Some ErrCancelled), w).
Proof.
  intros Hd. unfold sendTaskNotification. simpl. unfold bind, done.
  by rewrite Hd.
Qed.

(** A status update that the store runs on an existing row. *)
Lemma UpdateTaskStatus_spec env id st e w r e' w1 :
  store_ok env w = true ->
  row_of w id = Some r ->
  UpdateTaskStatus env id st e w = (e', w1) ->
  e' = None /\
  (exists r', row_of w1 id = Some r' /\ Task.Status r' = st /\
              Task.SummaryContent r' = Task.SummaryContent r /\
              Task.ErrorMessage r'
              = match e with Some x => Some x | None => Task.ErrorMessage r end) /\
  (forall id', id' <> id -> row_of w1 id' = row_of w id') /\
  log w1 = log w ++ [EvTaskWrite id (OpStatus st e) true] /\
  clock w1 = clock w /\ messages w1 = messages w.
Proof.
  intros Hok Hrow. unfold UpdateTaskStatus. unfold bind at 1, get. intros Hrun.
  eapply update_task_spec in Hrun; [|done|exact Hok|exact Hrow].
  destruct Hrun as (-> & Hr & Hframe & Hl & Hc & Hm).
  split; [done|]. split; [|done].
  eexists. split; [exact Hr|]. done.
Qed.

Lemma UpdateTaskStatus_refused env id st e w e' w1 :
  store_ok env w = false ->
  UpdateTaskStatus env id st e w = (e', w1) ->
  e' = Some ErrStore /\ tasks w1 = tasks w /\
  log w1 = log w ++ [EvTaskWrite id (OpStatus st e) false] /\
  clock w1 = clock w /\ messages w1 = messages w.
Proof.
  intros Hok. unfold UpdateTaskStatus. unfold bind at 1, get.
  by apply update_task_refused.
Qed.

Lemma row_of_tasks w w' id : tasks w' = tasks w -> row_of w' id = row_of w id.
Proof. unfold row_of. by intros ->. Qed.

(** How a caller ends after it has asked for the task to be marked failed. *)
Lemma MarkTaskFailed_outcome env id e w r :
  row_of w id = Some r ->
  exists e' w',
    MarkTaskFailed env id e w = (e', w') /\
    log w' = log w ++ [EvTaskWrite id (OpStatus StatusFailed (Some e))
                                   (store_ok env w)] /\
    option_map Task.Status (row_of w' id)
    = Some (if store_ok env w then StatusFailed else Task.Status r).
Proof.
  intros Hrow. unfold MarkTaskFailed.
  destruct (UpdateTaskStatus env id StatusFailed (Some e) w) as [e' w'] eqn:Hrun.
  exists e', w'. split; [done|].
  destruct (store_ok env w) eqn:Hok.
  - eapply UpdateTaskStatus_spec in Hrun; [|exact Hok|exact Hrow].
    destruct Hrun as (_ & (r' & Hr' & Hst & _) & _ & Hl & _).
    split; [done|]. by rewrite Hr'; simpl; rewrite Hst.
  - eapply UpdateTaskStatus_refused in Hrun; [|exact Hok].
    destruct Hrun as (_ & Ht & Hl & _).
    split; [done|]. by rewrite (row_of_tasks _ _ _ Ht), Hrow.
Qed.

End SchedulerFacts.

Module RecoveryClaims.
Import GoString Ent Scheduler SchedSpec SchedulerFacts.

(** The crash between the two phases: recovery finds the task with its
    summary, delivers it, clears it and completes the task. *)
Example recover_after_crash :
  let w' := (recoverPendingTasks (env0 None (fun _ => true) true) cfg0
               (world0 StatusProcessing "S")).2 in
  log w' = [EvTaskWrite 1 OpReset true;
            EvTaskWrite 1 (OpStatus StatusProcessing None) true;
            EvNotify (-5) "S" true;
            EvTaskWrite 1 OpClearSummary true;
            EvTaskWrite 1 (OpStatus StatusCompleted None) true] /\
  option_map Task.Status (row_of w' 1) = Some StatusCompleted /\
  option_map Task.SummaryContent (row_of w' 1) = Some "".
Proof. vm_compute. repeat split; reflexivity. Qed.

(** The same rows met by the re-run of an unfinished daily run are
    summarized anew: [executeDailySummaryForRange] does not look at
    [summary_content]. *)
Example rerun_summarizes_again :
  let w' := (executeDailySummaryForRange (env0 None (fun _ => true) true) cfg0
               (99 * day) (100 * day) (world0 StatusProcessing "S")).2 in
  In (EvLLM (-5)) (log w').
Proof. vm_compute. right. right. left. reflexivity. Qed.

(** The recovery of one task that carries a summary. *)
Lemma recover_task_delivery (env : Env) (cfg : SummaryConfig)
    (cutoffTime : Z) (t : Task.t) (w : World) :
  Task.SummaryContent t <> "" ->
  let w' := (recover_task env cfg cutoffTime t w).2 in
  exists new,
    log w' = log w ++ new /\
    Forall (fun ev => summarizer_event ev = false) new /\
    (cancel_at env = None ->
     cutoffTime <= Task.StartTime t ->
     is_Some (row_of w (Task.ID t)) ->
     In (EvNotify (Task.ChatID t) (Task.SummaryContent t) true) new ->
     exists row,
       row_of w' (Task.ID t) = Some row /\
       Task.Status row = StatusCompleted /\
       Task.SummaryContent row = "").
Proof.
  intros Hne w'.
  destruct (quiet_recover_task env cfg cutoffTime t Hne w) as (new & Hlog & Hq).
  unfold logs in Hlog. fold w' in Hlog.
  exists new. split; [exact Hlog|]. split; [exact Hq|].
  intros Hc Hfresh [r Hrow] Hsent.
  assert (Hok : forall x, store_ok env x = true)
    by (intros x; by apply store_ok_never).
  subst w'. destruct (recover_task env cfg cutoffTime t w) as [u wf] eqn:Hrun.
  simpl in *. unfold recover_task in Hrun.
  rewrite (proj2 (Z.ltb_ge _ _) Hfresh) in Hrun.
  apply String.eqb_neq in Hne. rewrite Hne in Hrun. simpl negb in Hrun.
  cbv iota in Hrun.
  unfold bind at 1 in Hrun.
  destruct (ResetTaskToPending env (Task.ID t) w) as [e1 w1] eqn:H1.
  unfold ResetTaskToPending in H1.
  eapply update_task_spec in H1; [|done|apply Hok|exact Hrow].
  destruct H1 as (-> & Hr1 & _ & Hl1 & _ & _).
  unfold bind at 1 in Hrun.
  destruct (UpdateTaskStatus env (Task.ID t) StatusProcessing None w1)
    as [e2 w2] eqn:H2.
  eapply UpdateTaskStatus_spec in H2; [|apply Hok|exact Hr1].
  destruct H2 as (-> & (r2 & Hr2 & _ & _ & _) & _ & Hl2 & _ & _).
  unfold bind at 1 in Hrun.
  destruct (sendTaskNotification env (Task.SummaryContent t) (Task.ChatID t) w2)
    as [[sent sendErr] w3] eqn:H3.
  apply (sendTaskNotification_spec _ _ _ _ _ _ _ Hc) in H3.
  destruct H3 as (-> & Ht3 & _ & notes & Hl3 & Hall & Hs & Hf).
  rewrite <- (row_of_tasks w2 w3 _ Ht3) in Hr2.
  destruct sent.
  - unfold bind at 1 in Hrun. unfold bind at 1 in Hrun.
    destruct (ClearSummaryContent env (Task.ID t) w3) as [e4 w4] eqn:H4.
    unfold ClearSummaryContent in H4.
    eapply update_task_spec in H4; [|done|apply Hok|exact Hr2].
    destruct H4 as (-> & Hr4 & _ & _ & _ & _).
    unfold ret at 1 in Hrun. unfold bind at 1 in Hrun.
    destruct (MarkTaskCompleted env (Task.ID t) w4) as [e5 w5] eqn:H5.
    unfold MarkTaskCompleted in H5.
    eapply UpdateTaskStatus_spec in H5; [|apply Hok|exact Hr4].
    destruct H5 as (_ & (r5 & Hr5 & Hst & Hsc & _) & _).
    injection Hrun as _ <-. exists r5. by split.
  - unfold bind at 1 in Hrun. unfold ret at 1 in Hrun.
    unfold bind at 1 in Hrun.
    destruct (MarkTaskCompleted env (Task.ID t) w3) as [e5 w5] eqn:H5.
    unfold MarkTaskCompleted in H5.
    eapply UpdateTaskStatus_spec in H5; [|apply Hok|exact Hr2].
    destruct H5 as (_ & _ & _ & Hl5 & _ & _).
    injection Hrun as _ <-.
    rewrite Hl5, Hl3, Hl2, Hl1, (Hf eq_refl), <- !app_assoc in Hlog.
    apply app_inv_head in Hlog. subst new. simpl in Hsent.
    exfalso. repeat (destruct Hsent as [Hsent|Hsent]; [discriminate|]). done.
Qed.



End RecoveryClaims.


Module DeliveryClaims.
Import GoString Ent Scheduler SchedSpec SchedulerFacts.

(** The notifier fails twice: the task still ends completed and keeps its
    summary. *)
Example delivery_fails_twice :
  let w' := (run_task (env0 None (fun _ => false) true) cfg0
               (task0 StatusPending "") (world0 StatusPending "")).2 in
  option_map Task.Status (row_of w' 1) = Some StatusCompleted /\
  option_map (fun r => String.eqb (Task.SummaryContent r) "") (row_of w' 1)
  = Some false /\
  List.filter (fun ev => match ev with EvNotify _ _ _ => true | _ => false end)
              (log w')
  = repeat (EvNotify (-5)
              (Summarizer.FormatSummaryForDisplay (Some result0) (-5)
                 "2025-02-10" "2025-02-10") false) 2.
Proof. vm_compute. repeat split; reflexivity. Qed.



End DeliveryClaims.

Module CancelClaims.
Import GoString Ent Scheduler SchedSpec SchedulerFacts.

Lemma store_ok_clock env w w' : clock w' = clock w -> store_ok env w' = store_ok env w.
Proof. unfold store_ok, ctx_done. by intros ->. Qed.

Lemma status_row w id st :
  option_map Task.Status (row_of w id) = Some st ->
  exists r, row_of w id = Some r /\ Task.Status r = st.
Proof.
  destruct (row_of w id) as [r|]; [|done]. simpl. intros [= <-]. by exists r.
Qed.

(** A cancel signal that arrives while the phase sleeps between two
    attempts is reported; with a store that honours the context the row
    then stays [processing]. *)
Example cancel_during_sleep_store_honours :
  let w' := (run_task (env0 (Some 3%nat) (fun _ => false) true) cfg0
               (task0 StatusPending "") (world0 StatusPending "")).2 in
  option_map Task.Status (row_of w' 1) = Some StatusProcessing /\
  last (log w')
  = Some (EvTaskWrite 1 (OpStatus StatusFailed (Some ErrCancelled)) false).
Proof. vm_compute. split; reflexivity. Qed.




End CancelClaims.

(** ** More on the merger: the algebra of [mergeMessageIDs], and what
    [mergeTopics] keeps on arbitrary input *)

Module KeepFirstFacts.
Import LLM MergeSpec MergerFacts.

Lemma keep_first_ext D D' l :
  (forall x, x ∈ D <-> x ∈ D') -> keep_first D l = keep_first D' l.
Proof.
  revert D D'. induction l as [|y l IH]; intros D D' HD; simpl; [done|].
  destruct (decide (y ∈ D)) as [Hy|Hy].
  - rewrite decide_True by (by apply HD). by apply IH.
  - rewrite decide_False by (by rewrite <- HD). f_equal. apply IH.
    intros x. rewrite !elem_of_cons, HD. done.
Qed.

Lemma keep_first_app D l1 l2 :
  keep_first D (l1 ++ l2) = keep_first D l1 ++ keep_first (l1 ++ D) l2.
Proof.
  revert D. induction l1 as [|y l1 IH]; intros D; simpl; [done|].
  destruct (decide (y ∈ D)) as [Hy|Hy].
  - rewrite IH. f_equal. apply keep_first_ext.
    intros x. rewrite elem_of_cons, !elem_of_app. naive_solver.
  - rewrite IH. simpl. do 2 f_equal. apply keep_first_ext.
    intros x. rewrite elem_of_cons, !elem_of_app, elem_of_cons. naive_solver.
Qed.

Lemma keep_first_keep_first D D' l :
  keep_first D (keep_first D' l) = keep_first (D ++ D') l.
Proof.
  revert D D'. induction l as [|y l IH]; intros D D'; simpl; [done|].
  destruct (decide (y ∈ D')) as [Hy|Hy].
  - rewrite decide_True by (apply elem_of_app; by right). apply IH.
  - simpl. destruct (decide (y ∈ D)) as [Hy'|Hy'].
    + rewrite decide_True by (apply elem_of_app; by left).
      rewrite IH. apply keep_first_ext.
      intros x. rewrite !elem_of_app, elem_of_cons. naive_solver.
    + rewrite decide_False by (rewrite elem_of_app; naive_solver).
      f_equal. rewrite IH. apply keep_first_ext.
      intros x. rewrite !elem_of_cons, !elem_of_app, !elem_of_cons. naive_solver.
Qed.

Lemma mergeMessageIDs_keep_first a b :
  mergeMessageIDs a b = keep_first [] (a ++ b).
Proof.
  rewrite mergeMessageIDs_spec, keep_first_app. f_equal.
  apply keep_first_ext. intros x. by rewrite app_nil_r.
Qed.

Lemma keep_first_absorb_l x c :
  keep_first [] (keep_first [] x ++ c) = keep_first [] (x ++ c).
Proof.
  rewrite !keep_first_app, keep_first_keep_first. f_equal.
  apply keep_first_ext. intros y.
  rewrite !elem_of_app, elem_of_keep_first, elem_of_nil. naive_solver.
Qed.

Lemma keep_first_absorb_r a y :
  keep_first [] (a ++ keep_first [] y) = keep_first [] (a ++ y).
Proof.
  rewrite !keep_first_app, keep_first_keep_first. f_equal.
  apply keep_first_ext. intros z. by rewrite app_nil_r.
Qed.

Lemma keep_first_present l d :
  (forall x, x ∈ d -> x ∈ l) -> keep_first [] (l ++ d) = keep_first [] l.
Proof.
  intros Hd. rewrite keep_first_app.
  assert (keep_first (l ++ []) d = []) as ->; [|by rewrite app_nil_r].
  induction d as [|y d IH]; simpl; [done|].
  rewrite decide_True.
  - apply IH. intros x Hx. apply Hd. by apply list_elem_of_further.
  - rewrite app_nil_r. apply Hd, list_elem_of_here.
Qed.

End KeepFirstFacts.

Module MergerAlgebra.
Import LLM KeyedMerge KeyedMergeFacts MergeSpec MergerFacts KeepFirstFacts MergeRefs.

(** X1: [mergeMessageIDs a b], for any two lists: every id of [a] or [b]
    exactly once, in the order of first occurrence in [a] followed by [b]. *)
Theorem mergeMessageIDs_union (a b : list Z) :
  NoDup (mergeMessageIDs a b) /\
  (forall x, x ∈ mergeMessageIDs a b <-> x ∈ a \/ x ∈ b) /\
  mergeMessageIDs a b = keep_first [] (a ++ b).
Proof.
  split; [apply NoDup_mergeMessageIDs|].
  split; [apply elem_of_mergeMessageIDs|].
  apply mergeMessageIDs_keep_first.
Qed.

(** X2: Merging id lists is associative, and merging in ids that are already
    there changes nothing: a partial result can be merged in chunk after
    chunk, or twice, with the same outcome. *)
Theorem mergeMessageIDs_assoc (a b c : list Z) :
  mergeMessageIDs (mergeMessageIDs a b) c
  = mergeMessageIDs a (mergeMessageIDs b c) /\
  mergeMessageIDs (mergeMessageIDs a b) b = mergeMessageIDs a b /\
  mergeMessageIDs (mergeMessageIDs a b) a = mergeMessageIDs a b.
Proof.
  rewrite !mergeMessageIDs_keep_first. split; [|split].
  - by rewrite keep_first_absorb_l, keep_first_absorb_r, app_assoc.
  - rewrite keep_first_absorb_l. apply keep_first_present.
    intros x Hx. apply elem_of_app. by right.
  - rewrite keep_first_absorb_l. apply keep_first_present.
    intros x Hx. apply elem_of_app. by left.
Qed.

(** What a keyed merge holds, without any assumption on the keys. *)
Section Content.
Context {A X : Type} (key : A -> string) (combine : A -> A -> A).
Context (Q : A -> X -> Prop).
Hypothesis combine_key : forall o n, key o = key n -> key (combine o n) = key n.
Hypothesis combine_Q :
  forall o n x, key o = key n -> Q (combine o n) x <-> Q o x \/ Q n x.

Lemma keyed_step_holds (m : gmap string nat) st n k x :
  (forall k' i, m !! k' = Some i -> exists c, st !! i = Some c /\ key c = k') ->
  (forall k' i, m !! k' = Some i ->
     exists c, keyed_step key combine m st n !! i = Some c /\ key c = k') /\
  (holds key Q (keyed_step key combine m st n) k x
   <-> holds key Q st k x \/ (key n = k /\ Q n x)).
Proof.
  intros Hinv. unfold keyed_step.
  destruct (m !! key n) as [idx|] eqn:Hm.
  - destruct (Hinv _ _ Hm) as (cur & Hcur & Hkc). rewrite Hcur.
    assert (Hlt : (idx < length st)%nat) by by eapply lookup_lt_Some.
    split.
    + intros k' i Hi. destruct (Hinv _ _ Hi) as (c & Hc & Hk).
      destruct (decide (i = idx)) as [->|Hne].
      * exists (combine cur n). rewrite list_lookup_insert_eq by done.
        split; [done|]. rewrite combine_key by done. congruence.
      * exists c. by rewrite list_lookup_insert_ne.
    + unfold holds. split.
      * intros (a & Ha & Hk & Hq).
        apply list_elem_of_lookup in Ha as [j Hj].
        destruct (decide (j = idx)) as [->|Hne].
        -- rewrite list_lookup_insert_eq in Hj by done.
           injection Hj as <-. rewrite combine_key in Hk by done.
           apply (combine_Q _ _ _ Hkc) in Hq as [Hq|Hq]; [|by right].
           left. exists cur. split; [by eapply list_elem_of_lookup_2|].
           split; [congruence|done].
        -- rewrite list_lookup_insert_ne in Hj by done.
           left. exists a. split; [by eapply list_elem_of_lookup_2|done].
      * intros [(a & Ha & Hk & Hq)|[Hk Hq]].
        -- apply list_elem_of_lookup in Ha as [j Hj].
           destruct (decide (j = idx)) as [->|Hne].
           ++ assert (a = cur) as -> by congruence.
              exists (combine cur n). split.
              ** eapply list_elem_of_lookup_2.
                 by rewrite list_lookup_insert_eq.
              ** rewrite combine_key by done. split; [congruence|].
                 apply combine_Q; [done|by left].
           ++ exists a. split; [|done]. eapply list_elem_of_lookup_2.
              by rewrite list_lookup_insert_ne.
        -- exists (combine cur n). split.
           ++ eapply list_elem_of_lookup_2. by rewrite list_lookup_insert_eq.
           ++ rewrite combine_key by done. split; [done|].
              apply combine_Q; [done|by right].
  - split.
    + intros k' i Hi. destruct (Hinv _ _ Hi) as (c & Hc & Hk).
      exists c. split; [|done]. by apply lookup_app_l_Some.
    + unfold holds. split.
      * intros (a & Ha & Hk & Hq). apply elem_of_app in Ha as [Ha|Ha].
        -- left. by exists a.
        -- apply list_elem_of_singleton in Ha as ->. by right.
      * intros [(a & Ha & Hk & Hq)|[Hk Hq]].
        -- exists a. split; [|done]. apply elem_of_app. by left.
        -- exists n. split; [|done]. apply elem_of_app. right.
           by apply list_elem_of_singleton.
Qed.

Lemma keyed_fold_holds_from (m : gmap string nat) news st k x :
  (forall k' i, m !! k' = Some i -> exists c, st !! i = Some c /\ key c = k') ->
  holds key Q (fold_left (keyed_step key combine m) news st) k x
  <-> holds key Q st k x \/ holds key Q news k x.
Proof.
  revert st. induction news as [|n news IH]; intros st Hinv; simpl.
  - unfold holds at 3. setoid_rewrite elem_of_nil. naive_solver.
  - destruct (keyed_step_holds m st n k x Hinv) as [Hinv' Hstep].
    rewrite (IH _ Hinv'), Hstep. unfold holds at 4.
    setoid_rewrite elem_of_cons. unfold holds. naive_solver.
Qed.

Lemma keyed_fold_holds olds news k x :
  holds key Q (fold_left (keyed_step key combine (index_map key olds)) news olds)
        k x
  <-> holds key Q olds k x \/ holds key Q news k x.
Proof.
  apply keyed_fold_holds_from. intros k' i Hi.
  by apply (index_map_Some key) in Hi.
Qed.

End Content.

Lemma mergeTopicItems_holds old new s x :
  holds sender_name (fun it y => y ∈ message_ids it)
        (items (mergeTopicItems old new)) s x
  <-> holds sender_name (fun it y => y ∈ message_ids it) (items old) s x
      \/ holds sender_name (fun it y => y ∈ message_ids it) (items new) s x.
Proof.
  unfold mergeTopicItems. simpl.
  change (merge_item (index_map sender_name (items old)))
    with (keyed_step sender_name combine_item (index_map sender_name (items old))).
  apply keyed_fold_holds.
  - done.
  - intros o n y _. simpl. apply elem_of_mergeMessageIDs.
Qed.

Lemma refers_holds ts t s x :
  refers ts t s x
  <-> holds title
        (fun tp (sx : string * Z) =>
           holds sender_name (fun it y => y ∈ message_ids it)
                 (items tp) sx.1 sx.2)
        ts t (s, x).
Proof. unfold refers, holds. simpl. naive_solver. Qed.

(** X3: [mergeTopics] on any two results, duplicated titles and senders
    included, neither loses nor invents a reference: a message is listed
    for a sender under a title in the output exactly when it is in one of
    the inputs. *)
Theorem mergeTopics_references (acc p : topicsSummaryJSON) :
  exists out,
    mergeTopics (Some acc) (Some p) = Some out /\
    forall t s x,
      refers (topics out) t s x
      <-> refers (topics acc) t s x \/ refers (topics p) t s x.
Proof.
  exists {| topics := fold_left (merge_topic (index_map title (topics acc)))
                                (topics p) (topics acc) |}.
  split; [done|]. intros t s x. simpl. rewrite !refers_holds.
  change (merge_topic (index_map title (topics acc)))
    with (keyed_step title mergeTopicItems (index_map title (topics acc))).
  apply keyed_fold_holds.
  - done.
  - intros o n [s' x'] _. simpl. apply mergeTopicItems_holds.
Qed.

End MergerAlgebra.

(** ** More on the chunker: greediness, and the two extreme budgets *)

Module ChunkerGreedyFacts.
Import GoString LLM EstimatorFacts ChunkSpec ChunkerFacts ChunkGreedy.

Lemma tight_list_snoc k l c' :
  tight_list k l ->
  (forall c1 m, l !! pred (length l) = Some c1 -> head c' = Some m ->
                k < chunkTokens c1 + estimateTokens (line m)) ->
  tight_list k (l ++ [c']).
Proof.
  intros Hl Hlast i c1 c2 m H1 H2 Hh.
  apply lookup_app_Some in H2 as [H2|[Hlen H2]].
  - apply (Hl i c1 c2 m); [|done|done].
    apply lookup_app_Some in H1 as [H1|[Hlen _]]; [done|].
    apply lookup_lt_Some in H2. lia.
  - apply list_lookup_singleton_Some in H2 as [Hi ->].
    assert (S i = length l) as Hi' by lia.
    apply lookup_app_Some in H1 as [H1|[Hlen' _]]; [|lia].
    apply (Hlast c1 m); [|done]. by rewrite <- Hi'.
Qed.

Lemma tight_list_extend k chunks cur m :
  tight_list k (chunks ++ [cur]) -> (cur = [] -> chunks = []) ->
  tight_list k (chunks ++ [cur ++ [m]]).
Proof.
  intros Hl Hcur i c1 c2 m' H1 H2 Hh.
  apply lookup_app_Some in H2 as [H2|[Hlen H2]].
  - apply (Hl i c1 c2 m').
    + apply lookup_app_Some in H1 as [H1|[Hlen _]].
      * by apply lookup_app_l_Some.
      * apply lookup_lt_Some in H2. lia.
    + by apply lookup_app_l_Some.
    + done.
  - apply list_lookup_singleton_Some in H2 as [Hi <-].
    assert (S i = length chunks) as Hi' by lia.
    apply lookup_app_Some in H1 as [H1|[Hlen' _]]; [|lia].
    destruct cur as [|m0 cur].
    { rewrite Hcur in Hi' by done. simpl in Hi'. lia. }
    apply (Hl i c1 (m0 :: cur) m').
    + by apply lookup_app_l_Some.
    + rewrite lookup_app_r by lia.
      replace (S i - length chunks)%nat with 0%nat by lia. done.
    + done.
Qed.

Lemma greedy_step k st m : greedy_inv k st -> greedy_inv k (split_step k st m).
Proof.
  destruct st as [[chunks current] tokens].
  unfold greedy_inv, split_step. intros (-> & Ht & Hcur).
  destruct ((chunkTokens current + estimateTokens (line m) >? k)
            && (0 <? Z.of_nat (List.length current))) eqn:Hcond.
  - apply andb_prop in Hcond as [Hgt Hlen]. apply Z.ltb_lt in Hlen.
    rewrite Z.gtb_ltb in Hgt. apply Z.ltb_lt in Hgt.
    split_and!.
    + rewrite chunkTokens_app. reflexivity.
    + simpl. apply tight_list_snoc; [done|].
      intros c1 m' H1 Hh. rewrite length_app in H1. simpl in H1.
      rewrite lookup_app_r in H1 by lia.
      replace (pred (length chunks + 1) - length chunks)%nat with 0%nat in H1
        by lia.
      simpl in H1, Hh. congruence.
    + done.
  - split_and!.
    + by rewrite chunkTokens_app.
    + by apply tight_list_extend.
    + intros Hnil. by apply app_eq_nil in Hnil as [_ ?].
Qed.

Lemma greedy_fold k msgs st :
  greedy_inv k st -> greedy_inv k (fold_left (split_step k) msgs st).
Proof.
  revert st. induction msgs as [|m msgs IH]; intros st Hinv; simpl; [done|].
  apply IH. by apply greedy_step.
Qed.

Lemma split_tight msgs k : tight_list k (splitMessagesIntoChunks msgs k).
Proof.
  unfold splitMessagesIntoChunks.
  destruct msgs as [|m0 msgs].
  { intros i c1 c2 m H1. by rewrite lookup_nil in H1. }
  pose proof (greedy_fold k (m0 :: msgs) ([], [], 0)) as Hinv.
  destruct (fold_left (split_step k) (m0 :: msgs) ([], [], 0))
    as [[chunks current] tokens].
  destruct Hinv as (_ & Ht & Hcur).
  { split_and!; [done| |done].
    intros i c1 c2 m H1 H2. destruct i; simpl in H2; by rewrite ?lookup_nil in H2. }
  destruct current as [|c0 current]; simpl; [|done].
  rewrite Hcur by done.
  intros i c1 c2 m H1. by rewrite lookup_nil in H1.
Qed.

Lemma chunkTokens_nonneg c : 0 <= chunkTokens c.
Proof.
  unfold chunkTokens. induction c as [|m c IH]; simpl; [lia|].
  pose proof (estimateTokens_nonneg (line m)). lia.
Qed.

Lemma chunkTokens_concat c1 c2 :
  chunkTokens (c1 ++ c2) = chunkTokens c1 + chunkTokens c2.
Proof.
  unfold chunkTokens. induction c1 as [|m c1 IH]; simpl; [lia|].
  rewrite IH. lia.
Qed.

Lemma chunkTokens_cons m c :
  chunkTokens (m :: c) = estimateTokens (line m) + chunkTokens c.
Proof. reflexivity. Qed.

(** Every rendered line counts for at least one token: it has at least the
    four bytes of its brackets. *)
Lemma line_tokens_pos m : 1 <= estimateTokens (line m).
Proof.
  pose proof (estimateTokens_floor (line m)) as Hf.
  assert (4 <= len (line m)); [|assert (1 <= len (line m) / 4)
    by (apply Z.div_le_lower_bound; lia); lia].
  unfold line. rewrite !len_app.
  pose proof (len_nonneg (SenderName m)). pose proof (len_nonneg (Text m)).
  pose proof (len_nonneg (itoa (MessageID m))).
  change (len "[") with 1. change (len "|") with 1. change (len "] ") with 2.
  lia.
Qed.

Lemma Join_cons_len x rest sep : len x <= len (Join (x :: rest) sep).
Proof.
  destruct rest as [|y rest]; [simpl; lia|].
  change (Join (x :: y :: rest) sep) with (x +:+ sep +:+ Join (y :: rest) sep).
  rewrite !len_app. pose proof (len_nonneg sep).
  pose proof (len_nonneg (Join (y :: rest) sep)). lia.
Qed.

Lemma prompt_tokens_pos m msgs :
  1 <= estimateTokens (messagesToPromptText (m :: msgs)).
Proof.
  pose proof (estimateTokens_floor (messagesToPromptText (m :: msgs))) as Hf.
  assert (4 <= len (messagesToPromptText (m :: msgs)));
    [|assert (1 <= len (messagesToPromptText (m :: msgs)) / 4)
        by (apply Z.div_le_lower_bound; lia); lia].
  unfold messagesToPromptText. simpl map.
  pose proof (Join_cons_len (line m) (map line msgs) newline).
  assert (4 <= len (line m)); [|lia].
  unfold line. rewrite !len_app.
  pose proof (len_nonneg (SenderName m)). pose proof (len_nonneg (Text m)).
  pose proof (len_nonneg (itoa (MessageID m))).
  change (len "[") with 1. change (len "|") with 1. change (len "] ") with 2.
  lia.
Qed.

Lemma singletons_concat (l : list (list ChatMessage)) :
  Forall (fun c => length c = 1%nat) l -> l = map (fun m => [m]) (concat l).
Proof.
  induction 1 as [|c l Hc _ IH]; [done|].
  destruct c as [|m [|? ?]]; try done. simpl. by rewrite <- IH.
Qed.

Lemma split_singletons msgs k :
  (forall m, m ∈ msgs -> k < estimateTokens (line m)) ->
  splitMessagesIntoChunks msgs k = map (fun m => [m]) msgs.
Proof.
  intros Hbig. destruct (split_spec msgs k) as (Hcat & Hok & Hne).
  rewrite <- Hcat at 2. apply singletons_concat.
  apply Forall_forall. intros c Hc.
  rewrite Forall_forall in Hok, Hne.
  destruct (Hok c Hc) as [Hle|Hone]; [|done].
  destruct c as [|m c]; [by destruct (Hne [] Hc)|].
  exfalso. rewrite chunkTokens_cons in Hle.
  pose proof (chunkTokens_nonneg c).
  assert (m ∈ msgs) as Hm.
  { rewrite <- Hcat. apply list_elem_of_In, in_concat. exists (m :: c).
    split; [by apply list_elem_of_In|by left]. }
  specialize (Hbig m Hm). lia.
Qed.

End ChunkerGreedyFacts.

Module ChunkerBounds.
Import GoString LLM EstimatorFacts ChunkSpec ChunkerFacts ChunkGreedy.
Import ChunkerGreedyFacts BudgetSpec.

(** X4: The chunker is greedy: a chunk is closed only when the next message
    would not fit, so the running count of a chunk plus the estimate of
    the first message of the next chunk always exceeds the limit. *)
Theorem split_greedy (msgs : list ChatMessage) (k : Z) (i : nat)
    (c1 c2 : list ChatMessage) (m : ChatMessage) :
  splitMessagesIntoChunks msgs k !! i = Some c1 ->
  splitMessagesIntoChunks msgs k !! S i = Some c2 ->
  head c2 = Some m ->
  k < chunkTokens c1 + estimateTokens (line m).
Proof. apply split_tight. Qed.

Lemma split_greedy_witness :
  let msgs := [msg 1 "A" "x"; msg 2 "A" "y"; msg 3 "B" "z"] in
  splitMessagesIntoChunks msgs 4 !! 0%nat = Some [msg 1 "A" "x"; msg 2 "A" "y"] /\
  4 < chunkTokens [msg 1 "A" "x"; msg 2 "A" "y"]
      + estimateTokens (line (msg 3 "B" "z")).
Proof.
  split; [reflexivity|].
  apply (split_greedy [msg 1 "A" "x"; msg 2 "A" "y"; msg 3 "B" "z"] 4 0
           [msg 1 "A" "x"; msg 2 "A" "y"] [msg 3 "B" "z"] (msg 3 "B" "z"));
    reflexivity.
Defined.

(** X5: Messages whose estimates add up to no more than the limit are kept
    together: the result is the one chunk that holds them all. *)
Theorem split_fits (msgs : list ChatMessage) (k : Z) :
  msgs <> [] -> chunkTokens msgs <= k ->
  splitMessagesIntoChunks msgs k = [msgs].
Proof.
  intros Hne Hfit.
  destruct (split_spec msgs k) as (Hcat & _ & Hnn).
  pose proof (split_tight msgs k) as Ht.
  destruct (splitMessagesIntoChunks msgs k) as [|c1 [|c2 rest]].
  - by simpl in Hcat.
  - simpl in Hcat. rewrite app_nil_r in Hcat. by subst.
  - exfalso. destruct c2 as [|m c2].
    { apply Forall_cons in Hnn as [_ Hnn]. by apply Forall_cons in Hnn as [? _]. }
    specialize (Ht 0%nat c1 (m :: c2) m eq_refl eq_refl eq_refl).
    rewrite <- Hcat in Hfit.
    change (concat (c1 :: (m :: c2) :: rest))
      with (c1 ++ (m :: c2) ++ concat rest) in Hfit.
    rewrite !chunkTokens_concat, chunkTokens_cons in Hfit.
    pose proof (chunkTokens_nonneg c2). pose proof (chunkTokens_nonneg (concat rest)).
    lia.
Qed.

Lemma split_fits_witness :
  let msgs := [msg 1 "A" "x"; msg 2 "A" "y"] in
  msgs <> [] /\ chunkTokens msgs <= 4 /\ splitMessagesIntoChunks msgs 4 = [msgs].
Proof.
  assert (H1 : [msg 1 "A" "x"; msg 2 "A" "y"] <> []) by done.
  assert (H2 : chunkTokens [msg 1 "A" "x"; msg 2 "A" "y"] <= 4)
    by (vm_compute; discriminate).
  split; [exact H1|]. split; [exact H2|].
  exact (split_fits [msg 1 "A" "x"; msg 2 "A" "y"] 4 H1 H2).
Defined.

(** X6: A context window of at most 2000 tokens leaves no input budget:
    [SummarizeChat] then never sends the conversation in one request but
    sends every message in a request of its own. *)
Theorem small_window_one_message_per_request (cfg : LLMConfig)
    (once : string -> string -> option string)
    (unmarshal : string -> option topicsSummaryJSON)
    (marshal : option topicsSummaryJSON -> string)
    (m : ChatMessage) (msgs : list ChatMessage) :
  0 < MaxTokens cfg <= 2000 ->
  maxInputTokens (NewClient cfg) <= 0 /\
  splitMessagesIntoChunks (m :: msgs) (maxInputTokens (NewClient cfg))
  = map (fun x => [x]) (m :: msgs) /\
  SummarizeChat (NewClient cfg) once unmarshal marshal (m :: msgs)
  = match summarize_chunks once unmarshal 0
            (map (fun x => [x]) (m :: msgs)) None with
    | inl e => inl e
    | inr accumulated => inr (marshal accumulated)
    end.
Proof.
  intros Hmax.
  assert (Hk : maxInputTokens (NewClient cfg) = MaxTokens cfg - 2000).
  { unfold NewClient. simpl. unfold wrap_int.
    rewrite Z.mod_small by lia. lia. }
  assert (Hsplit : splitMessagesIntoChunks (m :: msgs) (maxInputTokens (NewClient cfg))
                   = map (fun x => [x]) (m :: msgs)).
  { apply split_singletons. intros x _. pose proof (line_tokens_pos x). lia. }
  split; [lia|]. split; [exact Hsplit|].
  unfold SummarizeChat.
  pose proof (prompt_tokens_pos m msgs) as Hpos.
  destruct (estimateTokens (messagesToPromptText (m :: msgs))
            <=? maxInputTokens (NewClient cfg)) eqn:Hle.
  - apply Z.leb_le in Hle. lia.
  - by rewrite Hsplit.
Qed.

Lemma small_window_one_message_per_request_witness :
  0 < MaxTokens (cfg_with 1500) <= 2000 /\
  splitMessagesIntoChunks [msg 1 "A" "x"; msg 2 "A" "y"]
    (maxInputTokens (NewClient (cfg_with 1500)))
  = [[msg 1 "A" "x"]; [msg 2 "A" "y"]].
Proof.
  assert (H : 0 < MaxTokens (cfg_with 1500) <= 2000) by (simpl; lia).
  split; [exact H|].
  exact (proj1 (proj2 (small_window_one_message_per_request (cfg_with 1500)
                         (fun _ _ => None) (fun _ => None) (fun _ => "")
                         (msg 1 "A" "x") [msg 2 "A" "y"] H))).
Defined.

End ChunkerBounds.

(** ** More on the formatter: [escapeHTML] as a code, links, empty output *)

Module EscapeFacts.
Import GoString Summarizer FormatSpec EstimatorFacts FormatFacts EscapeSpec.

Lemma escape_bytes_app s t :
  escape_bytes (s +:+ t) = escape_bytes s +:+ escape_bytes t.
Proof.
  induction s as [|a s IH]; [reflexivity|].
  rewrite app_cons_s. simpl escape_bytes. by rewrite IH, app_assoc_s.
Qed.

Lemma escape_byte_cases a :
  (a = "&"%char /\ escape_byte a = "&amp;") \/
  (a = "<"%char /\ escape_byte a = "&lt;") \/
  (a = ">"%char /\ escape_byte a = "&gt;") \/
  (a = ascii_of_nat 34 /\ escape_byte a = "&quot;") \/
  (a <> "&"%char /\ a <> "<"%char /\ a <> ">"%char /\ a <> ascii_of_nat 34 /\
   escape_byte a = String a "").
Proof.
  unfold escape_byte.
  destruct (Ascii.eqb_spec a "&"); [by left|].
  destruct (Ascii.eqb_spec a "<"); [right; by left|].
  destruct (Ascii.eqb_spec a ">"); [right; right; by left|].
  destruct (Ascii.eqb_spec a (ascii_of_nat 34)); [right; right; right; by left|].
  by repeat right.
Qed.

(** The four entities and the bytes left alone form a prefix code. *)
Lemma escape_byte_prefix_code a b s t :
  escape_byte a +:+ s = escape_byte b +:+ t -> a = b /\ s = t.
Proof.
  destruct (escape_byte_cases a) as [[-> ->]|[[-> ->]|[[-> ->]|[[-> ->]|Ha]]]];
  destruct (escape_byte_cases b) as [[-> ->]|[[-> ->]|[[-> ->]|[[-> ->]|Hb]]]];
  try destruct Ha as (? & ? & ? & ? & ->);
  try destruct Hb as (? & ? & ? & ? & ->);
  rewrite ?app_cons_s, ?app_nil_s; intros Heq;
  try discriminate Heq; try (split; congruence);
  injection Heq as Heq1 Heq2; try congruence; by subst.
Qed.

Lemma escape_bytes_inj s t : escape_bytes s = escape_bytes t -> s = t.
Proof.
  revert t. induction s as [|a s IH]; intros [|b t]; simpl.
  - done.
  - destruct (escape_byte_cases b) as [[-> ->]|[[-> ->]|[[-> ->]|[[-> ->]|Hb]]]];
      try destruct Hb as (? & ? & ? & ? & ->); rewrite ?app_cons_s; discriminate.
  - destruct (escape_byte_cases a) as [[-> ->]|[[-> ->]|[[-> ->]|[[-> ->]|Ha]]]];
      try destruct Ha as (? & ? & ? & ? & ->); rewrite ?app_cons_s; discriminate.
  - intros Heq. apply escape_byte_prefix_code in Heq as [-> Heq].
    f_equal. by apply IH.
Qed.

Lemma escape_bytes_length s :
  (String.length s <= String.length (escape_bytes s))%nat.
Proof.
  induction s as [|a s IH]; simpl; [lia|].
  destruct (escape_byte_cases a) as [[-> ->]|[[-> ->]|[[-> ->]|[[-> ->]|Ha]]]];
    try destruct Ha as (? & ? & ? & ? & ->);
    rewrite ?app_cons_s, ?app_nil_s; simpl; lia.
Qed.

Lemma safe_text_cons a s :
  safe_text (String a s) = true
  <-> (a <> "&"%char /\ a <> "<"%char /\ a <> ">"%char /\ a <> ascii_of_nat 34)
      /\ safe_text s = true.
Proof.
  unfold safe_text. simpl free_of.
  rewrite !andb_true_iff, !negb_true_iff.
  destruct (Ascii.eqb_spec a "&"), (Ascii.eqb_spec a "<"),
    (Ascii.eqb_spec a ">"), (Ascii.eqb_spec a (ascii_of_nat 34));
    naive_solver.
Qed.

Lemma escape_bytes_fixed s : escape_bytes s = s <-> safe_text s = true.
Proof.
  induction s as [|a s IH]; [done|].
  rewrite safe_text_cons, <- IH. simpl escape_bytes.
  destruct (escape_byte_cases a) as [[-> ->]|[[-> ->]|[[-> ->]|[[-> ->]|Ha]]]].
  - rewrite !app_cons_s, app_nil_s. split; [|naive_solver].
    intros Heq. injection Heq as Heq. exfalso.
    pose proof (escape_bytes_length s) as Hlen. rewrite <- Heq in Hlen at 1.
    simpl in Hlen. lia.
  - rewrite !app_cons_s. split; [discriminate|naive_solver].
  - rewrite !app_cons_s. split; [discriminate|naive_solver].
  - rewrite !app_cons_s. split; [discriminate|naive_solver].
  - destruct Ha as (? & ? & ? & ? & ->). rewrite app_cons_s, app_nil_s.
    split; [intros [= ->]; naive_solver|intros [_ ->]; done].
Qed.

Lemma safe_text_app s t :
  safe_text (s +:+ t) = safe_text s && safe_text t.
Proof.
  unfold safe_text. rewrite !free_of_app.
  destruct (free_of "&" s), (free_of "<" s), (free_of ">" s),
    (free_of (ascii_of_nat 34) s); simpl; try reflexivity;
  destruct (free_of "&" t), (free_of "<" t), (free_of ">" t); reflexivity.
Qed.

Lemma safe_text_uint d : safe_text (NilEmpty.string_of_uint d) = true.
Proof. induction d; simpl; try done. Qed.

Lemma safe_text_itoa z : safe_text (itoa z) = true.
Proof.
  unfold itoa. destruct (Z.to_int z) as [d|d]; simpl.
  - destruct d; simpl; try done; apply safe_text_uint.
  - destruct d; simpl; try done; apply safe_text_uint.
Qed.

End EscapeFacts.

Module EscapeCode.
Import GoString Summarizer FormatSpec EstimatorFacts FormatFacts.
Import EscapeSpec EscapeFacts BudgetClaims.

(** X7: [escapeHTML] loses nothing: two texts with the same escaped form are
    the same text, and the escape of a concatenation is the concatenation
    of the escapes. *)
Theorem escapeHTML_injective (s t : string) :
  (escapeHTML s = escapeHTML t -> s = t) /\
  escapeHTML (s +:+ t) = escapeHTML s +:+ escapeHTML t /\
  len s <= len (escapeHTML s).
Proof.
  rewrite !escapeHTML_bytes. split; [apply escape_bytes_inj|].
  split; [apply escape_bytes_app|].
  unfold len. pose proof (escape_bytes_length s). lia.
Qed.

(** X8: [escapeHTML] leaves a text unchanged exactly when the text holds none
    of the four characters it replaces; on every other text a second pass differs from the
    first, since it escapes the ampersands of the entities again. *)
Theorem escapeHTML_twice (s : string) :
  (escapeHTML s = s <-> safe_text s = true) /\
  (escapeHTML (escapeHTML s) = escapeHTML s <-> safe_text s = true).
Proof.
  rewrite !escapeHTML_bytes. split; [apply escape_bytes_fixed|].
  rewrite <- escape_bytes_fixed. split.
  - apply escape_bytes_inj.
  - intros Heq. by rewrite !Heq.
Qed.

(** X9: The link of a message: none for a chat whose id is not below
    [-10^12] (not a supergroup), and otherwise the address of the message
    in channel [-chatID - 10^12]; escaping leaves the address as it is. *)
Theorem buildMessageLink_cases (chatID messageID : Z) :
  - 2 ^ 62 <= chatID <= 2 ^ 62 ->
  buildMessageLink chatID messageID
  = (if chatID <? - 1000000000000 then
       "https://t.me/c/" +:+ itoa (- chatID - 1000000000000) +:+ "/"
       +:+ itoa messageID
     else "") /\
  (buildMessageLink chatID messageID = "" <-> - 1000000000000 <= chatID) /\
  escapeHTML (buildMessageLink chatID messageID)
  = buildMessageLink chatID messageID.
Proof.
  intros Hc.
  assert (Hch : wrap_int (wrap_int (- chatID) - 1000000000000)
                = - chatID - 1000000000000).
  { rewrite (wrap_int_small (- chatID)) by lia. apply wrap_int_small. lia. }
  assert (Heq : buildMessageLink chatID messageID
                = (if chatID <? - 1000000000000 then
                     "https://t.me/c/" +:+ itoa (- chatID - 1000000000000)
                     +:+ "/" +:+ itoa messageID
                   else "")).
  { unfold buildMessageLink. rewrite Hch.
    destruct (- chatID - 1000000000000 <=? 0) eqn:Hle;
      destruct (chatID <? - 1000000000000) eqn:Hlt; try reflexivity;
      apply Z.leb_le in Hle || apply Z.leb_gt in Hle;
      apply Z.ltb_lt in Hlt || apply Z.ltb_ge in Hlt; lia. }
  split; [exact Heq|]. rewrite Heq.
  destruct (chatID <? - 1000000000000) eqn:Hlt.
  - apply Z.ltb_lt in Hlt. split.
    + rewrite !app_cons_s. split; [discriminate|lia].
    + rewrite escapeHTML_bytes. apply escape_bytes_fixed.
      rewrite !safe_text_app, !safe_text_itoa. reflexivity.
  - apply Z.ltb_ge in Hlt. split; [|reflexivity]. split; [lia|done].
Qed.

Lemma buildMessageLink_cases_witness :
  - 2 ^ 62 <= -1003634348229 <= 2 ^ 62 /\
  buildMessageLink (-1003634348229) 26829
  = "https://t.me/c/" +:+ itoa 3634348229 +:+ "/" +:+ itoa 26829.
Proof.
  assert (H : - 2 ^ 62 <= -1003634348229 <= 2 ^ 62) by lia.
  split; [exact H|].
  exact (proj1 (buildMessageLink_cases (-1003634348229) 26829 H)).
Defined.

(** X10: The formatted summary is empty exactly when there is no result or the
    result has no topic: any topic, even one without a title or an item,
    yields the header, so the scheduler's test for an empty summary only
    catches results without topics. *)
Theorem FormatSummaryForDisplay_empty (result : option SummaryResult)
    (chatID : Z) (startDate endDate : string) :
  FormatSummaryForDisplay result chatID startDate endDate = ""
  <-> result = None \/ exists r, result = Some r /\ Topics r = [].
Proof.
  unfold FormatSummaryForDisplay. destruct result as [r|].
  - destruct (Topics r) as [|t ts] eqn:Ht.
    + split; [|done]. intros _. right. by exists r.
    + split.
      * unfold header. rewrite !app_cons_s. discriminate.
      * intros [?|(r' & [= <-] & Hr')]; [done|]. congruence.
  - split; [by left|done].
Qed.

End EscapeCode.

(** ** More on the scheduler: bounded retries, what a run reports, what
    recovery leaves alone, the constraints of the task table *)

Module SchedulerBounds.
Import GoString Ent Scheduler SchedSpec SchedulerFacts SchedMore.

Lemma count_ev_app f l1 l2 : count_ev f (l1 ++ l2) = count_ev f l1 + count_ev f l2.
Proof. unfold count_ev. rewrite List.filter_app, length_app. lia. Qed.

Lemma count_ev_nonneg f l : 0 <= count_ev f l.
Proof. unfold count_ev. lia. Qed.

Lemma bounded_weaken {A} a b a' b' (c : M A) :
  a <= a' -> b <= b' -> bounded a b c -> bounded a' b' c.
Proof.
  intros Ha Hb Hc w. destruct (Hc w) as (new & Hl & H1 & H2 & H3).
  exists new. split_and!; [done|lia..].
Qed.

Lemma bounded_bind {A B} a1 b1 a2 b2 (c : M A) (k : A -> M B) :
  bounded a1 b1 c -> (forall x, bounded a2 b2 (k x)) ->
  bounded (a1 + a2) (b1 + b2) (bind c k).
Proof.
  intros Hc Hk w. destruct (Hc w) as (n1 & Hl1 & H1 & H2 & H3).
  unfold logs, bind in *.
  remember (c w) as r eqn:Hcw. destruct r as [x w1]. simpl in Hl1.
  destruct (Hk x w1) as (n2 & Hl2 & H1' & H2' & H3'). unfold logs in Hl2.
  exists (n1 ++ n2). rewrite !count_ev_app. split_and!; [|lia..].
  by rewrite Hl2, Hl1, app_assoc.
Qed.

Lemma bounded_silent {A} (c : M A) :
  (forall w, log (c w).2 = log w) -> bounded 0 0 c.
Proof.
  intros Hc w. exists []. unfold logs. rewrite Hc, app_nil_r.
  by split_and!.
Qed.

Lemma bounded_emit ev :
  bounded (if is_summarize ev || is_llm ev then 1 else 0)
          (if is_notify ev then 1 else 0) (emit ev).
Proof.
  intros w. exists [ev]. split; [done|].
  unfold count_ev. simpl. destruct ev; simpl; lia.
Qed.

Lemma bounded_bind_w {A B} a1 b1 a2 b2 a b (c : M A) (k : A -> M B) :
  a1 + a2 <= a -> b1 + b2 <= b ->
  bounded a1 b1 c -> (forall x, bounded a2 b2 (k x)) -> bounded a b (bind c k).
Proof.
  intros Ha Hb Hc Hk. apply (bounded_weaken (a1 + a2) (b1 + b2)); [done..|].
  by apply bounded_bind.
Qed.

(** A bind whose first part is silent. *)
Lemma bounded_bind_l {A B} a b (c : M A) (k : A -> M B) :
  bounded 0 0 c -> (forall x, bounded a b (k x)) -> bounded a b (bind c k).
Proof.
  intros Hc Hk. replace a with (0 + a) by lia. replace b with (0 + b) by lia.
  by apply bounded_bind.
Qed.

Lemma bounded_ret {A} (x : A) a b : 0 <= a -> 0 <= b -> bounded a b (ret x).
Proof.
  intros Ha Hb. apply (bounded_weaken 0 0); [done..|]. by apply bounded_silent.
Qed.

Lemma bounded_update_task env id op f : bounded 0 0 (update_task env id op f).
Proof.
  unfold update_task.
  apply bounded_bind_l; [by apply bounded_silent|]. intros w.
  destruct (store_ok env w); [destruct (has_task id (tasks w))|].
  - apply bounded_bind_l; [by apply bounded_silent|]. intros _.
    apply bounded_bind_l; [apply (bounded_emit (EvTaskWrite id op true))|].
    intros _. by apply bounded_silent.
  - apply bounded_bind_l; [apply (bounded_emit (EvTaskWrite id op false))|].
    intros _. by apply bounded_silent.
  - apply bounded_bind_l; [apply (bounded_emit (EvTaskWrite id op false))|].
    intros _. by apply bounded_silent.
Qed.

Lemma bounded_UpdateTaskStatus env id st e :
  bounded 0 0 (UpdateTaskStatus env id st e).
Proof.
  unfold UpdateTaskStatus.
  apply bounded_bind_l; [by apply bounded_silent|]. intros w.
  apply bounded_update_task.
Qed.

Lemma bounded_SummarizeRange env c st en :
  bounded 1 0 (SummarizeRange env c st en).
Proof.
  intros w. unfold SummarizeRange, GetByDateRangeAndChat, bind, get, emit, tick,
    ret, logs.
  simpl. destruct (store_ok env _); simpl.
  - destruct (sort_by_sent_at _) as [|m ms]; simpl.
    + exists [EvSummarizeRange c st en]. by split_and!.
    + exists [EvSummarizeRange c st en; EvLLM c].
      destruct (llm env _ _) as [e|js]; simpl;
        [|destruct (unmarshal env js)]; simpl;
        (split; [by rewrite <- app_assoc|]); by split_and!.
  - exists [EvSummarizeRange c st en]. by split_and!.
Qed.

Lemma bounded_sleep env : bounded 0 0 (sleep_or_done env).
Proof. by apply bounded_silent. Qed.

Lemma bounded_summary_loop env c st en rt remaining attempt last :
  bounded (Z.of_nat remaining) 0
          (summary_loop env c st en rt remaining attempt last).
Proof.
  revert attempt last.
  induction remaining as [|r IH]; intros attempt last.
  - simpl. by apply bounded_silent.
  - simpl summary_loop.
    apply bounded_bind_l; [by apply bounded_silent|].
    intros [|]; [apply bounded_ret; lia|].
    apply (bounded_bind_w 1 0 (Z.of_nat r) 0); [lia..|apply bounded_SummarizeRange|].
    intros [result [e|]]; [|apply bounded_ret; lia].
    destruct (attempt <? rt); [|apply IH].
    apply bounded_bind_l; [apply bounded_sleep|].
    intros [|]; [apply bounded_ret; lia | apply IH].
Qed.

Lemma bounded_generateSummaryForTask env cfg c st en :
  bounded (retry_times cfg) 0 (generateSummaryForTask env cfg c st en).
Proof.
  unfold generateSummaryForTask.
  pose proof (retry_times_pos cfg) as Hpos.
  apply (bounded_bind_w (Z.of_nat (Z.to_nat (retry_times cfg))) 0 0 0);
    [lia..|apply bounded_summary_loop|].
  intros [e|[[result|] [e|]]]; try (by apply bounded_silent).
  destruct (String.eqb _ ""); by apply bounded_silent.
Qed.

Lemma bounded_Notify env s c : bounded 0 1 (Notify env s c).
Proof.
  intros w. exists [EvNotify c s (notify env (clock w) s c)].
  unfold Notify, bind, get, emit, tick, ret, logs. simpl. by split_and!.
Qed.

Lemma bounded_notify_loop env s c remaining attempt :
  bounded 0 (Z.of_nat remaining) (notify_loop env s c remaining attempt).
Proof.
  revert attempt. induction remaining as [|r IH]; intros attempt.
  - simpl. by apply bounded_silent.
  - simpl notify_loop.
    apply bounded_bind_l; [by apply bounded_silent|].
    intros [|]; [apply bounded_ret; lia|].
    apply (bounded_bind_w 0 1 0 (Z.of_nat r)); [lia..|apply bounded_Notify|].
    intros [|]; [apply bounded_ret; lia|].
    destruct (attempt <? notifyRetryTimes); [|apply IH].
    apply bounded_bind_l; [apply bounded_sleep|].
    intros [|]; [apply bounded_ret; lia | apply IH].
Qed.

Lemma bounded_sendTaskNotification env s c :
  bounded 0 2 (sendTaskNotification env s c).
Proof. apply (bounded_notify_loop env s c 2). Qed.

Lemma bounded_processTask env cfg c st en id :
  bounded (retry_times cfg) 2 (processTask env cfg c st en id).
Proof.
  pose proof (retry_times_pos cfg) as Hpos.
  unfold processTask.
  apply (bounded_bind_w (retry_times cfg) 0 0 2);
    [lia..|apply bounded_generateSummaryForTask|].
  intros [summary [e|]]; [apply bounded_ret; lia|].
  destruct (String.eqb summary ""); [apply bounded_ret; lia|].
  apply bounded_bind_l.
  { destruct (0 <? id); [|by apply bounded_silent].
    apply bounded_bind_l; [apply bounded_update_task|].
    intros _. by apply bounded_silent. }
  intros _.
  apply (bounded_bind_w 0 2 0 0); [lia..|apply bounded_sendTaskNotification|].
  intros [sent [e|]]; [by apply bounded_silent|].
  apply bounded_bind_l; [|intros _; by apply bounded_silent].
  destruct (sent && (0 <? id)); [|by apply bounded_silent].
  apply bounded_bind_l; [apply bounded_update_task|].
  intros _. by apply bounded_silent.
Qed.

Lemma bounded_run_task env cfg t : bounded (retry_times cfg) 2 (run_task env cfg t).
Proof.
  pose proof (retry_times_pos cfg) as Hpos.
  unfold run_task, MarkTaskFailed, MarkTaskCompleted.
  apply bounded_bind_l; [apply bounded_UpdateTaskStatus|].
  intros [e|]; [apply bounded_ret; lia|].
  apply (bounded_bind_w (retry_times cfg) 2 0 0);
    [lia..|apply bounded_processTask|].
  intros [e|].
  - apply bounded_bind_l; [apply bounded_UpdateTaskStatus|].
    intros _. by apply bounded_silent.
  - apply bounded_bind_l; [apply bounded_UpdateTaskStatus|].
    intros [e|]; by apply bounded_silent.
Qed.

Lemma bounded_recover_task env cfg cutoffTime t :
  bounded (retry_times cfg) 2 (recover_task env cfg cutoffTime t).
Proof.
  pose proof (retry_times_pos cfg) as Hpos.
  unfold recover_task, MarkTaskFailed, MarkTaskCompleted, ResetTaskToPending,
    ClearSummaryContent.
  destruct (Task.StartTime t <? cutoffTime); [apply bounded_ret; lia|].
  apply bounded_bind_l; [apply bounded_update_task|].
  intros [e|]; [apply bounded_ret; lia|].
  apply bounded_bind_l; [apply bounded_UpdateTaskStatus|].
  intros [e|]; [apply bounded_ret; lia|].
  destruct (negb (String.eqb (Task.SummaryContent t) "")).
  - apply (bounded_bind_w 0 2 0 0); [lia..|apply bounded_sendTaskNotification|].
    intros [sent [e|]].
    + apply bounded_bind_l; [apply bounded_UpdateTaskStatus|].
      intros _. by apply bounded_silent.
    + apply bounded_bind_l.
      { destruct sent; [|by apply bounded_silent].
        apply bounded_bind_l; [apply bounded_update_task|].
        intros _. by apply bounded_silent. }
      intros _. apply bounded_bind_l; [apply bounded_UpdateTaskStatus|].
      intros _. by apply bounded_silent.
  - apply (bounded_bind_w (retry_times cfg) 2 0 0);
      [lia..|apply bounded_processTask|].
    intros [e|]; (apply bounded_bind_l; [apply bounded_UpdateTaskStatus|]);
      intros _; by apply bounded_silent.
Qed.

End SchedulerBounds.

Module RetryBounds.
Import GoString Ent Scheduler SchedSpec SchedulerFacts SchedMore SchedulerBounds.

Lemma bounded_recover_loop env cfg cutoffTime ts :
  bounded (Z.of_nat (length ts) * retry_times cfg) (Z.of_nat (length ts) * 2)
          (recover_loop env cfg cutoffTime ts).
Proof.
  pose proof (retry_times_pos cfg) as Hpos.
  induction ts as [|t ts IH].
  - simpl. by apply bounded_silent.
  - simpl recover_loop.
    apply bounded_bind_l; [by apply bounded_silent|].
    intros [|]; [apply bounded_ret; simpl length; nia|].
    apply (bounded_bind_w (retry_times cfg) 2
             (Z.of_nat (length ts) * retry_times cfg) (Z.of_nat (length ts) * 2));
      [simpl length; lia..|apply bounded_recover_task|].
    intros _. apply IH.
Qed.


End RetryBounds.

Module RunErrors.
Import GoString Ent Scheduler SchedSpec SchedulerFacts SchedMore.

Lemma query_loop_error env st en rt remaining attempt last w e :
  (query_loop env st en rt remaining attempt last w).1 = inl e ->
  e = ErrCancelled.
Proof.
  revert attempt last w. induction remaining as [|r IH]; intros attempt last w.
  - simpl. discriminate.
  - simpl query_loop. unfold bind at 1, done.
    destruct (ctx_done env w); [simpl; congruence|].
    unfold GetChatIDsByDateRange. unfold bind at 1. unfold bind at 1, get.
    destruct (store_ok env w); simpl; [discriminate|].
    destruct (attempt <? rt); [|apply IH].
    unfold bind, sleep_or_done, bind, tick, done. simpl.
    destruct (ctx_done env _); [simpl; congruence|apply IH].
Qed.

Lemma create_loop_error env st en chatIDs acc w e :
  (create_loop env st en chatIDs acc w).1 = inl e -> e = ErrCancelled.
Proof.
  revert acc w. induction chatIDs as [|c rest IH]; intros [[tp sc] fc] w.
  - simpl. discriminate.
  - simpl create_loop. unfold bind at 1, done.
    destruct (ctx_done env w); [simpl; congruence|].
    unfold bind at 1.
    destruct (GetOrCreateTask env c st en StatusPending w) as [[tr err] w1].
    destruct err as [e'|]; [apply IH|].
    destruct tr as [t|]; [|apply IH].
    destruct (status_eqb (Task.Status t) StatusCompleted); apply IH.
Qed.

Lemma process_loop_error env cfg ts counts w e :
  (process_loop env cfg ts counts w).1 = inl e -> e = ErrCancelled.
Proof.
  revert counts w. induction ts as [|t rest IH]; intros [sc fc] w.
  - simpl. discriminate.
  - simpl process_loop. unfold bind at 1, done.
    destruct (ctx_done env w); [simpl; congruence|].
    unfold bind at 1. destruct (run_task env cfg t w) as [ok w1].
    apply IH.
Qed.

Lemma create_loop_ok env st en chatIDs acc w :
  cancel_at env = None ->
  exists r, (create_loop env st en chatIDs acc w).1 = inr r.
Proof.
  intros Hc. revert acc w.
  induction chatIDs as [|c rest IH]; intros [[tp sc] fc] w.
  - simpl. by eexists.
  - simpl create_loop. unfold bind at 1, done.
    rewrite ctx_done_never by done.
    unfold bind at 1.
    destruct (GetOrCreateTask env c st en StatusPending w) as [[tr err] w1].
    destruct err as [e'|]; [apply IH|].
    destruct tr as [t|]; [|apply IH].
    destruct (status_eqb (Task.Status t) StatusCompleted); apply IH.
Qed.

Lemma process_loop_ok env cfg ts counts w :
  cancel_at env = None ->
  exists r, (process_loop env cfg ts counts w).1 = inr r.
Proof.
  intros Hc. revert counts w. induction ts as [|t rest IH]; intros [sc fc] w.
  - simpl. by eexists.
  - simpl process_loop. unfold bind at 1, done.
    rewrite ctx_done_never by done.
    unfold bind at 1. destruct (run_task env cfg t w) as [ok w1].
    apply IH.
Qed.

Lemma executeDailySummaryForRange_no_cancel env cfg startTime endTime w :
  cancel_at env = None ->
  (executeDailySummaryForRange env cfg startTime endTime w).1 = None.
Proof.
  unfold executeDailySummaryForRange.
  intros Hc. pose proof (retry_times_pos cfg) as Hpos.
  destruct (Z.to_nat (retry_times cfg)) as [|r] eqn:Hr; [lia|].
  simpl query_loop. unfold bind at 1. unfold bind at 1, done.
  rewrite ctx_done_never by done.
  unfold GetChatIDsByDateRange. unfold bind at 1. unfold bind at 1, get.
  rewrite store_ok_never by done. simpl.
  unfold bind at 1, done. rewrite ctx_done_never by done.
  match goal with |- context [distinct [] ?l] => destruct (distinct [] l) as [|c0 chatIDs] end.
  { unfold bind. destruct (cleanupMessages env cfg w). done. }
  unfold bind at 1.
  destruct (create_loop_ok env startTime endTime (c0 :: chatIDs) ([], 0, 0) w Hc)
    as (cr & Hcr).
  destruct (create_loop env startTime endTime (c0 :: chatIDs) ([], 0, 0) w)
    as [cr' w2]. simpl in Hcr. subst cr'. destruct cr as [[tp sc] fc].
  unfold bind at 1.
  destruct (process_loop_ok env cfg tp (sc, fc) w2 Hc) as (pr & Hpr).
  destruct (process_loop env cfg tp (sc, fc) w2) as [pr' w3].
  simpl in Hpr. subst pr'.
  unfold bind at 1, done. rewrite ctx_done_never by done.
  unfold bind. destruct (cleanupMessages env cfg w3). done.
Qed.



End RunErrors.

Module NotifyContent.
Import GoString Ent Scheduler SchedSpec SchedulerFacts SchedMore SchedulerBounds.

Lemma count_zero_Forall f l :
  count_ev f l <= 0 -> Forall (fun ev => f ev = false) l.
Proof.
  unfold count_ev. induction l as [|ev l IH]; simpl; [constructor|].
  destruct (f ev) eqn:Hf; simpl; [lia|]. intros Hc. constructor; [done|].
  by apply IH.
Qed.

Lemma logs_only_silent {A} (P : Event -> Prop) (c : M A) :
  (forall w, log (c w).2 = log w) -> logs_only P c.
Proof.
  intros Hc w. exists []. unfold logs. rewrite Hc, app_nil_r. by split.
Qed.

Lemma writes_update_task env id op f :
  logs_only (fun ev => is_write ev = true) (update_task env id op f).
Proof.
  intros w. unfold update_task, bind, get, logs.
  destruct (store_ok env w); [destruct (has_task id (tasks w))|]; simpl;
    eexists [_]; (split; [reflexivity|]); by constructor.
Qed.

Lemma writes_UpdateTaskStatus env id st e :
  logs_only (fun ev => is_write ev = true) (UpdateTaskStatus env id st e).
Proof.
  unfold UpdateTaskStatus. apply logs_only_bind; [by apply logs_only_silent|].
  intros w. apply writes_update_task.
Qed.

Lemma logs_only_notify_loop env s c remaining attempt :
  logs_only (fun ev => exists ok, ev = EvNotify c s ok)
            (notify_loop env s c remaining attempt).
Proof.
  revert attempt. induction remaining as [|r IH]; intros attempt.
  - simpl. by apply logs_only_silent.
  - simpl notify_loop.
    apply logs_only_bind; [by apply logs_only_silent|].
    intros [|]; [by apply logs_only_silent|].
    apply logs_only_bind.
    { intros w. exists [EvNotify c s (notify env (clock w) s c)].
      split; [reflexivity|]. constructor; [by eexists|constructor]. }
    intros [|]; [by apply logs_only_silent|].
    destruct (attempt <? notifyRetryTimes); [|apply IH].
    apply logs_only_bind; [by apply logs_only_silent|].
    intros [|]; [by apply logs_only_silent | apply IH].
Qed.

Lemma format_topics_nonempty r c sd ed :
  Summarizer.FormatSummaryForDisplay (Some r) c sd ed <> "" ->
  Summarizer.Topics r <> [].
Proof.
  unfold Summarizer.FormatSummaryForDisplay. by destruct (Summarizer.Topics r).
Qed.

(** The first phase: it never calls the notifier, and a summary it returns
    is the formatted summary of a result with topics. *)
Lemma generateSummaryForTask_result env cfg c st en w :
  exists new,
    log (generateSummaryForTask env cfg c st en w).2 = log w ++ new /\
    Forall (fun ev => is_notify ev = false) new /\
    forall s, (generateSummaryForTask env cfg c st en w).1 = (s, None) ->
              s <> "" -> summary_of env c st en s.
Proof.
  destruct (bounded_generateSummaryForTask env cfg c st en w)
    as (new & Hl & _ & _ & Hn).
  exists new. split; [exact Hl|]. split; [by apply count_zero_Forall|].
  unfold generateSummaryForTask, bind.
  destruct (summary_loop env c st en (retry_times cfg)
              (Z.to_nat (retry_times cfg)) 1 (None, None) w) as [r w1].
  destruct r as [e|[[result|] [e|]]]; try (simpl; intros s [= <-]; done).
  cbv beta iota. intros s.
  destruct (String.eqb_spec
              (Summarizer.FormatSummaryForDisplay (Some result) c
                 (format_date env st) (format_date env (AddDays en (-1)))) "")
    as [Heq|Hne]; unfold ret; cbn [fst].
  { intros Hs Hne. injection Hs as Hs. by subst s. }
  intros Hs _. injection Hs as Hs. subst s. exists result. split; [|done].
  by eapply format_topics_nonempty.
Qed.

Section Task.
Context (env : Env) (cfg : SummaryConfig) (t : Task.t) (stored : bool).

Local Abbreviation P := (notifies_task env t stored).

Lemma P_write ev : is_write ev = true -> P ev.
Proof. by destruct ev. Qed.

Lemma P_quiet ev : is_notify ev = false -> P ev.
Proof. by destruct ev. Qed.

Lemma notifies_processTask id :
  logs_only P (processTask env cfg (Task.ChatID t) (Task.StartTime t)
                 (Task.EndTime t) id).
Proof.
  intros w. unfold processTask, logs.
  destruct (generateSummaryForTask_result env cfg (Task.ChatID t)
              (Task.StartTime t) (Task.EndTime t) w) as (new1 & Hl1 & Hq1 & Hs).
  unfold bind at 1.
  destruct (generateSummaryForTask env cfg (Task.ChatID t) (Task.StartTime t)
              (Task.EndTime t) w) as [[s err] w1].
  simpl in Hl1, Hs.
  assert (HP1 : Forall P new1).
  { eapply Forall_impl; [exact Hq1|]. apply P_quiet. }
  destruct err as [e|]; [exists new1; by split|].
  destruct (String.eqb_spec s "") as [->|Hne]; [exists new1; by split|].
  specialize (Hs s eq_refl Hne).
  match goal with
  | |- context [bind ?c ?k w1] =>
      assert (Hrest : logs_only P (bind c k))
  end.
  { apply logs_only_bind.
    { destruct (0 <? id); [|by apply logs_only_silent].
      apply logs_only_bind; [|intros _; by apply logs_only_silent].
      eapply logs_only_weaken; [apply P_write|apply writes_update_task]. }
    intros _. apply logs_only_bind.
    { eapply logs_only_weaken; [|apply logs_only_notify_loop].
      intros ev [ok ->]. simpl. split; [done|]. split; [done|]. by right. }
    intros [sent [e|]]; [by apply logs_only_silent|].
    apply logs_only_bind; [|intros _; by apply logs_only_silent].
    destruct (sent && (0 <? id)); [|by apply logs_only_silent].
    apply logs_only_bind; [|intros _; by apply logs_only_silent].
    eapply logs_only_weaken; [apply P_write|apply writes_update_task]. }
  destruct (Hrest w1) as (new2 & Hl2 & HP2). unfold logs in Hl2.
  exists (new1 ++ new2). split; [by rewrite Hl2, Hl1, app_assoc|].
  by apply Forall_app.
Qed.

Lemma notifies_status id st e : logs_only P (UpdateTaskStatus env id st e).
Proof. eapply logs_only_weaken; [apply P_write|apply writes_UpdateTaskStatus]. Qed.

Lemma notifies_run_task : logs_only P (run_task env cfg t).
Proof.
  unfold run_task, MarkTaskFailed, MarkTaskCompleted.
  apply logs_only_bind; [apply notifies_status|].
  intros [e|]; [by apply logs_only_silent|].
  apply logs_only_bind; [apply notifies_processTask|].
  intros [e|].
  - apply logs_only_bind; [apply notifies_status|].
    intros _. by apply logs_only_silent.
  - apply logs_only_bind; [apply notifies_status|].
    intros [e|]; by apply logs_only_silent.
Qed.

End Task.


End NotifyContent.

Module TaskRelations.
Import GoString Ent Scheduler SchedSpec SchedulerFacts SchedMore.

(** Relations that look at the task rows only, and that updates of the
    rows with an id in [G] by functions that keep id and key respect. *)
Section TaskRel.
Context (R : World -> World -> Prop) (G : Z -> Prop).
Hypothesis R_refl : forall w, R w w.
Hypothesis R_trans : forall w1 w2 w3, R w1 w2 -> R w2 w3 -> R w1 w3.
Hypothesis R_tasks : forall w w', tasks w' = tasks w -> R w w'.
Hypothesis R_update :
  forall env id op f,
    G id ->
    (forall t, Task.ID (f t) = Task.ID t /\ task_key (f t) = task_key t) ->
    rel R (update_task env id op f).

Lemma rel_bind {A B} (c : M A) (k : A -> M B) :
  rel R c -> (forall a, rel R (k a)) -> rel R (bind c k).
Proof.
  intros Hc Hk w. unfold bind. specialize (Hc w).
  destruct (c w) as [a w1]. simpl in Hc. eapply R_trans; [exact Hc|apply Hk].
Qed.

Lemma rel_keeps {A} (c : M A) : keeps_tasks c -> rel R c.
Proof. intros Hc w. apply R_tasks, Hc. Qed.

Lemma rel_ret {A} (a : A) : rel R (ret a).
Proof. apply rel_keeps, keeps_ret. Qed.

Lemma rel_UpdateTaskStatus env id st e :
  G id -> rel R (UpdateTaskStatus env id st e).
Proof.
  intros Hid. unfold UpdateTaskStatus.
  apply rel_bind; [apply rel_keeps, keeps_get|]. intros w.
  by apply R_update.
Qed.

Lemma rel_with_summary env id op s :
  G id -> rel R (update_task env id op (with_summary s)).
Proof. intros Hid. by apply R_update. Qed.

Lemma rel_processTask env cfg c st en id :
  G id -> rel R (processTask env cfg c st en id).
Proof.
  intros Hid. unfold processTask, SetSummaryContent, ClearSummaryContent.
  apply rel_bind; [apply rel_keeps, keeps_generateSummaryForTask|].
  intros [summary [e|]]; [apply rel_ret|].
  destruct (String.eqb summary ""); [apply rel_ret|].
  apply rel_bind.
  { destruct (0 <? id); [|apply rel_ret].
    apply rel_bind; [by apply rel_with_summary|]. intros _. apply rel_ret. }
  intros _. apply rel_bind; [apply rel_keeps, keeps_notify_loop|].
  intros [sent [e|]]; [apply rel_ret|].
  apply rel_bind; [|intros _; apply rel_ret].
  destruct (sent && (0 <? id)); [|apply rel_ret].
  apply rel_bind; [by apply rel_with_summary|]. intros _. apply rel_ret.
Qed.

Lemma rel_run_task env cfg t : G (Task.ID t) -> rel R (run_task env cfg t).
Proof.
  intros Hid. unfold run_task, MarkTaskFailed, MarkTaskCompleted.
  apply rel_bind; [by apply rel_UpdateTaskStatus|].
  intros [e|]; [apply rel_ret|].
  apply rel_bind; [by apply rel_processTask|].
  intros [e|].
  - apply rel_bind; [by apply rel_UpdateTaskStatus|]. intros _. apply rel_ret.
  - apply rel_bind; [by apply rel_UpdateTaskStatus|].
    intros [e|]; apply rel_ret.
Qed.

Lemma rel_recover_task env cfg cutoffTime t :
  (cutoffTime <= Task.StartTime t -> G (Task.ID t)) ->
  rel R (recover_task env cfg cutoffTime t).
Proof.
  intros Hid. unfold recover_task, MarkTaskFailed, MarkTaskCompleted,
    ResetTaskToPending, ClearSummaryContent.
  destruct (Task.StartTime t <? cutoffTime) eqn:Hstale; [apply rel_ret|].
  apply Z.ltb_ge in Hstale. specialize (Hid Hstale).
  apply rel_bind; [by apply R_update|].
  intros [e|]; [apply rel_ret|].
  apply rel_bind; [by apply rel_UpdateTaskStatus|].
  intros [e|]; [apply rel_ret|].
  destruct (negb (String.eqb (Task.SummaryContent t) "")).
  - apply rel_bind; [apply rel_keeps, keeps_notify_loop|].
    intros [sent [e|]].
    + apply rel_bind; [by apply rel_UpdateTaskStatus|]. intros _. apply rel_ret.
    + apply rel_bind.
      { destruct sent; [|apply rel_ret].
        apply rel_bind; [by apply rel_with_summary|]. intros _. apply rel_ret. }
      intros _. apply rel_bind; [by apply rel_UpdateTaskStatus|].
      intros _. apply rel_ret.
  - apply rel_bind; [by apply rel_processTask|].
    intros [e|]; (apply rel_bind; [by apply rel_UpdateTaskStatus|]);
      intros _; apply rel_ret.
Qed.

Lemma rel_recover_loop env cfg cutoffTime ts :
  (forall t, In t ts -> cutoffTime <= Task.StartTime t -> G (Task.ID t)) ->
  rel R (recover_loop env cfg cutoffTime ts).
Proof.
  induction ts as [|t ts IH]; intros Hts; simpl.
  - apply rel_ret.
  - apply rel_bind; [apply rel_keeps, keeps_done|].
    intros [|]; [apply rel_ret|].
    apply rel_bind.
    + apply rel_recover_task, Hts. by left.
    + intros _. apply IH. intros t' Ht'. apply Hts. by right.
Qed.

Lemma rel_recoverPendingTasks env cfg :
  (forall w t, In t (pending w) ->
               AddDays (now env (clock w)) (-7) <= Task.StartTime t ->
               G (Task.ID t)) ->
  rel R (recoverPendingTasks env cfg).
Proof.
  intros HG w. unfold recoverPendingTasks, GetPendingOrProcessingTasks.
  unfold bind at 1. unfold bind at 1, get.
  destruct (store_ok env w); simpl; [|apply R_refl].
  fold (pending w).
  destruct (pending w) as [|t ts] eqn:Hp; [apply R_refl|].
  unfold bind, get.
  apply (rel_recover_loop env cfg _ (t :: ts)).
  intros t' Ht'. apply HG. by rewrite Hp.
Qed.

Lemma rel_process_loop env cfg ts counts :
  (forall t, In t ts -> G (Task.ID t)) ->
  rel R (process_loop env cfg ts counts).
Proof.
  revert counts. induction ts as [|t ts IH]; intros [sc fc] Hts; simpl.
  - apply rel_ret.
  - apply rel_bind; [apply rel_keeps, keeps_done|].
    intros [|]; [apply rel_ret|].
    apply rel_bind; [apply rel_run_task, Hts; by left|].
    intros ok. apply IH. intros t' Ht'. apply Hts. by right.
Qed.

End TaskRel.

(** *** Rows that are left alone *)

Lemma same_rows_but_update (G : Z -> Prop) env id op f :
  G id -> (forall t, Task.ID (f t) = Task.ID t) ->
  rel (same_rows_but G) (update_task env id op f).
Proof.
  intros Hid Hf w id' Hid'. unfold update_task, bind, get.
  destruct (store_ok env w); [|done].
  destruct (has_task id (tasks w)); [|done].
  simpl. unfold row_of. simpl.
  apply find_task_upd_other; [exact Hf|]. intros ->. done.
Qed.

Lemma find_task_In id ts r : find_task id ts = Some r -> In r ts /\ Task.ID r = id.
Proof.
  unfold find_task. intros Hf. apply find_some in Hf as [Hin Hid].
  split; [done|]. by apply Z.eqb_eq.
Qed.

Lemma NoDup_ids_eq (ts : list Task.t) t r :
  NoDup (Task.ID <$> ts) -> In t ts -> In r ts -> Task.ID t = Task.ID r -> t = r.
Proof.
  intros Hnd Ht Hr Heq.
  apply list_elem_of_In, list_elem_of_lookup in Ht as [i Hi].
  apply list_elem_of_In, list_elem_of_lookup in Hr as [j Hj].
  assert (i = j) as ->; [|congruence].
  eapply NoDup_lookup; [exact Hnd| |].
  - rewrite list_lookup_fmap, Hi. reflexivity.
  - rewrite list_lookup_fmap, Hj. simpl. by rewrite Heq.
Qed.

Lemma pending_In w t :
  In t (pending w) ->
  In t (tasks w) /\
  (Task.Status t = StatusPending \/ Task.Status t = StatusProcessing).
Proof.
  unfold pending. intros Hin. apply filter_In in Hin as [Hin Hst].
  split; [done|]. destruct (Task.Status t); simpl in Hst; auto; discriminate.
Qed.

(** *** The constraints of the task table *)

Lemma fmap_upd {B} (g : Task.t -> B) id f ts :
  (forall t, g (f t) = g t) ->
  g <$> map (fun t => if Task.ID t =? id then f t else t) ts = g <$> ts.
Proof.
  intros Hg. induction ts as [|t ts IH]; [done|].
  cbn [map]. rewrite !fmap_cons, IH. f_equal.
  destruct (Task.ID t =? id); [apply Hg|done].
Qed.

Lemma keeps_unique_update env id op f :
  (forall t, Task.ID (f t) = Task.ID t /\ task_key (f t) = task_key t) ->
  rel keeps_unique (update_task env id op f).
Proof.
  intros Hf w. unfold keeps_unique, update_task, bind, get.
  destruct (store_ok env w); [|simpl; tauto].
  destruct (has_task id (tasks w)); [|simpl; tauto].
  simpl. unfold unique_rows.
  rewrite !fmap_upd; [done|intros t; apply Hf..].
Qed.

Lemma next_id_fresh ts t : In t ts -> Task.ID t < next_id ts.
Proof.
  unfold next_id. induction ts as [|x ts IH]; [done|].
  simpl. intros [->|Hin]; [lia|]. specialize (IH Hin). lia.
Qed.

Lemma find_key_None c s e ts :
  List.find (same_key c s e) ts = None -> (c, s, e) ∉ task_key <$> ts.
Proof.
  intros Hf Hin. apply list_elem_of_fmap in Hin as (t & Hk & Hin).
  apply list_elem_of_In in Hin.
  pose proof (find_none _ _ Hf t Hin) as Hno.
  unfold task_key in Hk. injection Hk as -> -> ->.
  unfold same_key in Hno. rewrite !Z.eqb_refl in Hno. discriminate.
Qed.

Lemma find_key_Some c s e ts t :
  List.find (same_key c s e) ts = Some t -> In t ts /\ task_key t = (c, s, e).
Proof.
  intros Hf. apply find_some in Hf as [Hin Hk]. split; [done|].
  unfold same_key in Hk. apply andb_prop in Hk as [Hk He].
  apply andb_prop in Hk as [Hc Hs].
  apply Z.eqb_eq in Hc, Hs, He. unfold task_key. congruence.
Qed.

Lemma unique_rows_snoc ts t :
  unique_rows ts -> (forall x, In x ts -> Task.ID x < Task.ID t) ->
  task_key t ∉ task_key <$> ts -> unique_rows (ts ++ [t]).
Proof.
  intros [Hid Hk] Hfresh Hnew. unfold unique_rows. rewrite !fmap_app. simpl.
  split; apply NoDup_app; (split; [done|]); (split; [|apply NoDup_singleton]).
  - intros i Hi Hi'. apply list_elem_of_singleton in Hi' as ->.
    apply list_elem_of_fmap in Hi as (x & Hx & Hin).
    apply list_elem_of_In in Hin. specialize (Hfresh x Hin). lia.
  - intros k Hk1 Hk2. apply list_elem_of_singleton in Hk2 as ->. done.
Qed.

Lemma keeps_unique_GetOrCreateTask env c s e st :
  rel keeps_unique (GetOrCreateTask env c s e st).
Proof.
  intros w. unfold keeps_unique, GetOrCreateTask, bind, get.
  destruct (store_ok env w); [|simpl; tauto].
  destruct (List.find (same_key c s e) (tasks w)) as [t|] eqn:Hf; [simpl; tauto|].
  simpl. intros Hu. apply unique_rows_snoc; [done| |].
  - intros x Hx. simpl. by apply next_id_fresh.
  - simpl. by apply find_key_None.
Qed.

Lemma keeps_unique_refl w : keeps_unique w w.
Proof. by intros ?. Qed.

Lemma keeps_unique_trans w1 w2 w3 :
  keeps_unique w1 w2 -> keeps_unique w2 w3 -> keeps_unique w1 w3.
Proof. unfold keeps_unique. auto. Qed.

Lemma keeps_unique_tasks w w' : tasks w' = tasks w -> keeps_unique w w'.
Proof. unfold keeps_unique. by intros ->. Qed.

Lemma keeps_unique_create_loop env s e chatIDs acc :
  rel keeps_unique (create_loop env s e chatIDs acc).
Proof.
  revert acc. induction chatIDs as [|c rest IH]; intros [[tp sc] fc]; simpl.
  - apply rel_ret. apply keeps_unique_tasks.
  - apply (rel_bind _ keeps_unique_trans);
      [apply rel_keeps, keeps_done; apply keeps_unique_tasks|].
    intros [|]; [apply rel_ret, keeps_unique_tasks|].
    apply (rel_bind _ keeps_unique_trans);
      [apply keeps_unique_GetOrCreateTask|].
    intros [[t|] [err|]]; try apply IH.
    destruct (status_eqb (Task.Status t) StatusCompleted); apply IH.
Qed.

Lemma keeps_tasks_cleanupMessages env cfg : keeps_tasks (cleanupMessages env cfg).
Proof.
  intros w. unfold cleanupMessages, DeleteBefore, bind, get.
  by destruct (store_ok env w).
Qed.

Lemma keeps_tasks_query_loop env s e rt remaining attempt last :
  keeps_tasks (query_loop env s e rt remaining attempt last).
Proof.
  revert attempt last. induction remaining as [|r IH]; intros attempt last; simpl.
  - apply keeps_ret.
  - unfold sleep_or_done, GetChatIDsByDateRange.
    repeat first [ apply IH | keeps_step ].
Qed.

End TaskRelations.

Module TableInvariants.
Import GoString Ent Scheduler SchedSpec SchedulerFacts SchedMore TaskRelations.

(** X14: What recovery leaves alone.  With unique row ids, a row that is
    completed or failed, or whose window starts more than seven days
    before the recovery, is the same after [recoverPendingTasks]. *)
Theorem recovery_leaves_settled_rows (env : Env) (cfg : SummaryConfig)
    (w : World) (id : Z) (r : Task.t) :
  NoDup (Task.ID <$> tasks w) ->
  row_of w id = Some r ->
  Task.Status r = StatusCompleted \/ Task.Status r = StatusFailed \/
  Task.StartTime r < AddDays (now env (clock w)) (-7) ->
  row_of (recoverPendingTasks env cfg w).2 id = Some r.
Proof.
  intros Hnd Hrow Hsettled. rewrite <- Hrow.
  pose proof (pending_In w) as Hpend.
  remember (pending w) as pw eqn:Hpw.
  set (G := fun i => exists t, In t pw /\
                               AddDays (now env (clock w)) (-7) <= Task.StartTime t /\
                               Task.ID t = i).
  assert (Hrel : same_rows_but G w (recoverPendingTasks env cfg w).2).
  { unfold recoverPendingTasks, GetPendingOrProcessingTasks.
    unfold bind at 1. unfold bind at 1, get.
    destruct (store_ok env w); simpl; [|by intros ? ?].
    fold (pending w). rewrite <- Hpw.
    destruct pw as [|t ts]; [by intros ? ?|].
    unfold bind, get.
    apply (rel_recover_loop (same_rows_but G) G).
    - intros w1 w2 w3 H12 H23 i Hi. by rewrite H23, H12.
    - intros w1 w2 Heq i Hi. unfold row_of. by rewrite Heq.
    - intros env' id' op f Hid' Hf. apply same_rows_but_update; [done|].
      intros x. apply Hf.
    - intros t' Ht' Hfresh. by exists t'. }
  apply Hrel.
  intros (t & Hin & Hfresh & Hid).
  apply Hpend in Hin as [Hin Hst].
  apply find_task_In in Hrow as [Hr Hrid].
  assert (t = r) as ->.
  { apply (NoDup_ids_eq (tasks w)); [done..|congruence]. }
  destruct Hsettled as [Hs|[Hs|Hs]]; [destruct Hst; congruence..|lia].
Qed.

Lemma recovery_leaves_settled_rows_witness :
  let env := env0 None (fun _ => true) true in
  let w := world0 StatusFailed "S" in
  NoDup (Task.ID <$> tasks w) /\
  row_of (recoverPendingTasks env cfg0 w).2 1 = Some (task0 StatusFailed "S").
Proof.
  assert (H1 : NoDup (Task.ID <$> tasks (world0 StatusFailed "S")))
    by (apply NoDup_singleton).
  split; [exact H1|].
  exact (recovery_leaves_settled_rows (env0 None (fun _ => true) true) cfg0
           (world0 StatusFailed "S") 1 (task0 StatusFailed "S") H1 eq_refl
           (or_intror (or_introl eq_refl))).
Defined.

(** X15: The uniqueness constraints of the task table, on the row id and on
    the key (chat, start, end), are kept by a daily run and by the
    recovery of the unfinished tasks: rows are created through
    [GetOrCreateTask] only, and updates change neither id nor key. *)
Theorem unique_rows_kept (env : Env) (cfg : SummaryConfig) (w : World) :
  unique_rows (tasks w) ->
  (forall startTime endTime,
      unique_rows (tasks (executeDailySummaryForRange env cfg startTime endTime w).2)) /\
  unique_rows (tasks (recoverPendingTasks env cfg w).2).
Proof.
  intros Hu.
  assert (Hupd : forall env' id op f,
             True ->
             (forall t, Task.ID (f t) = Task.ID t /\ task_key (f t) = task_key t) ->
             rel keeps_unique (update_task env' id op f)).
  { intros env' id op f _. apply keeps_unique_update. }
  split.
  - intros startTime endTime. revert Hu.
    change (keeps_unique w
              (executeDailySummaryForRange env cfg startTime endTime w).2).
    revert w.
    change (rel keeps_unique (executeDailySummaryForRange env cfg startTime endTime)).
    unfold executeDailySummaryForRange.
    apply (rel_bind _ keeps_unique_trans);
      [apply rel_keeps, keeps_tasks_query_loop; apply keeps_unique_tasks|].
    intros [e|[chatIDs [e|]]]; try (apply rel_ret, keeps_unique_tasks).
    apply (rel_bind _ keeps_unique_trans);
      [apply rel_keeps, keeps_done; apply keeps_unique_tasks|].
    intros [|]; [apply rel_ret, keeps_unique_tasks|].
    destruct chatIDs as [|c0 chatIDs].
    { apply (rel_bind _ keeps_unique_trans);
        [apply rel_keeps, keeps_tasks_cleanupMessages; apply keeps_unique_tasks|].
      intros _. apply rel_ret, keeps_unique_tasks. }
    apply (rel_bind _ keeps_unique_trans); [apply keeps_unique_create_loop|].
    intros [e|[[tp sc] fc]]; [apply rel_ret, keeps_unique_tasks|].
    apply (rel_bind _ keeps_unique_trans).
    { apply (rel_process_loop keeps_unique (fun _ => True));
        first [ exact keeps_unique_trans | exact keeps_unique_tasks
              | exact keeps_unique_refl | exact Hupd | done ]. }
    intros [e|counts]; [apply rel_ret, keeps_unique_tasks|].
    apply (rel_bind _ keeps_unique_trans);
      [apply rel_keeps, keeps_done; apply keeps_unique_tasks|].
    intros [|]; [apply rel_ret, keeps_unique_tasks|].
    apply (rel_bind _ keeps_unique_trans);
      [apply rel_keeps, keeps_tasks_cleanupMessages; apply keeps_unique_tasks|].
    intros _. apply rel_ret, keeps_unique_tasks.
  - revert Hu.
    apply (rel_recoverPendingTasks keeps_unique (fun _ => True));
      first [ exact keeps_unique_trans | exact keeps_unique_tasks
            | exact keeps_unique_refl | exact Hupd | done ].
Qed.

Lemma unique_rows_kept_witness :
  let env := env0 None (fun _ => true) true in
  let w := world0 StatusPending "" in
  unique_rows (tasks w) /\
  unique_rows (tasks (executeDailySummaryForRange env cfg0 (99 * day)
                        (100 * day) w).2).
Proof.
  assert (H : unique_rows (tasks (world0 StatusPending "")))
    by (split; apply NoDup_singleton).
  split; [exact H|].
  exact (proj1 (unique_rows_kept (env0 None (fun _ => true) true) cfg0
                  (world0 StatusPending "") H) (99 * day) (100 * day)).
Defined.

End TableInvariants.

Module StoreContracts.
Import GoString Ent Scheduler SchedSpec SchedulerFacts SchedMore TaskRelations.

Lemma find_app_None {A} (f : A -> bool) l x :
  List.find f l = None -> f x = true -> List.find f (l ++ [x]) = Some x.
Proof.
  induction l as [|y l IH]; simpl; intros Hf Hx; [by rewrite Hx|].
  destruct (f y); [discriminate|]. by apply IH.
Qed.

(** X16: [GetOrCreateTask] on a store that runs the call: it returns a row
    with the requested key, which is an existing row, with the store left
    as it is, or a new last row with the requested status and no summary
    when no row had the key; it keeps the uniqueness constraints; and
    asking again returns the same row and creates nothing. *)
Theorem GetOrCreateTask_idempotent (env : Env) (chatID startTime endTime : Z)
    (status : TaskStatus) (w : World) :
  store_ok env w = true ->
  exists t w',
    GetOrCreateTask env chatID startTime endTime status w = ((Some t, None), w') /\
    task_key t = (chatID, startTime, endTime) /\
    In t (tasks w') /\
    ((In t (tasks w) /\ w' = w) \/
     (((chatID, startTime, endTime) ∉ (task_key <$> tasks w)) /\
      tasks w' = tasks w ++ [t] /\
      Task.Status t = status /\ Task.SummaryContent t = "")) /\
    (unique_rows (tasks w) -> unique_rows (tasks w')) /\
    GetOrCreateTask env chatID startTime endTime status w' = ((Some t, None), w').
Proof.
  intros Hok.
  pose proof (keeps_unique_GetOrCreateTask env chatID startTime endTime status w)
    as Hu.
  unfold keeps_unique in Hu. revert Hu.
  unfold GetOrCreateTask, bind, get. rewrite Hok.
  destruct (List.find (same_key chatID startTime endTime) (tasks w))
    as [t|] eqn:Hf; simpl.
  - intros Hu. exists t, w. rewrite Hok, Hf.
    apply find_key_Some in Hf as [Hin Hk]. split_and!; auto.
  - intros Hu. eexists _, _. split; [reflexivity|].
    assert (Hok' : forall ts, store_ok env {| clock := clock w; messages := messages w;
                                              tasks := ts; log := log w |} = true).
    { intros ts. unfold store_ok, ctx_done in *. simpl. exact Hok. }
    rewrite Hok'. simpl.
    split_and!; auto.
    + apply in_app_iff. right. by left.
    + right. split_and!; auto. by apply find_key_None.
    + rewrite (find_app_None _ _ _ Hf); [done|].
      unfold same_key. simpl. by rewrite !Z.eqb_refl.
Qed.

Lemma GetOrCreateTask_idempotent_witness :
  let env := env0 None (fun _ => true) true in
  let w := world0 StatusCompleted "" in
  store_ok env w = true /\
  exists t w',
    GetOrCreateTask env (-5) (99 * day) (100 * day) StatusPending w
    = ((Some t, None), w') /\
    GetOrCreateTask env (-5) (99 * day) (100 * day) StatusPending w'
    = ((Some t, None), w').
Proof.
  assert (H : store_ok (env0 None (fun _ => true) true)
                (world0 StatusCompleted "") = true) by reflexivity.
  split; [exact H|].
  destruct (GetOrCreateTask_idempotent (env0 None (fun _ => true) true)
              (-5) (99 * day) (100 * day) StatusPending
              (world0 StatusCompleted "") H)
    as (t & w' & H1 & _ & _ & _ & _ & H2).
  exists t, w'. by split.
Defined.

Lemma elem_of_distinct seen l x :
  x ∈ distinct seen l <-> x ∈ l /\ x ∉ seen.
Proof.
  revert seen. induction l as [|y l IH]; intros seen; simpl.
  - rewrite elem_of_nil. tauto.
  - destruct (existsb (Z.eqb y) seen) eqn:Hex.
    + apply existsb_exists in Hex as (z & Hz & Hyz). apply Z.eqb_eq in Hyz as <-.
      apply list_elem_of_In in Hz.
      rewrite IH, elem_of_cons. split; [tauto|].
      intros [[->|Hx] Hn]; [done|tauto].
    + assert (Hy : y ∉ seen).
      { intros Hy. apply list_elem_of_In in Hy.
        assert (existsb (Z.eqb y) seen = true); [|congruence].
        apply existsb_exists. exists y. split; [done|apply Z.eqb_refl]. }
      rewrite !elem_of_cons, IH, not_elem_of_cons.
      destruct (decide (x = y)) as [->|Hne]; [tauto|]. tauto.
Qed.

Lemma NoDup_distinct seen l : NoDup (distinct seen l).
Proof.
  revert seen. induction l as [|y l IH]; intros seen; simpl; [constructor|].
  destruct (existsb (Z.eqb y) seen); [apply IH|].
  apply NoDup_cons. split; [|apply IH].
  rewrite elem_of_distinct, not_elem_of_cons. tauto.
Qed.



End StoreContracts.

(** ** The notifier: how a long summary is cut, and what is sent *)

Module SplitMessageFacts.
Import GoString GoStrings LLM Scheduler Notifier NotifierSpec.
Import EstimatorFacts FormatFacts.

Lemma eqb_empty s : String.eqb s "" = true <-> s = "".
Proof. apply String.eqb_eq. Qed.

Lemma negb_eqb_empty s : negb (String.eqb s "") = true <-> s <> "".
Proof. rewrite negb_true_iff. apply String.eqb_neq. Qed.

Lemma app_empty s t : s +:+ t = "" -> s = "" /\ t = "".
Proof. destruct s; [by rewrite app_nil_s|rewrite app_cons_s; discriminate]. Qed.

Lemma sentence_step_ok st sentence :
  len (TrimSpace sentence) <= MaxMessageLength ->
  pieces_ok st -> pieces_ok (sentence_step st sentence).
Proof.
  destruct st as [messages cur]. unfold pieces_ok, sentence_step. simpl.
  intros Hs [Hm Hc].
  destruct (String.eqb_spec (TrimSpace sentence) "") as [He|Hne]; [done|].
  destruct (String.eqb_spec cur "") as [->|Hcur]; simpl.
  - rewrite andb_false_r. simpl. rewrite app_nil_s. split; [done|lia].
  - rewrite andb_true_r.
    destruct (len cur + len (TrimSpace sentence) + 2 >? MaxMessageLength) eqn:Hgt;
      simpl.
    + rewrite app_nil_s. split; [|lia].
      apply Forall_app. split; [done|]. by repeat constructor.
    + rewrite Z.gtb_ltb, Z.ltb_ge in Hgt.
      apply String.eqb_neq in Hcur. rewrite Hcur. simpl.
      split; [done|]. rewrite !len_app. change (len full_stop) with 3. lia.
Qed.

Lemma sentence_fold_ok sentences st :
  Forall (fun s => len (TrimSpace s) <= MaxMessageLength) sentences ->
  pieces_ok st -> pieces_ok (fold_left sentence_step sentences st).
Proof.
  revert st. induction sentences as [|s ss IH]; intros st Hs Hst; simpl; [done|].
  apply Forall_cons in Hs as [Hs Hss]. apply IH; [done|].
  by apply sentence_step_ok.
Qed.

Lemma paragraph_step_ok st para :
  (MaxMessageLength < len (TrimSpace para) ->
   Forall (fun s => len (TrimSpace s) <= MaxMessageLength)
          (Split (TrimSpace para) full_stop)) ->
  pieces_ok st -> pieces_ok (paragraph_step st para).
Proof.
  destruct st as [messages cur]. unfold paragraph_step.
  intros Hp Hst.
  destruct (String.eqb_spec (TrimSpace para) "") as [He|Hne]; [done|].
  destruct (len _ <=? MaxMessageLength) eqn:Hfit.
  { apply Z.leb_le in Hfit. destruct Hst as [Hm Hc]. split; [done|]. simpl. lia. }
  assert (Hm' : pieces_ok
                  (if negb (String.eqb cur "") then messages ++ [cur] else messages,
                   cur)).
  { destruct Hst as [Hm Hc]. simpl in *. split; [|done]. simpl.
    destruct (String.eqb_spec cur "") as [->|Hcur]; simpl; [done|].
    apply Forall_app. split; [done|]. by repeat constructor. }
  destruct (len (TrimSpace para) >? MaxMessageLength) eqn:Hbig.
  - rewrite Z.gtb_ltb in Hbig. apply Z.ltb_lt in Hbig.
    apply sentence_fold_ok; [by apply Hp|done].
  - rewrite Z.gtb_ltb, Z.ltb_ge in Hbig.
    destruct Hm' as [Hm' _]. split; [done|]. simpl. lia.
Qed.

Lemma paragraph_fold_ok ps st :
  Forall (fun para =>
            MaxMessageLength < len (TrimSpace para) ->
            Forall (fun s => len (TrimSpace s) <= MaxMessageLength)
                   (Split (TrimSpace para) full_stop)) ps ->
  pieces_ok st -> pieces_ok (fold_left paragraph_step ps st).
Proof.
  revert st. induction ps as [|p ps IH]; intros st Hs Hst; simpl; [done|].
  apply Forall_cons in Hs as [Hs Hss]. apply IH; [done|].
  by apply paragraph_step_ok.
Qed.

(** [strings.Join] and appending at the end. *)
Lemma Join_snoc l x sep :
  Join (l ++ [x]) sep = match l with [] => x | _ => Join l sep +:+ sep +:+ x end.
Proof.
  induction l as [|y l IH]; [done|].
  destruct l as [|z l]; [done|].
  change (Join ((y :: z :: l) ++ [x]) sep)
    with (y +:+ sep +:+ Join ((z :: l) ++ [x]) sep).
  rewrite IH.
  change (Join (y :: z :: l) sep) with (y +:+ sep +:+ Join (z :: l) sep).
  by rewrite !app_assoc_s.
Qed.

End SplitMessageFacts.

Module SplitMessage.
Import GoString GoStrings LLM Scheduler Notifier NotifierSpec.
Import EstimatorFacts FormatFacts SplitMessageFacts.

(** X18: The size of the pieces.  When every sentence of every paragraph that
    is too long for one message fits in a message, every piece that
    [splitMessage] returns is not empty and has at most
    [MaxMessageLength + 1] bytes: one more than the limit, because the
    test for appending a sentence counts two bytes for the full stop that
    joins the sentences, which takes three. *)
Theorem splitMessage_sizes (content : string) :
  content <> "" ->
  (forall para,
      In para (paragraphs content) ->
      MaxMessageLength < len (TrimSpace para) ->
      Forall (fun s => len (TrimSpace s) <= MaxMessageLength)
             (Split (TrimSpace para) full_stop)) ->
  Forall (fun m => m <> "" /\ len m <= MaxMessageLength + 1)
         (splitMessage content).
Proof.
  intros Hne Hs. unfold splitMessage.
  destruct (len content <=? MaxMessageLength) eqn:Hshort.
  { apply Z.leb_le in Hshort. repeat constructor; [done|lia]. }
  pose proof (paragraph_fold_ok (paragraphs content) ([], "")) as Hinv.
  destruct (fold_left paragraph_step (paragraphs content) ([], ""))
    as [messages cur].
  destruct Hinv as [Hm Hc].
  { apply Forall_forall. intros para Hin. apply Hs. by apply list_elem_of_In. }
  { split; [constructor|]. simpl. unfold MaxMessageLength. change (len "") with 0. lia. }
  simpl in Hm, Hc.
  destruct (String.eqb_spec cur "") as [->|Hcur]; simpl; [done|].
  apply Forall_app. split; [done|]. by repeat constructor.
Qed.

(** Two sentences of 2499 bytes are joined into a piece of 5001. *)
Lemma splitMessage_sizes_witness :
  let s := fill 2499 "a" in
  let content := s +:+ full_stop +:+ s +:+ full_stop +:+ fill 10 "b" in
  content <> "" /\
  splitMessage content = [s +:+ full_stop +:+ s; fill 10 "b"] /\
  len (s +:+ full_stop +:+ s) = MaxMessageLength + 1 /\
  Forall (fun m => m <> "" /\ len m <= MaxMessageLength + 1)
         (splitMessage content).
Proof.
  intros s content.
  assert (H1 : content <> "") by (vm_compute; discriminate).
  assert (H2 : forall para,
             In para (paragraphs content) ->
             MaxMessageLength < len (TrimSpace para) ->
             Forall (fun s => len (TrimSpace s) <= MaxMessageLength)
                    (Split (TrimSpace para) full_stop)).
  { intros para Hin _.
    assert (Hp : paragraphs content = [content]) by (vm_compute; reflexivity).
    rewrite Hp in Hin. destruct Hin as [<-|[]].
    assert (Hsp : Split (TrimSpace content) full_stop = [s; s; fill 10 "b"])
      by (vm_compute; reflexivity).
    rewrite Hsp.
    repeat constructor; vm_compute; discriminate. }
  split; [exact H1|].
  split; [vm_compute; reflexivity|].
  split; [vm_compute; reflexivity|].
  exact (splitMessage_sizes content H1 H2).
Defined.

(** X19: A piece sent twice.  When a content of two paragraphs has a first
    paragraph that fits in a message and a second one that is too long
    and is a single sentence, [splitMessage] returns the first paragraph
    twice: it is closed once when the second paragraph does not fit
    behind it, and once more by the loop over the sentences, which starts
    from the message already closed. *)
Theorem splitMessage_repeats_piece (content p1 p2 : string) :
  MaxMessageLength < len content ->
  paragraphs content = [p1; p2] ->
  TrimSpace p1 = p1 -> p1 <> "" -> len p1 <= MaxMessageLength ->
  TrimSpace p2 = p2 -> MaxMessageLength < len p2 ->
  Split p2 full_stop = [p2] ->
  splitMessage content = [p1; p1; p2].
Proof.
  intros Hlong Hps Ht1 Hn1 Hl1 Ht2 Hl2 Hsp.
  pose proof (len_nonneg p1) as Hp1.
  assert (Hn2 : p2 <> "").
  { intros ->. change (len "") with 0 in Hl2. unfold MaxMessageLength in Hl2. lia. }
  pose proof Hn1 as Hn1'. pose proof Hn2 as Hn2'.
  apply String.eqb_neq in Hn1', Hn2'.
  assert (Hc : (len content <=? MaxMessageLength) = false) by (apply Z.leb_gt; lia).
  assert (Hf1 : (len p1 <=? MaxMessageLength) = true) by (by apply Z.leb_le).
  assert (Hf2 : (len ((p1 +:+ blank_line) +:+ p2) <=? MaxMessageLength) = false).
  { apply Z.leb_gt. rewrite !len_app. change (len blank_line) with 2. lia. }
  assert (Hb2 : (len p2 >? MaxMessageLength) = true).
  { rewrite Z.gtb_ltb. by apply Z.ltb_lt. }
  assert (Hb3 : (len p1 + len p2 + 2 >? MaxMessageLength) = true).
  { rewrite Z.gtb_ltb. apply Z.ltb_lt. lia. }
  assert (Hstep1 : paragraph_step ([], "") p1 = ([], p1)).
  { unfold paragraph_step. rewrite Ht1, Hn1'. simpl. by rewrite app_nil_s, Hf1. }
  assert (Hstep2 : paragraph_step ([], p1) p2 = ([p1; p1], p2)).
  { unfold paragraph_step. rewrite Ht2, Hn1', Hn2'. simpl negb. cbv iota.
    rewrite Hf2, Hb2, Hsp. cbn [fold_left]. unfold sentence_step.
    rewrite Ht2, Hn2', Hn1', Hb3. simpl. by rewrite app_nil_s. }
  unfold splitMessage. rewrite Hc, Hps. cbn [fold_left].
  rewrite Hstep1, Hstep2. by rewrite Hn2'.
Qed.

Lemma splitMessage_repeats_piece_witness :
  let p1 := "hello" in
  let p2 := fill (Z.to_nat 5001) "a" in
  let content := p1 +:+ blank_line +:+ p2 in
  MaxMessageLength < len content /\
  splitMessage content = [p1; p1; p2].
Proof.
  intros p1 p2 content.
  assert (H1 : MaxMessageLength < len content) by (vm_compute; reflexivity).
  split; [exact H1|].
  apply (splitMessage_repeats_piece content p1 p2 H1).
  - vm_compute; reflexivity.
  - vm_compute; reflexivity.
  - discriminate.
  - vm_compute; discriminate.
  - vm_compute; reflexivity.
  - vm_compute; reflexivity.
  - vm_compute; reflexivity.
Defined.

End SplitMessage.

Module SplitParagraphs.
Import GoString GoStrings LLM Scheduler Notifier NotifierSpec.
Import EstimatorFacts FormatFacts SplitMessageFacts.

Lemma trimmed_paragraphs_cons p ps :
  trimmed_paragraphs (p :: ps)
  = (if String.eqb (TrimSpace p) "" then [] else [TrimSpace p])
    ++ trimmed_paragraphs ps.
Proof.
  unfold trimmed_paragraphs. simpl. by destruct (String.eqb (TrimSpace p) "").
Qed.

Lemma paragraph_step_joins done st p :
  len (TrimSpace p) <= MaxMessageLength ->
  joins done st ->
  joins (done ++ (if String.eqb (TrimSpace p) "" then [] else [TrimSpace p]))
        (paragraph_step st p).
Proof.
  destruct st as [messages cur]. unfold joins, paragraph_step. simpl.
  intros Hfit (Hj & He & Hc & Hok).
  destruct (String.eqb_spec (TrimSpace p) "") as [Hq|Hq].
  { rewrite app_nil_r. simpl. done. }
  set (q := TrimSpace p) in *.
  assert (Hbig : (len q >? MaxMessageLength) = false).
  { rewrite Z.gtb_ltb. apply Z.ltb_ge. lia. }
  pose proof Hq as Hq'. apply String.eqb_neq in Hq'.
  destruct (String.eqb_spec cur "") as [->|Hcur]; simpl in *.
  - rewrite (Hc eq_refl) in *. rewrite app_nil_s.
    assert ((len q <=? MaxMessageLength) = true) as Hle by (by apply Z.leb_le).
    rewrite Hle. simpl. rewrite Hq'. simpl.
    assert (done = []) as -> by (by apply He).
    split_and!; [done| |done|by repeat constructor].
    split; discriminate.
  - assert (Hdone : done <> []).
    { intros Hd. apply He in Hd. by destruct messages. }
    assert (Hjd : Join (done ++ [q]) blank_line
                  = Join done blank_line +:+ blank_line +:+ q).
    { rewrite Join_snoc. by destruct done. }
    destruct (len ((cur +:+ blank_line) +:+ q) <=? MaxMessageLength) eqn:Hle.
    + apply Z.leb_le in Hle. simpl.
      assert (Hx : (cur +:+ blank_line) +:+ q <> "").
      { intros Hx. apply app_empty in Hx as [_ Hx]. done. }
      pose proof Hx as Hx'. apply String.eqb_neq in Hx'. rewrite Hx'. simpl.
      split_and!.
      * rewrite Hjd, <- Hj, !Join_snoc.
        destruct messages; by rewrite ?app_assoc_s.
      * split; intros Hnil; by apply app_eq_nil in Hnil as [_ ?].
      * done.
      * apply Forall_app in Hok as [Hok _].
        apply Forall_app. split; [done|]. by repeat constructor.
    + rewrite Hbig. simpl. rewrite Hq'. simpl.
      split_and!.
      * rewrite Hjd, <- Hj, (Join_snoc (messages ++ [cur])).
        by destruct (messages ++ [cur]) eqn:Hm;
          [apply app_eq_nil in Hm as [_ ?]|].
      * split; intros Hnil; by apply app_eq_nil in Hnil as [_ ?].
      * done.
      * apply Forall_app. split; [done|]. by repeat constructor.
Qed.

Lemma paragraph_fold_joins ps done st :
  Forall (fun p => len (TrimSpace p) <= MaxMessageLength) ps ->
  joins done st ->
  joins (done ++ trimmed_paragraphs ps) (fold_left paragraph_step ps st).
Proof.
  revert done st. induction ps as [|p ps IH]; intros done st Hps Hst; simpl.
  - unfold trimmed_paragraphs. simpl. by rewrite app_nil_r.
  - apply Forall_cons in Hps as [Hp Hps].
    rewrite trimmed_paragraphs_cons, app_assoc. apply IH; [done|].
    by apply paragraph_step_joins.
Qed.

(** X20: Nothing is lost when the paragraphs fit.  When no paragraph of a
    long content is longer than a message, the pieces of [splitMessage],
    joined by blank lines, are the paragraphs of the content, trimmed and
    without the empty ones, joined by blank lines; and every piece is
    within the limit. *)
Theorem splitMessage_keeps_paragraphs (content : string) :
  MaxMessageLength < len content ->
  Forall (fun p => len (TrimSpace p) <= MaxMessageLength) (paragraphs content) ->
  Join (splitMessage content) blank_line
  = Join (trimmed_paragraphs (paragraphs content)) blank_line /\
  Forall (fun m => m <> "" /\ len m <= MaxMessageLength) (splitMessage content).
Proof.
  intros Hlong Hps. unfold splitMessage.
  assert (Hc : (len content <=? MaxMessageLength) = false) by (apply Z.leb_gt; lia).
  rewrite Hc.
  pose proof (paragraph_fold_joins (paragraphs content) [] ([], "") Hps) as Hinv.
  destruct (fold_left paragraph_step (paragraphs content) ([], ""))
    as [messages cur].
  destruct Hinv as (Hj & _ & _ & Hok).
  { unfold joins. simpl. split_and!; done. }
  unfold flush in Hj, Hok. simpl app in Hj. done.
Qed.

Lemma splitMessage_keeps_paragraphs_witness :
  let p := fill 3000 "a" in
  let content := p +:+ blank_line +:+ " " +:+ blank_line +:+ p +:+ newline in
  MaxMessageLength < len content /\
  splitMessage content = [p; p] /\
  Join (splitMessage content) blank_line
  = Join (trimmed_paragraphs (paragraphs content)) blank_line.
Proof.
  intros p content.
  assert (H1 : MaxMessageLength < len content) by (vm_compute; reflexivity).
  assert (H2 : Forall (fun p => len (TrimSpace p) <= MaxMessageLength)
                      (paragraphs content)).
  { assert (Hp : paragraphs content = [p; " "; p +:+ newline])
      by (vm_compute; reflexivity).
    rewrite Hp. repeat constructor; vm_compute; discriminate. }
  split; [exact H1|]. split; [vm_compute; reflexivity|].
  exact (proj1 (splitMessage_keeps_paragraphs content H1 H2)).
Defined.

End SplitParagraphs.

Module NotifyFacts.
Import GoString GoStrings LLM Scheduler Notifier NotifierSpec.

Lemma send_messages_spec td c ms sent :
  exists new,
    (send_messages td c ms sent).2 = sent ++ new /\
    stops_at_failure (send_messages td c ms sent).1 new /\
    Forall (fun x => x.1.1 = c) new /\
    ((forall n f, SendMessage td n c f = true) ->
     send_messages td c ms sent = (true, sent ++ delivered td c ms)).
Proof.
  revert sent. induction ms as [|m ms IH]; intros sent; simpl.
  - exists []. rewrite app_nil_r. unfold stops_at_failure.
    split_and!; [done|by constructor|by constructor|].
    intros _. unfold delivered. simpl. by rewrite app_nil_r.
  - destruct (SendMessage td (length sent) c (parseHTMLText td m)) eqn:Hok.
    + destruct (IH (sent ++ [(c, parseHTMLText td m, true)]))
        as (new & Hl & Hs & Hc & Hall).
      exists ((c, parseHTMLText td m, true) :: new).
      split_and!.
      * rewrite Hl, <- app_assoc. done.
      * destruct (send_messages td c ms _).1; simpl in *.
        -- by constructor.
        -- destruct Hs as (pre & x & -> & Hp & Hx).
           exists ((c, parseHTMLText td m, true) :: pre), x.
           split_and!; [done|by constructor|done].
      * by constructor.
      * intros Hsucc. rewrite (Hall Hsucc), <- app_assoc. done.
    + exists [(c, parseHTMLText td m, false)]. simpl.
      split_and!; [done| |by repeat constructor|].
      * exists [], (c, parseHTMLText td m, false). by split_and!.
      * intros Hsucc. by rewrite Hsucc in Hok.
Qed.

Lemma stops_at_failure_app new1 ok new2 :
  Forall succeeded new1 -> stops_at_failure ok new2 ->
  stops_at_failure ok (new1 ++ new2).
Proof.
  intros H1. destruct ok; simpl.
  - intros H2. by apply Forall_app.
  - intros (pre & x & -> & Hp & Hx). exists (new1 ++ pre), x.
    split_and!; [by rewrite app_assoc|by apply Forall_app|done].
Qed.

Lemma send_users_spec td users ms sent :
  exists new,
    (send_users td users ms sent).2 = sent ++ new /\
    stops_at_failure
      (match (send_users td users ms sent).1 with None => true | _ => false end)
      new /\
    (forall e, (send_users td users ms sent).1 = Some e ->
               exists u, In u users /\ e = ErrSendPrivate u) /\
    ((forall n c f, SendMessage td n c f = true) ->
     send_users td users ms sent
     = (None, sent ++ flat_map (fun u => delivered td u ms) users)).
Proof.
  revert sent. induction users as [|u users IH]; intros sent; simpl.
  - exists []. rewrite app_nil_r. unfold stops_at_failure.
    split_and!; [done|by constructor|done|].
    done.
  - destruct (send_messages_spec td u ms sent) as (new1 & Hl1 & Hs1 & _ & Hall1).
    destruct (send_messages td u ms sent) as [ok sent1] eqn:Hsend.
    simpl in Hl1, Hs1. subst sent1. destruct ok.
    + destruct (IH (sent ++ new1)) as (new2 & Hl2 & Hs2 & He2 & Hall2).
      exists (new1 ++ new2). split_and!.
      * by rewrite Hl2, app_assoc.
      * by apply stops_at_failure_app.
      * intros e He. destruct (He2 e He) as (u' & Hu' & ->).
        exists u'. split; [by right|done].
      * intros Hsucc. specialize (Hall1 (fun n f => Hsucc n u f)).
        injection Hall1 as Hn1. apply app_inv_head in Hn1. subst new1.
        rewrite (Hall2 Hsucc), <- app_assoc. done.
    + exists new1. simpl. split_and!; [done|done| |].
      * intros e [= <-]. exists u. split; [by left|done].
      * intros Hsucc. specialize (Hall1 (fun n f => Hsucc n u f)). discriminate.
Qed.

End NotifyFacts.

Module NotifyContract.
Import GoString GoStrings LLM Scheduler Notifier NotifierSpec NotifyFacts.

(** X21: What [Notify] sends when every send succeeds: nothing for an empty
    content or a mode it does not know; in mode private the pieces of the
    content, in order, to each user in turn; in mode group the pieces to
    the chat; in mode both the private messages, then those of the
    group. *)
Theorem Notify_delivers (td : TdClient) (cfg : SummaryConfig)
    (content : string) (chatID : Z) (sent : list Sent) :
  (forall n c f, SendMessage td n c f = true) ->
  let private :=
    flat_map (fun u => delivered td u (splitMessage content)) (NotifyUserIds cfg) in
  let group := delivered td chatID (splitMessage content) in
  Notify td cfg content chatID sent
  = (None,
     sent ++
     (if String.eqb content "" then []
      else if String.eqb (NotifyMode cfg) "private" then private
      else if String.eqb (NotifyMode cfg) "group" then group
      else if String.eqb (NotifyMode cfg) "both" then private ++ group
      else [])).
Proof.
  intros Hsucc private group. unfold Notify.
  assert (Hp : forall sent0, notifyPrivate td cfg content sent0
                             = (None, sent0 ++ private)).
  { intros sent0. unfold notifyPrivate, private.
    destruct (NotifyUserIds cfg) as [|u us] eqn:Hu; [by rewrite app_nil_r|].
    destruct (send_users_spec td (u :: us) (splitMessage content) sent0)
      as (_ & _ & _ & _ & Hall).
    by rewrite (Hall Hsucc). }
  assert (Hg : forall sent0, notifyGroup td content chatID sent0
                             = (None, sent0 ++ group)).
  { intros sent0. unfold notifyGroup, group.
    destruct (send_messages_spec td chatID (splitMessage content) sent0)
      as (_ & _ & _ & _ & Hall).
    by rewrite (Hall (fun n f => Hsucc n chatID f)). }
  destruct (String.eqb content ""); [by rewrite app_nil_r|].
  destruct (String.eqb (NotifyMode cfg) "private"); [apply Hp|].
  destruct (String.eqb (NotifyMode cfg) "group"); [apply Hg|].
  destruct (String.eqb (NotifyMode cfg) "both"); [|by rewrite app_nil_r].
  rewrite Hp, Hg, <- app_assoc. done.
Qed.

Lemma Notify_delivers_witness :
  let td := td0 (fun _ => true) in
  (forall n c f, SendMessage td n c f = true) /\
  Notify td (cfg_mode "both" [7; 8]) "hi" (-5) []
  = (None, [(7, {| Text := "hi"; Entities := [] |}, true);
            (8, {| Text := "hi"; Entities := [] |}, true);
            (-5, {| Text := "hi"; Entities := [] |}, true)]).
Proof.
  intros td.
  assert (H : forall n c f, SendMessage td n c f = true) by reflexivity.
  split; [exact H|].
  exact (Notify_delivers td (cfg_mode "both" [7; 8]) "hi" (-5) [] H).
Defined.

(** X22: What [Notify] reports.  It returns an error only in the modes private
    and group, for the user or the chat whose send failed, and then
    nothing was sent after the failed call and every call before it had
    succeeded; in mode both the errors of the two parts are logged and
    dropped, so the caller is told of a success whatever happened. *)
Theorem Notify_reports (td : TdClient) (cfg : SummaryConfig)
    (content : string) (chatID : Z) (sent : list Sent) :
  (NotifyMode cfg = "both" -> (Notify td cfg content chatID sent).1 = None) /\
  (forall e,
      (Notify td cfg content chatID sent).1 = Some e ->
      ((NotifyMode cfg = "private" /\
        exists u, In u (NotifyUserIds cfg) /\ e = ErrSendPrivate u) \/
       (NotifyMode cfg = "group" /\ e = ErrSendGroup chatID)) /\
      exists pre x,
        (Notify td cfg content chatID sent).2 = sent ++ pre ++ [x] /\
        Forall succeeded pre /\ x.2 = false) /\
  exists new, (Notify td cfg content chatID sent).2 = sent ++ new.
Proof.
  unfold Notify.
  assert (Hp : forall sent0,
             exists new,
               (notifyPrivate td cfg content sent0).2 = sent0 ++ new /\
               forall e, (notifyPrivate td cfg content sent0).1 = Some e ->
                         (exists u, In u (NotifyUserIds cfg) /\ e = ErrSendPrivate u) /\
                         exists pre x, new = pre ++ [x] /\
                                       Forall succeeded pre /\ x.2 = false).
  { intros sent0. unfold notifyPrivate.
    destruct (NotifyUserIds cfg) as [|u us] eqn:Hu.
    { exists []. by rewrite app_nil_r. }
    destruct (send_users_spec td (u :: us) (splitMessage content) sent0)
      as (new & Hl & Hs & He & _).
    exists new. split; [done|]. intros e Hee. split; [by apply He|].
    rewrite Hee in Hs. exact Hs. }
  assert (Hg : forall sent0,
             exists new,
               (notifyGroup td content chatID sent0).2 = sent0 ++ new /\
               forall e, (notifyGroup td content chatID sent0).1 = Some e ->
                         e = ErrSendGroup chatID /\
                         exists pre x, new = pre ++ [x] /\
                                       Forall succeeded pre /\ x.2 = false).
  { intros sent0. unfold notifyGroup.
    destruct (send_messages_spec td chatID (splitMessage content) sent0)
      as (new & Hl & Hs & _ & _).
    destruct (send_messages td chatID (splitMessage content) sent0) as [ok s1].
    simpl in *. exists new. split; [done|]. destruct ok; [done|].
    intros e [= <-]. by split. }
  destruct (String.eqb_spec content "") as [Hc|Hc].
  { split_and!; [done|done|]. exists []. by rewrite app_nil_r. }
  destruct (String.eqb_spec (NotifyMode cfg) "private") as [Hm1|Hm1].
  { destruct (Hp sent) as (new & Hl & He).
    split_and!; [by rewrite Hm1| |by exists new].
    intros e Hee. destruct (He e Hee) as (Hu & pre & x & -> & Hpre & Hx).
    split; [left; by split|]. exists pre, x. by rewrite Hl. }
  destruct (String.eqb_spec (NotifyMode cfg) "group") as [Hm2|Hm2].
  { destruct (Hg sent) as (new & Hl & He).
    split_and!; [by rewrite Hm2| |by exists new].
    intros e Hee. destruct (He e Hee) as (-> & pre & x & -> & Hpre & Hx).
    split; [right; by split|]. exists pre, x. by rewrite Hl. }
  destruct (String.eqb_spec (NotifyMode cfg) "both") as [Hm3|Hm3].
  - destruct (Hp sent) as (new1 & Hl1 & _).
    destruct (notifyPrivate td cfg content sent) as [e1 s1]. simpl in Hl1. subst s1.
    destruct (Hg (sent ++ new1)) as (new2 & Hl2 & _).
    destruct (notifyGroup td content chatID (sent ++ new1)) as [e2 s2].
    simpl in Hl2. subst s2. simpl.
    split_and!; [done|done|]. exists (new1 ++ new2). by rewrite app_assoc.
  - split_and!; [done|done|]. exists []. by rewrite app_nil_r.
Qed.

Lemma Notify_reports_witness :
  let td := td0 (fun _ => false) in
  NotifyMode (cfg_mode "both" [7]) = "both" /\
  (Notify td (cfg_mode "both" [7]) "hi" (-5) []).1 = None /\
  (Notify td (cfg_mode "group" [7]) "hi" (-5) []).1 = Some (ErrSendGroup (-5)).
Proof.
  intros td.
  assert (H : NotifyMode (cfg_mode "both" [7]) = "both") by reflexivity.
  split; [exact H|]. split; [|reflexivity].
  exact (proj1 (Notify_reports td (cfg_mode "both" [7]) "hi" (-5) []) H).
Defined.

End NotifyContract.

(** ** The daily runs *)

Module RunsFacts.
Import GoString Ent Scheduler SchedSpec SchedulerFacts RunErrors.
Import DailyRunModel DailyRuns RunsSpec.

Lemma find_existsb {A} (f : A -> bool) l :
  List.find f l = None -> existsb f l = false.
Proof.
  induction l as [|x l IH]; simpl; [done|].
  destruct (f x); [discriminate|done].
Qed.

Lemma map_no_id id (f : DailyRun.t -> DailyRun.t) rs :
  existsb (fun r => DailyRun.ID r =? id) rs = false ->
  map (fun r => if DailyRun.ID r =? id then f r else r) rs = rs.
Proof.
  induction rs as [|x rs IH]; simpl; [done|].
  intros Hex. apply orb_false_iff in Hex as [Hx Hex].
  rewrite Hx. f_equal. by apply IH.
Qed.

Lemma update_run_no_cancel env id f rs w :
  cancel_at env = None ->
  exists e,
    update_run env id f rs w
    = ((e, map (fun r => if DailyRun.ID r =? id then f r else r) rs), w).
Proof.
  intros Hc. unfold update_run, bindR, liftR, get_runs, bind, get, ret. simpl.
  rewrite store_ok_never by done.
  destruct (existsb (fun r => DailyRun.ID r =? id) rs) eqn:Hex; simpl.
  - by eexists.
  - eexists. by rewrite map_no_id.
Qed.

Lemma execute_and_mark_no_cancel env cfg startTime endTime id rs w :
  cancel_at env = None ->
  execute_and_mark env cfg startTime endTime id rs w
  = ((tt, mark id rs),
     (executeDailySummaryForRange env cfg startTime endTime w).2).
Proof.
  intros Hc. unfold execute_and_mark, bindR at 1, liftR, bind at 1, bind at 1.
  pose proof (executeDailySummaryForRange_no_cancel env cfg startTime endTime w Hc)
    as Hex.
  destruct (executeDailySummaryForRange env cfg startTime endTime w) as [err w1].
  simpl in Hex. subst err. unfold ret. cbn [fst snd].
  unfold bindR, bind, MarkCompleted.
  destruct (update_run_no_cancel env id completed_row rs w1 Hc) as (e & He).
  unfold completed_row in He. rewrite He. done.
Qed.

Lemma same_window_completed startTime endTime r :
  same_window startTime endTime (completed_row r) = same_window startTime endTime r.
Proof. done. Qed.

Lemma find_mark startTime endTime r rs :
  List.find (same_window startTime endTime) rs = Some r ->
  List.find (same_window startTime endTime) (mark (DailyRun.ID r) rs)
  = Some (completed_row r).
Proof.
  induction rs as [|x rs IH]; simpl; [done|].
  destruct (same_window startTime endTime x) eqn:Hx.
  - intros [= ->]. rewrite Z.eqb_refl, same_window_completed, Hx. done.
  - intros Hf. destruct (DailyRun.ID x =? DailyRun.ID r);
      rewrite ?same_window_completed, Hx; by apply IH.
Qed.

Lemma find_mark_none startTime endTime id rs :
  List.find (same_window startTime endTime) rs = None ->
  List.find (same_window startTime endTime) (mark id rs) = None.
Proof.
  induction rs as [|x rs IH]; simpl; [done|].
  destruct (same_window startTime endTime x) eqn:Hx; [discriminate|].
  intros Hf. destruct (DailyRun.ID x =? id);
    rewrite ?same_window_completed, Hx; by apply IH.
Qed.

Lemma find_app_none {A} (f : A -> bool) l x :
  List.find f l = None -> f x = true -> List.find f (l ++ [x]) = Some x.
Proof.
  induction l as [|y l IH]; simpl; intros Hf Hx; [by rewrite Hx|].
  destruct (f y); [discriminate|by apply IH].
Qed.

Lemma mark_app id l k : mark id (l ++ k) = mark id l ++ mark id k.
Proof. unfold mark. by rewrite map_app. Qed.

Lemma GetByDateRange_no_cancel env startTime endTime rs w :
  cancel_at env = None ->
  GetByDateRange env startTime endTime rs w
  = ((match List.find (same_window startTime endTime) rs with
      | Some r => inr r
      | None => inl ErrRunNotFound
      end, rs), w).
Proof.
  intros Hc. unfold GetByDateRange, bindR, liftR, get_runs, bind, get, ret.
  simpl. rewrite store_ok_never by done.
  by destruct (List.find (same_window startTime endTime) rs).
Qed.

Lemma Create_no_cancel env startTime endTime status rs w :
  cancel_at env = None ->
  List.find (same_window startTime endTime) rs = None ->
  Create env startTime endTime status rs w
  = ((inr (run0 (next_run_id rs) startTime endTime status),
      rs ++ [run0 (next_run_id rs) startTime endTime status]), w).
Proof.
  intros Hc Hf. unfold Create, bindR, liftR, get_runs, bind, get, ret.
  simpl. rewrite store_ok_never by done.
  by rewrite (find_existsb _ _ Hf).
Qed.

Lemma same_window_refl startTime endTime id st e :
  same_window startTime endTime
    {| DailyRun.ID := id; DailyRun.StartTime := startTime;
       DailyRun.EndTime := endTime; DailyRun.Status := st;
       DailyRun.ErrorMessage := e |} = true.
Proof. unfold same_window. simpl. by rewrite !Z.eqb_refl. Qed.

Lemma Forall2_compose {A} (P Q T : A -> A -> Prop) l k m :
  (forall x y z, P x y -> Q y z -> T x z) ->
  Forall2 P l k -> Forall2 Q k m -> Forall2 T l m.
Proof.
  intros HT HP. revert m. induction HP as [|x y l k Hxy HP IH]; intros m HQ.
  - inversion HQ. constructor.
  - inversion HQ as [|y' z k' m' Hyz HQ']; subst. constructor; eauto.
Qed.

Lemma Forall2_In_r {A} (P : A -> A -> Prop) l k y :
  Forall2 P l k -> In y k -> exists x, In x l /\ P x y.
Proof.
  induction 1 as [|x y' l k Hxy HP IH]; simpl; [done|].
  intros [->|Hin]; [exists x; by split; [left|]|].
  destruct (IH Hin) as (x0 & Hx0 & Hp). exists x0. split; [by right|done].
Qed.

Lemma Forall2_Forall_In {A} (P : A -> A -> Prop) (Q : A -> Prop) l k :
  Forall2 P l k -> (forall x y, In x l -> P x y -> Q y) -> Forall Q k.
Proof.
  induction 1 as [|x y l k Hxy HP IH]; intros HQ; constructor.
  - apply (HQ x y); [by left|done].
  - apply IH. intros x0 y0 Hin. apply HQ. by right.
Qed.

(** The relation between a table and a later one. *)
Lemma advanced_refl r : advanced [] r r.
Proof. unfold advanced. split_and!; [done|by left|done]. Qed.

Lemma Forall2_advanced_refl rs : Forall2 (advanced []) rs rs.
Proof. induction rs; constructor; [apply advanced_refl|done]. Qed.

Lemma mark_advanced id rs : Forall2 (advanced [id]) rs (mark id rs).
Proof.
  induction rs as [|x rs IH]; simpl; constructor; [|exact IH].
  unfold advanced. destruct (Z.eqb_spec (DailyRun.ID x) id) as [Hx|Hx].
  - split_and!; [done|by right|done].
  - split_and!; [done|by left|]. simpl. intros [?|[]]. congruence.
Qed.

Lemma advanced_trans ids1 ids2 r1 r2 r3 :
  advanced ids1 r1 r2 -> advanced ids2 r2 r3 -> advanced (ids1 ++ ids2) r1 r3.
Proof.
  unfold advanced. intros (Hi1 & Hs1 & Hc1) (Hi2 & Hs2 & Hc2).
  split_and!.
  - congruence.
  - destruct Hs2 as [->|Hs2]; [done|by right].
  - intros Hin. apply in_app_or in Hin as [Hin|Hin].
    + destruct Hs2 as [->|Hs2]; [by apply Hc1|done].
    + apply Hc2. by rewrite Hi1.
Qed.

Lemma mark_all_advanced todo rs :
  Forall2 (advanced (map DailyRun.ID todo)) rs (mark_all todo rs).
Proof.
  revert rs. induction todo as [|t todo IH]; intros rs; simpl.
  - apply Forall2_advanced_refl.
  - eapply Forall2_compose;
      [|apply (mark_advanced (DailyRun.ID t) rs)|apply IH].
    intros x y z Hxy Hyz. exact (advanced_trans _ _ _ _ _ Hxy Hyz).
Qed.

Lemma recover_runs_no_cancel env cfg todo rs w :
  cancel_at env = None ->
  exists w', recover_runs env cfg todo rs w = ((false, mark_all todo rs), w').
Proof.
  intros Hc. revert rs w. induction todo as [|t todo IH]; intros rs w; simpl.
  - by eexists.
  - unfold bindR at 1, liftR, bind at 1, bind at 1, done.
    rewrite ctx_done_never by done. unfold ret. cbn [fst snd].
    unfold bindR, bind. rewrite execute_and_mark_no_cancel by done.
    cbn [fst snd]. apply IH.
Qed.

End RunsFacts.

Module RunsContract.
Import GoString Ent Scheduler SchedSpec SchedulerFacts RetentionClaims.
Import DailyRunModel DailyRuns RunsSpec RunsFacts.





End RunsContract.

Module WindowFacts.
Import GoString Ent Scheduler SchedSpec SchedulerFacts RetentionClaims.
Import DailyRunModel DailyRuns RunsSpec.

Lemma StartOfDay_mono t t' : t <= t' -> StartOfDay t <= StartOfDay t'.
Proof.
  intros Hle. unfold StartOfDay. pose proof day_pos as Hd.
  rewrite !Z.mod_eq by lia.
  pose proof (Z.div_le_mono t t' day Hd Hle). nia.
Qed.

Lemma wrap_int_opp n : 0 <= n < 2 ^ 62 -> wrap_int (- n) = - n.
Proof.
  intros Hn. unfold wrap_int. rewrite Z.mod_small by lia. lia.
Qed.

Lemma range_days_bounds cfg :
  RangeDays cfg < 2 ^ 62 -> 1 <= range_days cfg < 2 ^ 62.
Proof.
  intros Hr. unfold range_days.
  destruct (Z.leb_spec (RangeDays cfg) 0); lia.
Qed.

Lemma summary_window_eq env cfg w :
  RangeDays cfg < 2 ^ 62 ->
  summary_window env cfg w
  = (StartOfDay (now env (clock w)) - range_days cfg * day,
     StartOfDay (now env (clock w))).
Proof.
  intros Hr. unfold summary_window. fold (range_days cfg).
  rewrite wrap_int_opp by (pose proof (range_days_bounds cfg Hr); lia).
  unfold AddDays. f_equal. lia.
Qed.

Lemma cleanupMessages_messages env cfg w :
  0 <= RetentionDays cfg < 2 ^ 62 ->
  messages (cleanupMessages env cfg w).2
  = if store_ok env w
    then List.filter
           (fun m => StartOfDay (now env (clock w))
                     - (RetentionDays cfg + 1) * day <=? Message.SentAt m)
           (messages w)
    else messages w.
Proof.
  intros Hr. unfold cleanupMessages, DeleteBefore, bind, get. simpl.
  rewrite (cleanup_cutoff _ _ Hr).
  destruct (store_ok env w); simpl; [|reflexivity].
  apply List.filter_ext. intros m. rewrite Z.leb_antisym. reflexivity.
Qed.

End WindowFacts.

Module WindowAndSweep.
Import GoString Ent Scheduler SchedSpec SchedulerFacts RetentionClaims.
Import DailyRunModel DailyRuns RunsSpec WindowFacts.



End WindowAndSweep.
